(** * console-slog: the console handler for structured log records

    A shallow embedding of [handler.go] (package [console]) and of the
    pieces of the package it calls, and the properties of the handler
    stated over it.

    Go slices are modelled with their backing arrays: a slice is a
    window (array, length, capacity) onto an array of a heap, so that
    [append] writing in place into spare capacity, [make], [copy], index
    assignment and [Clip] behave as they do in Go, aliasing included. *)

From Stdlib Require Import ZArith Strings.Byte Strings.Ascii Strings.String.
From stdpp Require Import base tactics option list numbers strings.

Set Default Proof Using "Type".
Local Open Scope nat_scope.

(** ** Go slices over a heap of backing arrays *)

Module Slice.

(** A slice header.  All slices of this program start at the first cell
    of their array, so the header carries no offset. *)
Record t := mk { arr : nat; len : nat; cap : nat }.

(** The nil slice: no storage, length and capacity 0. *)
Definition null : t := mk 0 0 0.

(** The backing arrays, addressed by position; an array never moves
    and is never freed. *)
Abbreviation heap A := (list (list A)).

Section Heap.
Context {A : Type}.

Definition cells (σ : heap A) (s : t) : list A := default [] (σ !! arr s).

(** The elements of [s], i.e. [s[0:len(s)]]. *)
Definition read (σ : heap A) (s : t) : list A := take (len s) (cells σ s).

Definition valid (σ : heap A) (s : t) : Prop :=
  len s <= cap s /\ cap s <= length (cells σ s).

(** [make([]A, n)]: a fresh array of [n] zero elements. *)
Definition make (zero : A) (n : nat) (σ : heap A) : t * heap A :=
  (mk (length σ) n n, σ ++ [replicate n zero]).

(** [append(s, xs...)].  With enough spare capacity the elements are
    written in place after the last element of [s]; otherwise a new
    array is allocated, of a capacity chosen by the runtime: the
    needed length plus [slack (cap s) needed]. *)
Definition append (zero : A) (slack : nat -> nat -> nat)
    (s : t) (xs : list A) (σ : heap A) : t * heap A :=
  let n := len s + length xs in
  if decide (n <= cap s) then
    (mk (arr s) n (cap s),
     <[arr s := take (len s) (cells σ s) ++ xs ++ drop n (cells σ s)]> σ)
  else
    (mk (length σ) n (n + slack (cap s) n),
     σ ++ [read σ s ++ xs ++ replicate (slack (cap s) n) zero]).

(** [s[i] = x]; [None] is the run-time panic on an index out of range. *)
Definition set (s : t) (i : nat) (x : A) (σ : heap A) : option (heap A) :=
  if decide (i < len s) then Some (<[arr s := <[i := x]> (cells σ s)]> σ)
  else None.

(** [slices.Clip(s)], i.e. [s[:len(s):len(s)]]. *)
Definition clip (s : t) : t := mk (arr s) (len s) (len s).

(** A step from [σ] to [σ'] keeps the slice [r]: its elements are the
    same and it is still a slice of the heap. *)
Definition keeps (σ σ' : heap A) (r : t) : Prop :=
  read σ' r = read σ r /\ valid σ' r.

End Heap.

End Slice.

(** ** Data model: levels, values, attributes, records (package [log/slog]) *)

Definition Level := Z.
Definition LevelDebug : Level := (-4)%Z.
Definition LevelInfo : Level := 0%Z.
Definition LevelWarn : Level := 4%Z.
Definition LevelError : Level := 8%Z.

(** An instant, as the nanoseconds elapsed since the zero [time.Time]
    (January 1, year 1, 00:00:00 UTC). *)
Definition Time := Z.
Definition IsZero (t : Time) : bool := (t =? 0)%Z.

(** A [time.Duration]: a signed 64-bit count of nanoseconds. *)
Definition Duration := Z.

(** [slog.Source]. *)
Record Source := { Function : string; File : string; Line : Z }.

(** [slog.Value], one constructor per kind; the [Any*] constructors are
    the values of [KindAny] the handler tells apart. *)
Inductive Value :=
| AnyNil
| AnyError (msg : string)
| AnyStringer (text : string)
| AnySource (src : Source)
| AnyLevel (l : Level)
| AnyOther (repr : string)
| BoolValue (b : bool)
| DurationValue (d : Duration)
| Float64Value (bits : Z)
| Int64Value (i : Z)
| StringValue (s : string)
| TimeValue (t : Time)
| Uint64Value (u : N)
| GroupValue (g : list Attr)
| LogValuerValue (v : Value)
with Attr := mkAttr (k : string) (v : Value).

Definition isGroup (v : Value) : bool :=
  match v with
  | GroupValue _ => true
  | _ => false
  end.

Definition Key (a : Attr) : string := let 'mkAttr k _ := a in k.
Definition Val (a : Attr) : Value := let 'mkAttr _ v := a in v.

(** [slog.Attr{}]. *)
Definition zeroAttr : Attr := mkAttr EmptyString AnyNil.

Definition TimeKey : string := "time".
Definition LevelKey : string := "level".
Definition MessageKey : string := "msg".
Definition SourceKey : string := "source".

(** [slog.Record]; [attrs] is the sequence [Record.Attrs] walks. *)
Record Record_ := {
  rTime : Time;
  rMessage : string;
  rLevel : Level;
  rPC : N;
  rAttrs : list Attr
}.

Definition AddAttrs (rec : Record_) (l : list Attr) : Record_ :=
  {| rTime := rTime rec; rMessage := rMessage rec; rLevel := rLevel rec;
     rPC := rPC rec; rAttrs := rAttrs rec ++ l |}.

(** [slices.IndexFunc] and [bytes.IndexByte]: the first index, or -1. *)
Fixpoint IndexFunc {A : Type} (l : list A) (f : A -> bool) : Z :=
  match l with
  | [] => (-1)%Z
  | x :: l' => if f x then 0%Z
               else let i := IndexFunc l' f in
                    if (i <? 0)%Z then (-1)%Z else (i + 1)%Z
  end.

Definition IndexByte (b : list byte) (c : byte) : Z :=
  IndexFunc b (fun x => Byte.eqb x c).

(** ** The handler (handler.go) *)

Definition error := string.

(** An [io.Writer], by the error its [Write] answers a chunk with
    ([None] is the nil error). *)
Definition Writer := list byte -> option error.

(** A [Theme], by its name; its colour table is the encoder's business. *)
Definition Theme := string.
Definition NewDefaultTheme : Theme := "Default".

(** [time.DateTime]. *)
Definition DateTime : string := "2006-01-02 15:04:05".

Record HandlerOptions := {
  AddSource : bool;
  Level_ : option Level;
  NoColor : bool;
  TimeFormat : string;
  Theme_ : option Theme;
  ReplaceAttr : option (list string -> Attr -> Attr);
  Headers : list string;
  HeaderWidth : Z;
  TruncateSourcePath : Z
}.

(** [new(HandlerOptions)]. *)
Definition zeroOptions : HandlerOptions :=
  {| AddSource := false; Level_ := None; NoColor := false; TimeFormat := EmptyString;
     Theme_ := None; ReplaceAttr := None; Headers := []; HeaderWidth := 0;
     TruncateSourcePath := 0 |}.

Record Handler := {
  opts : HandlerOptions;
  out : Writer;
  groupPrefix : string;
  groups : Slice.t;      (* []string *)
  context : Slice.t;     (* buffer, a []byte *)
  headers : Slice.t      (* []slog.Attr *)
}.

(** Which field of the record a call of the rewrite hook is made for. *)
Inductive origin := OTime | OLevel | OMessage | OSource | OAttr | OHeader.

Record hookcall := { hc_origin : origin; hc_groups : list string; hc_attr : Attr }.

(** The state the handlers run in: the three heaps of backing arrays,
    the encoder pool (each pooled encoder by the header storage it
    retains), and what the outside has seen so far: the chunks given to
    [Write] and the calls of the rewrite hook, oldest first. *)
Record state := {
  bytesH : Slice.heap byte;
  attrsH : Slice.heap Attr;
  strsH : Slice.heap string;
  pool : list Slice.t;
  writes : list (list byte);
  hooks : list hookcall
}.

Definition emptyState : state :=
  {| bytesH := []; attrsH := []; strsH := []; pool := []; writes := []; hooks := [] |}.

Definition set_bytesH (f : Slice.heap byte -> Slice.heap byte) (σ : state) : state :=
  {| bytesH := f (bytesH σ); attrsH := attrsH σ; strsH := strsH σ;
     pool := pool σ; writes := writes σ; hooks := hooks σ |}.
Definition set_attrsH (f : Slice.heap Attr -> Slice.heap Attr) (σ : state) : state :=
  {| bytesH := bytesH σ; attrsH := f (attrsH σ); strsH := strsH σ;
     pool := pool σ; writes := writes σ; hooks := hooks σ |}.
Definition set_strsH (f : Slice.heap string -> Slice.heap string) (σ : state) : state :=
  {| bytesH := bytesH σ; attrsH := attrsH σ; strsH := f (strsH σ);
     pool := pool σ; writes := writes σ; hooks := hooks σ |}.
Definition set_pool (f : list Slice.t -> list Slice.t) (σ : state) : state :=
  {| bytesH := bytesH σ; attrsH := attrsH σ; strsH := strsH σ;
     pool := f (pool σ); writes := writes σ; hooks := hooks σ |}.
Definition set_writes (f : list (list byte) -> list (list byte)) (σ : state) : state :=
  {| bytesH := bytesH σ; attrsH := attrsH σ; strsH := strsH σ;
     pool := pool σ; writes := f (writes σ); hooks := hooks σ |}.
Definition set_hooks (f : list hookcall -> list hookcall) (σ : state) : state :=
  {| bytesH := bytesH σ; attrsH := attrsH σ; strsH := strsH σ;
     pool := pool σ; writes := writes σ; hooks := f (hooks σ) |}.

(** The monad of the handler's code: state passing; [None] is a panic. *)
Definition M (A : Type) : Type := state -> option (A * state).

Definition ret {A} (x : A) : M A := fun σ => Some (x, σ).
Definition bind {A B} (m : M A) (k : A -> M B) : M B :=
  fun σ => match m σ with Some (x, σ') => k x σ' | None => None end.
Definition panic {A} : M A := fun _ => None.

Notation "'let*' x ':=' m 'in' k" := (bind m (fun x => k))
  (at level 10, x pattern, m at level 100, k at level 200).
Notation "m ';;' k" := (bind m (fun _ => k))
  (at level 100, k at level 200, right associativity).

Fixpoint foldM {A B} (f : B -> A -> M B) (l : list A) (b : B) : M B :=
  match l with
  | [] => ret b
  | x :: l' => let* b' := f b x in foldM f l' b'
  end.

(** *** Slice operations in the monad *)

(** The runtime's growth policy for [append]: the spare capacity of a
    newly allocated array, from the old capacity and the needed length. *)
Definition growth := nat -> nat -> nat.

Definition readBytes (s : Slice.t) : M (list byte) :=
  fun σ => Some (Slice.read (bytesH σ) s, σ).
Definition readAttrs (s : Slice.t) : M (list Attr) :=
  fun σ => Some (Slice.read (attrsH σ) s, σ).
Definition readStrs (s : Slice.t) : M (list string) :=
  fun σ => Some (Slice.read (strsH σ) s, σ).

Definition appendBytes (slack : growth) (s : Slice.t) (xs : list byte) : M Slice.t :=
  fun σ => let '(s', hp) := Slice.append x00 slack s xs (bytesH σ) in
           Some (s', set_bytesH (fun _ => hp) σ).
Definition appendAttrs (slack : growth) (s : Slice.t) (xs : list Attr) : M Slice.t :=
  fun σ => let '(s', hp) := Slice.append zeroAttr slack s xs (attrsH σ) in
           Some (s', set_attrsH (fun _ => hp) σ).
Definition appendStrs (slack : growth) (s : Slice.t) (xs : list string) : M Slice.t :=
  fun σ => let '(s', hp) := Slice.append EmptyString slack s xs (strsH σ) in
           Some (s', set_strsH (fun _ => hp) σ).

Definition makeAttrs (n : nat) : M Slice.t :=
  fun σ => let '(s, hp) := Slice.make zeroAttr n (attrsH σ) in
           Some (s, set_attrsH (fun _ => hp) σ).

(** [s[i]] as an expression and [s[i] = a] as a statement, on []slog.Attr;
    both panic on an index out of range. *)
Definition indexAttrs (s : Slice.t) (i : nat) : M Attr :=
  fun σ => match Slice.read (attrsH σ) s !! i with
           | Some a => Some (a, σ)
           | None => None
           end.
Definition setAttrs (s : Slice.t) (i : nat) (a : Attr) : M unit :=
  fun σ => match Slice.set s i a (attrsH σ) with
           | Some hp => Some (tt, set_attrsH (fun _ => hp) σ)
           | None => None
           end.

(** [copy(dst, src)] on []slog.Attr: the first [min (len dst) (len src)]
    elements. *)
Definition copyAttrs (dst src : Slice.t) : M unit :=
  fun σ =>
    let xs := take (Slice.len dst) (Slice.read (attrsH σ) src) in
    let c := Slice.cells (attrsH σ) dst in
    Some (tt, set_attrsH (fun hp => <[Slice.arr dst := xs ++ drop (length xs) c]> hp) σ).

(** *** What handler.go calls: the encoder, the buffers, the runtime *)

(** What a formatting step does: the bytes it appends to the buffer it is
    given, and the calls of the rewrite hook it makes, as (groups,
    attribute) pairs. *)
Definition emit := (list byte * list (list string * Attr))%type.

(** Modelled from the spec: encoder.go is not among the sources.  The
    text buffer is append-only and "all internal formatting steps are
    total functions", so each write method of the encoder is taken as a
    parameter, by what it appends and which hook calls it makes, from the
    options and groups of the handler the encoder was made for and the
    arguments of the call. *)
Class Encoder := {
  writeTimestamp : HandlerOptions -> Time -> emit;
  writeLevel : HandlerOptions -> Level -> emit;
  writeHeaderSeparator : HandlerOptions -> list byte;
  writeMessage : HandlerOptions -> Level -> string -> emit;
  writeAttr : HandlerOptions -> list string -> Attr -> string -> emit;
  writeHeader : HandlerOptions -> Attr -> Z -> emit;
  writeHeaders : HandlerOptions -> list Attr -> emit
}.

(** The Go runtime and standard library, as far as handler.go uses them:
    the growth policy of [append], the frame of a program counter
    ([runtime.CallersFrames]), and [strings.TrimSpace]. *)
Class GoRuntime := {
  growslice : growth;
  CallersFrames : N -> Source;
  TrimSpace : string -> string
}.

(** Modelled from the spec: the [encoder] struct (encoder.go) is not
    among the sources; handler.go uses its fields [headerBuf],
    [middleBuf], [trailerBuf] and [headers].  Here it is the handler's
    options and groups it was made for, and its own header storage.  Its
    three buffers are "cleared and reused", so empty when it is
    acquired, and no handler ever holds a reference to them: they are
    the local byte sequences of [Handle]. *)
Record encoder := {
  enc_opts : HandlerOptions;
  enc_groups : list string;
  enc_headers : Slice.t
}.

(** Modelled from the spec: [newEncoder] and [encoder.free] (encoder.go)
    are not among the sources; "acquire three working buffers
    (pooled/reused across calls)", "cleared and reused rather than
    recreated": [newEncoder] takes an encoder out of the pool, or makes
    one when the pool is empty; [free] clears it and puts it back. *)
Definition newEncoder (h : Handler) : M encoder :=
  let* gs := readStrs (groups h) in
  fun σ => match pool σ with
           | [] => Some ({| enc_opts := opts h; enc_groups := gs;
                            enc_headers := Slice.null |}, σ)
           | s :: p => Some ({| enc_opts := opts h; enc_groups := gs;
                                enc_headers := s |}, set_pool (fun _ => p) σ)
           end.

(** Modelled from the spec: [encoder.free] (encoder.go) is not among the
    sources; the encoder is cleared, its storage kept, and put back. *)
Definition free (e : encoder) : M unit :=
  fun σ =>
    let s := enc_headers e in
    Some (tt, set_pool (fun p => Slice.mk (Slice.arr s) 0 (Slice.cap s) :: p) σ).

(** The hook calls of a formatting step, marked with the field. *)
Definition tag (o : origin) (l : list (list string * Attr)) : list hookcall :=
  map (fun ga => Build_hookcall o ga.1 ga.2) l.

(** A formatting step on one of the encoder's own buffers. *)
Definition encWrite (o : origin) (buf : list byte) (e : emit) : M (list byte) :=
  fun σ => Some (buf ++ e.1, set_hooks (fun l => l ++ tag o e.2) σ).

(** A formatting step on a buffer that lives in the heap (a context). *)
Definition encWriteTo (slack : growth) (o : origin) (s : Slice.t) (e : emit) : M Slice.t :=
  let* s' := appendBytes slack s e.1 in
  fun σ => Some (s', set_hooks (fun l => l ++ tag o e.2) σ).

(** Modelled from the spec: [encoder.NewLine] (encoder.go) is not among
    the sources; "append a newline". *)
Definition NewLine (buf : list byte) : list byte := buf ++ [x0a].

(** Modelled from the spec: [buffer.Clip] (buffer.go) is not among the
    sources; the new context "shares a trimmed-capacity prefix" of the
    storage it was built in: [slices.Clip]. *)
Definition Clip (b : Slice.t) : Slice.t := Slice.clip b.

(** Modelled from the spec: [buffer.WriteTo] (buffer.go) is not among the
    sources; "issue exactly one write to the sink; propagate and return
    any error from that write". *)
Definition WriteTo (buf : list byte) (w : Writer) : M (option error) :=
  fun σ => Some (w buf, set_writes (fun l => l ++ [buf]) σ).

Definition set_Level (l : option Level) (o : HandlerOptions) : HandlerOptions :=
  {| AddSource := AddSource o; Level_ := l; NoColor := NoColor o;
     TimeFormat := TimeFormat o; Theme_ := Theme_ o; ReplaceAttr := ReplaceAttr o;
     Headers := Headers o; HeaderWidth := HeaderWidth o;
     TruncateSourcePath := TruncateSourcePath o |}.
Definition set_TimeFormat (f : string) (o : HandlerOptions) : HandlerOptions :=
  {| AddSource := AddSource o; Level_ := Level_ o; NoColor := NoColor o;
     TimeFormat := f; Theme_ := Theme_ o; ReplaceAttr := ReplaceAttr o;
     Headers := Headers o; HeaderWidth := HeaderWidth o;
     TruncateSourcePath := TruncateSourcePath o |}.
Definition set_Theme (t : option Theme) (o : HandlerOptions) : HandlerOptions :=
  {| AddSource := AddSource o; Level_ := Level_ o; NoColor := NoColor o;
     TimeFormat := TimeFormat o; Theme_ := t; ReplaceAttr := ReplaceAttr o;
     Headers := Headers o; HeaderWidth := HeaderWidth o;
     TruncateSourcePath := TruncateSourcePath o |}.

(** [NewHandler(out, opts)]; a nil [opts] is [None]. *)
Definition NewHandler (out : Writer) (opts : option HandlerOptions) : M Handler :=
  let opts := match opts with None => zeroOptions | Some o => o end in
  let opts := match Level_ opts with
              | None => set_Level (Some LevelInfo) opts
              | Some _ => opts
              end in
  let opts := if String.eqb (TimeFormat opts) EmptyString then set_TimeFormat DateTime opts
              else opts in
  let opts := match Theme_ opts with
              | None => set_Theme (Some NewDefaultTheme) opts
              | Some _ => opts
              end in
  let* hs := makeAttrs (length (Headers opts)) in
  ret {| opts := opts; out := out; groupPrefix := EmptyString; groups := Slice.null;
         context := Slice.null; headers := hs |}.

(** [h.Enabled(ctx, l)]; calling [Level()] on a nil [Leveler] panics. *)
Definition Enabled (h : Handler) (l : Level) : option bool :=
  match Level_ (opts h) with
  | Some threshold => Some (threshold <=? l)%Z
  | None => None
  end.

(** The variables of the closure [Handle] passes to [rec.Attrs]. *)
Record walk := {
  w_headers : Slice.t;
  w_localHeaders : bool;
  w_middle : list byte;
  w_trailer : list byte
}.

Definition matchHeader (h : Handler) (a : Attr) : Z :=
  IndexFunc (Headers (opts h)) (fun s => String.eqb s (Key a)).

Section Handler.
Context {E : Encoder} {R : GoRuntime}.

(** The attribute [Handle] adds for the call site. *)
Definition sourceAttr (pc : N) : Attr :=
  let frame := CallersFrames pc in
  mkAttr SourceKey (AnySource {| Function := Function frame; File := File frame;
                                 Line := Line frame |}).

(** The body of the closure, for one attribute of the record. *)
Definition handleAttr (h : Handler) (enc : encoder) (w : walk)
    (oa : origin * Attr) : M walk :=
  let a := oa.2 in
  let idx := matchHeader h a in
  if (0 <=? idx)%Z then
    let* w := (if w_localHeaders w then ret w
               else
                 let* hs := readAttrs (headers h) in
                 let* s := appendAttrs growslice (enc_headers enc) hs in
                 ret {| w_headers := s; w_localHeaders := true;
                        w_middle := w_middle w; w_trailer := w_trailer w |}) in
    setAttrs (w_headers w) (Z.to_nat idx) a ;;
    ret w
  else
    let offset := length (w_middle w) in
    let* middle := encWrite oa.1 (w_middle w)
                     (writeAttr (enc_opts enc) (enc_groups enc) a (groupPrefix h)) in
    let lastAttr := drop offset middle in
    if (0 <=? IndexByte lastAttr x0a)%Z then
      ret {| w_headers := w_headers w; w_localHeaders := w_localHeaders w;
             w_middle := take offset middle;
             w_trailer := w_trailer w ++ lastAttr |}
    else
      ret {| w_headers := w_headers w; w_localHeaders := w_localHeaders w;
             w_middle := middle; w_trailer := w_trailer w |}.

(** The attributes [rec.Attrs] walks, each with the field it stands
    for: the record's own, then the call site when [AddSource] is set
    and the record has a program counter.  The record is a value here:
    what [rec.AddAttrs] does to the array that [Handle]'s copy of the
    record shares with the caller's is not followed, so the properties
    on what [Handle] allocates, and on [Handle] called again with the
    same record, are stated for records it adds nothing to. *)
Definition walked (h : Handler) (rec : Record_) : list (origin * Attr) :=
  map (pair OAttr) (rAttrs rec) ++
  (if AddSource (opts h) && (0 <? rPC rec)%N
   then [(OSource, sourceAttr (rPC rec))] else []).

(** [Handle], up to the point where the three buffers are filled
    (lines 127 to 234): the encoder, the header buffer, and the
    closure's variables with the middle and trailer buffers.
    [buffer.copy] "appends one buffer's full contents to another and
    does not clear the source". *)
Definition fill (h : Handler) (rec : Record_) : M (encoder * list byte * walk) :=
  let* enc := newEncoder h in
  let* headerBuf := encWrite OTime [] (writeTimestamp (enc_opts enc) (rTime rec)) in
  let* middleBuf := encWrite OLevel [] (writeLevel (enc_opts enc) (rLevel rec)) in
  let middleBuf := middleBuf ++ writeHeaderSeparator (enc_opts enc) in
  let* middleBuf := encWrite OMessage middleBuf
                      (writeMessage (enc_opts enc) (rLevel rec) (rMessage rec)) in
  let* ctx := readBytes (context h) in
  let middleBuf := middleBuf ++ ctx in
  let* w := foldM (handleAttr h enc) (walked h rec)
              {| w_headers := headers h; w_localHeaders := false;
                 w_middle := middleBuf; w_trailer := [] |} in
  let* hs := readAttrs (w_headers w) in
  let* headerBuf :=
    (if (0 <? HeaderWidth (opts h))%Z then
       foldM (fun buf a =>
                encWrite OHeader buf (writeHeader (enc_opts enc) a (HeaderWidth (opts h))))
             hs headerBuf
     else if 0 <? length hs then
       encWrite OHeader headerBuf (writeHeaders (enc_opts enc) hs)
     else ret headerBuf) in
  ret (enc, headerBuf, w).

(** [h.Handle(ctx, rec)]: the rest (lines 236 to 254) terminates the
    line, concatenates the buffers, writes, and frees the encoder. *)
Definition Handle (h : Handler) (rec : Record_) : M (option error) :=
  let* filled := fill h rec in
  let '(enc, headerBuf, w) := filled in
  let middleBuf := if length (w_trailer w) =? 0 then NewLine (w_middle w)
                   else w_middle w in
  let trailerBuf := if length (w_trailer w) =? 0 then w_trailer w
                    else NewLine (w_trailer w) in
  let headerBuf := (headerBuf ++ middleBuf) ++ trailerBuf in
  let* err := WriteTo headerBuf (out h) in
  match err with
  | Some e => ret (Some e)
  | None => free enc ;; ret None
  end.

(** [h.extractHeaders(attrs)]: the loop ranges over the indices of
    [attrs], reading [attrs[i]] when it gets there. *)
Definition extractHeaders (h : Handler) (attrs : Slice.t) : M Slice.t :=
  let* r := foldM (fun (st : Slice.t * bool) i =>
              let* attr := indexAttrs attrs i in
              let idx := matchHeader h attr in
              if (0 <=? idx)%Z then
                let* hs := (if negb st.2 then
                              let* hs := makeAttrs (Slice.len (headers h)) in
                              copyAttrs hs (headers h) ;;
                              ret hs
                            else ret st.1) in
                setAttrs hs (Z.to_nat idx) attr ;;
                setAttrs attrs i zeroAttr ;;
                ret (hs, true)
              else ret st)
            (seq 0 (Slice.len attrs)) (headers h, false) in
  ret r.1.

Definition WithAttrs (h : Handler) (attrs : Slice.t) : M Handler :=
  let* headers_ := extractHeaders h attrs in
  let newCtx := context h in
  let* enc := newEncoder h in
  let* as_ := readAttrs attrs in
  let* newCtx := foldM (fun ctx a =>
                    encWriteTo growslice OAttr ctx
                      (writeAttr (enc_opts enc) (enc_groups enc) a (groupPrefix h)))
                  as_ newCtx in
  let newCtx := Clip newCtx in
  ret {| opts := opts h; out := out h; groupPrefix := groupPrefix h;
         context := newCtx; groups := groups h; headers := headers_ |}.

Definition WithGroup (h : Handler) (name : string) : M Handler :=
  let name := TrimSpace name in
  let groupPrefix_ := if String.eqb (groupPrefix h) EmptyString then name
                      else (groupPrefix h ++ "." ++ name)%string in
  let* gs := appendStrs growslice (groups h) [name] in
  ret {| opts := opts h; out := out h; groupPrefix := groupPrefix_;
         context := context h; groups := gs; headers := headers h |}.

End Handler.

(** ** Durations (duration.go, and [time.Duration.String] of Go) *)

Module DurationFmt.
Local Open Scope Z_scope.

Definition Nanosecond : Duration := 1.
Definition Microsecond : Duration := 1000 * Nanosecond.
Definition Millisecond : Duration := 1000 * Microsecond.
Definition Second : Duration := 1000 * Millisecond.
Definition Minute : Duration := 60 * Second.
Definition Hour : Duration := 60 * Minute.
Definition Day : Duration := 24 * Hour.



Definition digit (n : Z) : ascii := ascii_of_N (48 + Z.to_N n).

(** The two helpers of package [time], writing backwards from the end
    of a byte array: here, in front of [tail].  [fmtInt] loops while
    [v > 0]; twenty rounds exhaust any 64-bit [v]. *)
Fixpoint fmtInt_loop (rounds : nat) (tail : string) (v : Z) : string :=
  match rounds with
  | O => tail
  | S r => if 0 <? v then fmtInt_loop r (String (digit (v mod 10)) tail) (v / 10)
           else tail
  end.

Definition fmtInt (tail : string) (v : Z) : string :=
  if v =? 0 then String "0" tail else fmtInt_loop 20 tail v.

Fixpoint fmtFrac_loop (prec : nat) (tail : string) (v : Z) (print : bool)
    : string * Z * bool :=
  match prec with
  | O => (tail, v, print)
  | S p =>
      let digit_ := v mod 10 in
      let print := print || negb (digit_ =? 0) in
      let tail := if print then String (digit digit_) tail else tail in
      fmtFrac_loop p tail (v / 10) print
  end.

Definition fmtFrac (tail : string) (v : Z) (prec : nat) : string * Z :=
  let '(tail, v, print) := fmtFrac_loop prec tail v false in
  ((if print then String "." tail else tail), v).

(** The micro sign, U+00B5, in UTF-8. *)
Definition micro : string := String "194" (String "181" EmptyString).


(** Modelled from the spec: the sub-second case of [appendDuration]
    (duration.go, not among the sources): the unit (milliseconds,
    microseconds or nanoseconds) in which the span has a non-zero
    integer part, and its remainder as a fraction without trailing
    zeros. *)
Definition subSecond (u : Z) : string :=
  if u <? Microsecond then fmtInt "ns" u
  else if u <? Millisecond then
    fmtInt (fmtFrac (micro ++ "s") (u mod Microsecond) 3).1 (u / Microsecond)
  else
    fmtInt (fmtFrac "ms" (u mod Millisecond) 6).1 (u / Millisecond).

(** Modelled from the spec: [appendDuration] (duration.go) is not among
    the sources, only its test is.  "Decompose the absolute span into
    whole hours, minutes, seconds, and a sub-second remainder; if the
    magnitude is zero, emit a canonical 0s token; otherwise emit only
    the units needed starting from the largest non-zero unit down
    through seconds, [...] never padding unnecessary zero units.  For
    spans of 24 hours or more, prepend a day count (NdNhNmNs).
    Negative spans are prefixed with - and otherwise formatted on the
    absolute value." *)
Definition formatDuration (d : Duration) : string :=
  let u := Z.abs d in
  let days := u / Day in
  let hours := (u / Hour) mod 24 in
  let minutes := (u / Minute) mod 60 in
  let seconds := (u / Second) mod 60 in
  let text :=
    if u =? 0 then "0s"%string
    else if u <? Second then subSecond u
    else
      let s := fmtInt (fmtFrac "s" (u mod Second) 9).1 seconds in
      let m := if Minute <=? u then fmtInt (String "m" s) minutes else s in
      let h := if Hour <=? u then fmtInt (String "h" m) hours else m in
      if Day <=? u then fmtInt (String "d" h) days else h in
  if d <? 0 then String "-" text else text.


End DurationFmt.

(** ** The encoder, after the spec (encoder.go, theme.go) *)

Module SpecEncoder.

(** The roles a theme has a modifier for. *)
Inductive role :=
  | RTimestamp | RLevel (l : Level) | RSource | RMessage | RMessageDebug
  | RAttrKey | RAttrValue.

(** The formats the encoder gets from elsewhere: the layout of a
    time, the shortest text of a float, the text of a call site, and
    the modifier sequence a theme has for a role. *)
Class Formats := {
    formatTime : string -> Time -> string;
    formatFloat : Z -> string;
    formatSource : HandlerOptions -> Source -> string;
    ansi : Theme -> role -> string
  }.

Definition ResetMod : string := String "027" "[0m".

Section Encode.
Context {F : Formats}.

(** Modelled from the spec: [encoder.withColor] (encoder.go) and the
    themes (theme.go) are not among the sources.  "When coloring is
    disabled, the Renderer must skip all theme queries and writes"; "a
    single reset sequence applied after any non-empty modifier". *)
Definition withColor (o : HandlerOptions) (r : role) (text : string) : string :=
  if NoColor o then text
  else match Theme_ o with
       | None => text
       | Some th => let m := ansi th r in
                    if String.eqb m EmptyString then text else (m ++ text ++ ResetMod)%string
       end.

(** Modelled from the spec: the abbreviation [encoder.writeLevel]
    (encoder.go) writes is not among the sources.  A "3-letter band code
    optionally suffixed +N/-N": the band's three letters, and the signed
    distance from the band's level when there is one. *)
Definition levelText (l : Level) : string :=
  let '(str, delta) :=
    if (LevelError <=? l)%Z then ("ERR", l - LevelError)%Z
    else if (LevelWarn <=? l)%Z then ("WRN", l - LevelWarn)%Z
    else if (LevelInfo <=? l)%Z then ("INF", l - LevelInfo)%Z
    else ("DBG", l - LevelDebug)%Z in
  if (delta =? 0)%Z then str
  else if (0 <? delta)%Z then (str ++ "+" ++ DurationFmt.fmtInt EmptyString delta)%string
  else (str ++ "-" ++ DurationFmt.fmtInt EmptyString (- delta))%string.

Definition intText (i : Z) : string :=
  if (i <? 0)%Z then String "-" (DurationFmt.fmtInt EmptyString (- i))
  else DurationFmt.fmtInt EmptyString i.

(** "Resolution of lazy values": unwrap until the value is no longer
    a lazily-resolved one. *)
Fixpoint Resolve (v : Value) : Value :=
  match v with
  | LogValuerValue v' => Resolve v'
  | _ => v
  end.

(** Modelled from the spec: [encoder.writeValue] (encoder.go) is not
    among the sources; the text of a value that is not a group, each
    kind with its "defined textual fallback". *)
Definition valueText (o : HandlerOptions) (v : Value) : string :=
  match Resolve v with
  | AnyNil => "<nil>"
  | AnyError msg => msg
  | AnyStringer text => text
  | AnySource src => formatSource o src
  | AnyLevel l => levelText l
  | AnyOther repr => repr
  | BoolValue b => if b then "true" else "false"
  | DurationValue d => DurationFmt.formatDuration d
  | Float64Value bits => formatFloat bits
  | Int64Value i => intText i
  | StringValue s => s
  | TimeValue t => formatTime (TimeFormat o) t
  | Uint64Value u => DurationFmt.fmtInt EmptyString (Z.of_N u)
  | GroupValue _ => EmptyString
  | LogValuerValue _ => EmptyString
  end.

Definition isEmptyValue (v : Value) : bool :=
  match v with
  | AnyNil => true
  | TimeValue t => IsZero t
  | _ => false
  end.

Definition qualify (prefix k : string) : string :=
  if String.eqb prefix EmptyString then k else (prefix ++ "." ++ k)%string.

Definition emit_app (e1 e2 : emit) : emit := (e1.1 ++ e2.1, e1.2 ++ e2.2).

(** One [key=value] token, with its leading space. *)
Definition token (o : HandlerOptions) (prefix k : string) (v : Value) : list byte :=
  list_byte_of_string
    (" " ++ withColor o RAttrKey (qualify prefix k ++ "=")
         ++ withColor o RAttrValue (valueText o v)).

(** Modelled from the spec: what [encoder.writeAttr] (encoder.go, not
    among the sources) writes for an attribute the hook has returned,
    without calling the hook again: lazy values are resolved, a group is
    walked (inlined when its key is empty), an attribute with empty key
    and absent value is left out. *)
Fixpoint plainAttr (o : HandlerOptions) (prefix k : string) (v : Value)
    {struct v} : list byte :=
  match v with
  | LogValuerValue v' => plainAttr o prefix k v'
  | GroupValue g =>
      let prefix' := if String.eqb k EmptyString then prefix else qualify prefix k in
      (fix walk (l : list Attr) : list byte :=
         match l with
         | [] => []
         | mkAttr k' v' :: l' => plainAttr o prefix' k' v' ++ walk l'
         end) g
  | AnyNil => if String.eqb k EmptyString then [] else token o prefix k v
  | _ => token o prefix k v
  end.

(** Modelled from the spec: the leaf case of [encoder.writeAttr]
    (encoder.go, not among the sources).  The hook is "invoked once per
    non-group, non-empty attribute, with the attribute's accumulated
    group-path and the attribute itself (after lazy-value resolution)";
    what it returns is written in its place, and "an attribute with an
    empty value suppresses the field". *)
Definition leaf (o : HandlerOptions) (gs : list string) (prefix k : string)
    (v : Value) : emit :=
  match ReplaceAttr o with
  | None => (token o prefix k v, [])
  | Some f =>
      let a := f gs (mkAttr k v) in
      ((if isEmptyValue (Resolve (Val a)) then []
        else plainAttr o prefix (Key a) (Val a)),
       [(gs, mkAttr k v)])
  end.

(** Modelled from the spec: [encoder.writeAttr] (encoder.go) is not
    among the sources.  "Render it as key=value (recursing into
    groups per the data model's inlining/suppression rules, applying
    the group-path prefix, invoking the rewrite hook per leaf
    attribute with its accumulated group-path, and resolving
    lazy/textual values immediately before rewriting is applied)". *)
Fixpoint attrEmit (o : HandlerOptions) (gs : list string) (prefix k : string)
    (v : Value) {struct v} : emit :=
  match v with
  | LogValuerValue v' => attrEmit o gs prefix k v'
  | GroupValue g =>
      let prefix' := if String.eqb k EmptyString then prefix else qualify prefix k in
      let gs' := if String.eqb k EmptyString then gs else gs ++ [k] in
      (fix walk (l : list Attr) : emit :=
         match l with
         | [] => ([], [])
         | mkAttr k' v' :: l' => emit_app (attrEmit o gs' prefix' k' v') (walk l')
         end) g
  | AnyNil => if String.eqb k EmptyString then ([], []) else leaf o gs prefix k v
  | _ => leaf o gs prefix k v
  end.

(** Modelled from the spec: a builtin field under the hook, which gets
    the empty group-path "for all builtins" (encoder.go, not among the
    sources). *)
Definition builtin (o : HandlerOptions) (k : string) (v : Value)
    (text : Value -> string) : emit :=
  match ReplaceAttr o with
  | None => (list_byte_of_string (text v), [])
  | Some f =>
      let v' := Resolve (Val (f [] (mkAttr k v))) in
      ((if isEmptyValue v' then [] else list_byte_of_string (text v')),
       [([], mkAttr k v)])
  end.

(** Modelled from the spec: [encoder.writeTimestamp], [writeLevel],
    [writeHeaderSeparator], [writeMessage], [writeHeader] and
    [writeHeaders] (encoder.go) are not among the sources.  "If the
    record's timestamp is non-zero, write it (through rewriting) into
    header; if zero, omit entirely"; "the severity abbreviation,
    followed by a single-character field separator, followed by the
    message (after rewriting)"; header slots "padded/truncated" to
    the configured width, or "at natural width". *)
Definition specTimestamp (o : HandlerOptions) (t : Time) : emit :=
  if IsZero t then ([], [])
  else builtin o TimeKey (TimeValue t)
         (fun v => (withColor o RTimestamp (valueText o v) ++ " ")%string).

Definition specLevel (o : HandlerOptions) (l : Level) : emit :=
  builtin o LevelKey (AnyLevel l)
    (fun v => match v with
              | AnyLevel l' => withColor o (RLevel l') (levelText l')
              | _ => valueText o v
              end).

Definition specSeparator (o : HandlerOptions) : list byte :=
  list_byte_of_string " ".

Definition specMessage (o : HandlerOptions) (l : Level) (msg : string) : emit :=
  builtin o MessageKey (StringValue msg)
    (fun v => withColor o (if (LevelInfo <=? l)%Z then RMessage else RMessageDebug)
                (valueText o v)).

Fixpoint fit (width : nat) (s : string) : string :=
  match width with
  | O => EmptyString
  | S w => match s with
           | EmptyString => String " " (fit w EmptyString)
           | String c s' => String c (fit w s')
           end
  end.

Definition specHeader (o : HandlerOptions) (a : Attr) (width : Z) : emit :=
  (list_byte_of_string
     (withColor o RAttrValue (fit (Z.to_nat width) (valueText o (Val a))) ++ " "),
   []).

Definition specHeaders (o : HandlerOptions) (hs : list Attr) : emit :=
  (flat_map (fun a => if isEmptyValue (Resolve (Val a)) then []
                      else list_byte_of_string
                             (withColor o RAttrValue (valueText o (Val a)) ++ " "))
            hs,
   []).

#[export] Instance specEncoder : Encoder := {|
    writeTimestamp := specTimestamp;
    writeLevel := specLevel;
    writeHeaderSeparator := specSeparator;
    writeMessage := specMessage;
    writeAttr := fun o gs a prefix => attrEmit o gs prefix (Key a) (Val a);
    writeHeader := specHeader;
    writeHeaders := specHeaders
  |}.

End Encode.
End SpecEncoder.

(** ** A concrete runtime, formats and sinks, to run the handler on *)

Module Demo.
Import SpecEncoder.

(** A runtime that doubles what is needed, resolves a program counter to a
    line of main.go, and trims nothing. *)
#[export] Instance runtime : GoRuntime := {|
    growslice := fun old needed => needed;
    CallersFrames := fun pc => {| Function := "main.main"; File := "main.go";
                                  Line := Z.of_N pc |};
    TrimSpace := fun s => s
  |}.

#[export] Instance formats : Formats := {|
    formatTime := fun layout t => ("T" ++ DurationFmt.fmtInt EmptyString t)%string;
    formatFloat := fun bits => ("F" ++ DurationFmt.fmtInt EmptyString bits)%string;
    formatSource := fun o src => (File src ++ ":" ++ DurationFmt.fmtInt EmptyString (Line src))%string;
    ansi := fun th r => EmptyString%string
  |}.

(** A sink that takes everything, and one that refuses everything. *)
Definition discard : Writer := fun _ => None.
Definition failing : Writer := fun _ => Some "nope"%string.

(** A slice literal [[]slog.Attr{...}] of the caller. *)
Definition literal (l : list Attr) : M Slice.t :=
  fun σ => Some (Slice.mk (length (attrsH σ)) (length l) (length l),
                 set_attrsH (fun hp => hp ++ [l]) σ).

Definition noColor : HandlerOptions :=
  {| AddSource := false; Level_ := None; NoColor := true; TimeFormat := EmptyString;
     Theme_ := None; ReplaceAttr := None; Headers := []; HeaderWidth := 0;
     TruncateSourcePath := 0 |}.

Definition info (msg : string) (l : list Attr) : Record_ :=
  {| rTime := 0%Z; rMessage := msg; rLevel := LevelInfo; rPC := 0%N; rAttrs := l |}.

(** The last chunk written to the sink, as text. *)
Definition lastWrite (σ : state) : string :=
  string_of_list_byte (List.last (writes σ) []).

(** Options with one header key, and the handler [NewHandler] makes of
    them in the empty state, writing to [w]. *)
Definition withLogger : HandlerOptions :=
  {| AddSource := false; Level_ := None; NoColor := true; TimeFormat := EmptyString;
     Theme_ := None; ReplaceAttr := None; Headers := ["logger"%string];
     HeaderWidth := 0; TruncateSourcePath := 0 |}.

Definition logger (w : Writer) : Handler :=
  {| opts := set_Theme (Some NewDefaultTheme)
               (set_TimeFormat DateTime (set_Level (Some LevelInfo) withLogger));
     out := w; groupPrefix := EmptyString; groups := Slice.null; context := Slice.null;
     headers := Slice.mk 0 1 1 |}.

(** The state after [NewHandler] and a slice literal of the caller,
    [attrs2], with a plain attribute and a header attribute. *)
Definition twoAttrs : list Attr :=
  [mkAttr "k" (StringValue "v"); mkAttr "logger" (StringValue "L1")].

Definition attrs2 : Slice.t := Slice.mk 1 2 2.

Definition st2 : state :=
  {| bytesH := []; attrsH := [[zeroAttr]; twoAttrs]; strsH := []; pool := [];
     writes := []; hooks := [] |}.

(** A handler with a rewrite hook that keeps every attribute, and with
    [AddSource] set; it has no header keys. *)
Definition hooked : Handler :=
  {| opts := {| AddSource := true; Level_ := Some LevelInfo; NoColor := true;
                TimeFormat := DateTime; Theme_ := Some NewDefaultTheme;
                ReplaceAttr := Some (fun _ a => a); Headers := [];
                HeaderWidth := 0; TruncateSourcePath := 0 |};
     out := discard; groupPrefix := EmptyString; groups := Slice.null; context := Slice.null;
     headers := Slice.mk 0 0 0 |}.

(** A string value of two lines. *)
Definition twoLines : Value := StringValue (String "a" (String "010" "b")).

(** A handler with a bound attribute of two lines, and the state it is
    made in: [NewHandler], a slice literal, [WithAttrs]. *)
Definition bound : option (Handler * state) :=
  (let* h := NewHandler discard (Some noColor) in
   let* sl := literal [mkAttr "k" twoLines] in
   WithAttrs h sl) emptyState.

End Demo.

(** ** What a call computes, from the contents it reads

    The properties below speak of a call of [Handle] through the
    contents of the handler's slices: the groups [gs], the context bytes
    [ctx] and the header slots [hs]. *)

Section Contents.
Context {E : Encoder} {R : GoRuntime}.

(** [bytes.IndexByte(t, '\n') >= 0]. *)
Definition multiline (t : list byte) : bool := (0 <=? IndexByte t x0a)%Z.

(** The attributes written in line: those whose key is no header key. *)
Definition inline (h : Handler) (oa : origin * Attr) : bool :=
  (matchHeader h oa.2 <? 0)%Z.

(** The tokens of the attributes written in line, in order. *)
Definition tokens (h : Handler) (gs : list string) (rec : Record_)
    : list (list byte) :=
  map (fun oa => (writeAttr (opts h) gs oa.2 (groupPrefix h)).1)
      (List.filter (inline h) (walked h rec)).

(** The header slots once the record's attributes have been stored. *)
Definition store (h : Handler) (hs : list Attr) (oa : origin * Attr) : list Attr :=
  let idx := matchHeader h oa.2 in
  if (0 <=? idx)%Z then <[Z.to_nat idx := oa.2]> hs else hs.

Definition slots (h : Handler) (hs : list Attr) (rec : Record_) : list Attr :=
  fold_left (store h) (walked h rec) hs.

(** Level, separator and message. *)
Definition prelude (h : Handler) (rec : Record_) : list byte :=
  ((writeLevel (opts h) (rLevel rec)).1 ++ writeHeaderSeparator (opts h))
  ++ (writeMessage (opts h) (rLevel rec) (rMessage rec)).1.

Definition headerEmits (h : Handler) (hs : list Attr) (rec : Record_) : list emit :=
  let sl := slots h hs rec in
  if (0 <? HeaderWidth (opts h))%Z then
    map (fun a => writeHeader (opts h) a (HeaderWidth (opts h))) sl
  else if 0 <? length sl then [writeHeaders (opts h) sl]
  else [].

Definition headerText (h : Handler) (hs : list Attr) (rec : Record_) : list byte :=
  (writeTimestamp (opts h) (rTime rec)).1 ++ concat (map fst (headerEmits h hs rec)).

Definition middleText (h : Handler) (gs : list string) (ctx : list byte)
    (rec : Record_) : list byte :=
  (prelude h rec ++ ctx)
  ++ concat (List.filter (fun t => negb (multiline t)) (tokens h gs rec)).

Definition trailerText (h : Handler) (gs : list string) (rec : Record_) : list byte :=
  concat (List.filter multiline (tokens h gs rec)).

(** The chunk given to the sink. *)
Definition line (h : Handler) (gs : list string) (ctx : list byte)
    (hs : list Attr) (rec : Record_) : list byte :=
  headerText h hs rec ++ middleText h gs ctx rec ++ trailerText h gs rec ++ [x0a].

(** The calls of the rewrite hook, in order. *)
Definition calls (h : Handler) (gs : list string) (hs : list Attr)
    (rec : Record_) : list hookcall :=
  tag OTime (writeTimestamp (opts h) (rTime rec)).2
  ++ tag OLevel (writeLevel (opts h) (rLevel rec)).2
  ++ tag OMessage (writeMessage (opts h) (rLevel rec) (rMessage rec)).2
  ++ flat_map (fun oa => tag oa.1 (writeAttr (opts h) gs oa.2 (groupPrefix h)).2)
              (List.filter (inline h) (walked h rec))
  ++ flat_map (fun e => tag OHeader e.2) (headerEmits h hs rec).

End Contents.

(** The handler's slices are slices of the heaps, and it has a slot for
    each header key. *)
Definition wf (σ : state) (h : Handler) : Prop :=
  length (Headers (opts h)) <= Slice.len (headers h) /\
  Slice.valid (attrsH σ) (headers h) /\
  Slice.valid (bytesH σ) (context h) /\
  Slice.valid (strsH σ) (groups h).

(** The pooled encoders are cleared, and their header storage is theirs. *)
Definition pool_ok (σ : state) : Prop :=
  Forall (fun s => Slice.len s = 0 /\ Slice.valid (attrsH σ) s) (pool σ).

(** The chunks written between two states. *)
Definition sunk (σ σ' : state) : list (list byte) :=
  drop (length (writes σ)) (writes σ').

(** The invariant of the attribute walk of [Handle]: the slots in use
    are a slice of the heap with a slot for each header key; until the
    first header attribute they are the handler's own, and the encoder's
    header storage is still empty. *)
Definition walk_ok (σ : state) (h : Handler) (enc : encoder) (w : walk) : Prop :=
  length (Headers (opts h)) <= Slice.len (w_headers w) /\
  Slice.valid (attrsH σ) (w_headers w) /\
  (w_localHeaders w = false ->
   w_headers w = headers h /\ Slice.len (enc_headers enc) = 0 /\
   Slice.valid (attrsH σ) (enc_headers enc)).

(** The slice [r] is apart from the storage [e] of an encoder: it is in
    another array, or is empty, or the storage has no room at all. *)
Definition apart (e r : Slice.t) : Prop :=
  Slice.arr r <> Slice.arr e \/ Slice.len r = 0 \/ Slice.cap e = 0.

(** The slice [r] is clear of what the walk may write to: the local
    slots once they are made, the encoder's storage before. *)
Definition clear_of (enc : encoder) (w : walk) (r : Slice.t) : Prop :=
  if w_localHeaders w then Slice.arr r <> Slice.arr (w_headers w) \/ Slice.len r = 0
  else apart (enc_headers enc) r.

(** A step that leaves everything but the attribute heap and the hook
    calls as it was. *)
Definition untouched (σ σ' : state) : Prop :=
  bytesH σ' = bytesH σ /\ strsH σ' = strsH σ /\ pool σ' = pool σ /\
  writes σ' = writes σ.

(** What [extractHeaders] leaves of an attribute of the caller, and the
    slots it fills from a list of attributes. *)
Definition strip (h : Handler) (a : Attr) : Attr :=
  if (0 <=? matchHeader h a)%Z then zeroAttr else a.

Definition bound_slots (h : Handler) (hs : list Attr) (l : list Attr) : list Attr :=
  fold_left (fun hs a => store h hs (OAttr, a)) l hs.

(** The invariant of the loop of [extractHeaders], before index [i]:
    [σ0] is the state at entry, [l] and [hs0] the caller's attributes
    and the handler's slots then, [st] the loop's variables [headers]
    and [changed]. *)
Definition extract_inv (h : Handler) (attrs : Slice.t) (σ0 : state)
    (i : nat) (st : Slice.t * bool) (σ : state) : Prop :=
  let l := Slice.read (attrsH σ0) attrs in
  let hs0 := Slice.read (attrsH σ0) (headers h) in
  Slice.read (attrsH σ) attrs = map (strip h) (take i l) ++ drop i l /\
  Slice.valid (attrsH σ) attrs /\
  length (attrsH σ0) <= length (attrsH σ) /\
  Slice.read (attrsH σ) st.1 = bound_slots h hs0 (take i l) /\
  Slice.valid (attrsH σ) st.1 /\
  Slice.len st.1 = Slice.len (headers h) /\
  (if st.2 then length (attrsH σ0) <= Slice.arr st.1
   else st.1 = headers h /\ attrsH σ = attrsH σ0) /\
  hooks σ = hooks σ0 /\ untouched σ0 σ /\
  (forall r, Slice.valid (attrsH σ0) r ->
             Slice.arr r <> Slice.arr attrs \/ Slice.len r = 0 ->
             Slice.keeps (attrsH σ0) (attrsH σ) r).

(** The invariant of the loop of [WithAttrs] on the new context [s]:
    [σ0] is the state at entry and [c0] the parent's context.  The new
    context is still in the parent's array, beyond the parent's length,
    or in an array allocated since; no slice of the entry state that
    stays within the parent's length loses its contents; and from a
    parent without spare capacity no array of the entry state is written
    at all. *)
Definition ctx_inv (c0 : Slice.t) (σ0 : state) (s : Slice.t) (σ : state) : Prop :=
  Slice.valid (bytesH σ) s /\
  (Slice.arr s = Slice.arr c0 /\ Slice.len c0 <= Slice.len s \/
   length (bytesH σ0) <= Slice.arr s) /\
  length (bytesH σ0) <= length (bytesH σ) /\
  (forall r, Slice.valid (bytesH σ0) r ->
             Slice.arr r <> Slice.arr c0 \/ Slice.len r <= Slice.len c0 ->
             Slice.keeps (bytesH σ0) (bytesH σ) r) /\
  (Slice.cap c0 <= Slice.len c0 ->
   (s = c0 \/ length (bytesH σ0) <= Slice.arr s) /\
   take (length (bytesH σ0)) (bytesH σ) = bytesH σ0) /\
  attrsH σ = attrsH σ0 /\ strsH σ = strsH σ0 /\ pool σ = pool σ0 /\
  writes σ = writes σ0.

(** A context without spare capacity. *)
Definition clipped (h : Handler) : Prop :=
  Slice.cap (context h) <= Slice.len (context h).

(** The threshold a handler is configured with: the [Level] option, or
    the info level when there is none. *)
Definition threshold (o : option HandlerOptions) : Level :=
  match o with
  | Some o' => default LevelInfo (Level_ o')
  | None => LevelInfo
  end.

(** ** The package's [init] (handler.go, lines 15 to 26) *)

(** [strings.ReplaceAll(s, old, new)] for [old] and [new] of one byte
    each, as [init] calls it. *)
Fixpoint ReplaceAll (s : string) (old new : ascii) : string :=
  match s with
  | EmptyString => EmptyString
  | String c s' => String (if Ascii.eqb c old then new else c) (ReplaceAll s' old new)
  end.

(** [init]: the package variable [cwd], from what [os.Getwd] returned
    (the empty string when it failed): backslashes become slashes. *)
Definition init (wd : string) : string := ReplaceAll wd "092" "047".

(** ** Programs that call the handler

    A program is a sequence of calls on the handlers it has made so
    far, each named by its position. *)
Inductive call :=
| CNewHandler (w : Writer) (o : option HandlerOptions)
| CWithAttrs (i : nat) (l : list Attr)
| CWithGroup (i : nat) (name : string)
| CHandle (i : nat) (rec : Record_).

(** A slice literal [[]slog.Attr{...}] of the caller: a new array, full. *)
Definition sliceLiteral (l : list Attr) : M Slice.t :=
  fun σ => Some (Slice.mk (length (attrsH σ)) (length l) (length l),
                 set_attrsH (fun hp => hp ++ [l]) σ).

Section Program.
Context {E : Encoder} {R : GoRuntime}.

(** One call; a call on a handler that was never made is skipped. *)
Definition step (hs : list Handler) (c : call) : M (list Handler) :=
  match c with
  | CNewHandler w o => let* h := NewHandler w o in ret (hs ++ [h])
  | CWithAttrs i l =>
      match hs !! i with
      | Some h => let* attrs := sliceLiteral l in
                  let* h' := WithAttrs h attrs in
                  ret (hs ++ [h'])
      | None => ret hs
      end
  | CWithGroup i name =>
      match hs !! i with
      | Some h => let* h' := WithGroup h name in ret (hs ++ [h'])
      | None => ret hs
      end
  | CHandle i rec =>
      match hs !! i with
      | Some h => Handle h rec ;; ret hs
      | None => ret hs
      end
  end.

Definition run (cs : list call) : M (list Handler) := foldM step cs [].

End Program.

(** The [Handle] calls of a program that reach a handler, when it
    starts with [n] handlers. *)
Fixpoint logged (n : nat) (cs : list call) : nat :=
  match cs with
  | [] => 0
  | CNewHandler _ _ :: cs' => logged (S n) cs'
  | CWithAttrs i _ :: cs' => logged (if decide (i < n) then S n else n) cs'
  | CWithGroup i _ :: cs' => logged (if decide (i < n) then S n else n) cs'
  | CHandle i _ :: cs' => (if decide (i < n) then 1 else 0) + logged n cs'
  end.

(** What holds of the handlers and the pool throughout a program. *)
Definition world_ok (σ : state) (hs : list Handler) : Prop :=
  Forall (fun h => wf σ h /\ clipped h) hs /\
  Forall (fun s => s = Slice.null) (pool σ).

(** The tokens [WithAttrs] writes to the new context, for the
    attributes [l] that [extractHeaders] left. *)
Definition boundTokens {E : Encoder} (h : Handler) (gs : list string)
    (l : list Attr) : list byte :=
  concat (map (fun a => (writeAttr (opts h) gs a (groupPrefix h)).1) l).

(** The last attribute of [l] that is stored in the slot [i]. *)
Definition lastStored (h : Handler) (i : nat) (l : list (origin * Attr)) : option Attr :=
  snd <$> List.find (fun oa => (matchHeader h oa.2 =? Z.of_nat i)%Z) (rev l).

(** [Handle] adds no attribute to the record: [AddSource] is not set,
    or the record has no program counter (handler.go, line 140). *)
Definition addsNothing (h : Handler) (rec : Record_) : bool :=
  negb (AddSource (opts h) && (0 <? rPC rec)%N).

(** * Properties

    First the facts on slices and on the steps of the handler's code,
    then the properties of the handler themselves. *)

Module SliceFacts.
Import Slice.
Section Facts.
Context {A : Type} (zero : A) (slack : nat -> nat -> nat).
Implicit Types (σ : heap A) (s r : t).

Lemma read_length σ s : valid σ s -> length (read σ s) = len s.
Proof. intros [H1 H2]. unfold read. rewrite length_take. lia. Qed.

Lemma valid_fresh σ r : valid σ r -> arr r < length σ \/ cap r = 0.
Proof.
  intros [H1 H2]. unfold cells in H2.
  destruct (σ !! arr r) eqn:Hl.
  - left. eapply lookup_lt_Some; eauto.
  - right. simpl in H2. lia.
Qed.

Lemma cells_insert_eq σ i s c :
  arr s = i -> i < length σ -> cells (<[i := c]> σ) s = c.
Proof. intros <- H. unfold cells. rewrite list_lookup_insert_eq; auto. Qed.

Lemma cells_insert_ne σ i r c : arr r <> i -> cells (<[i := c]> σ) r = cells σ r.
Proof. intros H. unfold cells. rewrite list_lookup_insert_ne; auto. Qed.

Lemma cells_app_l σ r c : arr r < length σ -> cells (σ ++ [c]) r = cells σ r.
Proof. intros H. unfold cells. rewrite lookup_app_l; auto. Qed.

Lemma cells_app_new σ r c : arr r = length σ -> cells (σ ++ [c]) r = c.
Proof.
  intros H. unfold cells. rewrite lookup_app_r by lia.
  rewrite H, Nat.sub_diag. reflexivity.
Qed.

(** Allocation leaves every slice of the heap as it was. *)
Lemma alloc_keeps σ r c :
  valid σ r -> keeps σ (σ ++ [c]) r.
Proof.
  intros Hv. unfold keeps. destruct (valid_fresh _ _ Hv) as [Hlt|Hc].
  - unfold read, valid. rewrite cells_app_l by done. auto.
  - destruct Hv as [H1 H2]. unfold read, valid.
    assert (len r = 0) as -> by lia. rewrite Hc. simpl. split; auto. lia.
Qed.

(** Rewriting an array keeps a slice whose cells it keeps. *)
Lemma insert_keeps σ r i c :
  valid σ r ->
  (arr r = i ->
   length c = length (cells σ r) /\ take (len r) c = take (len r) (cells σ r)) ->
  keeps σ (<[i := c]> σ) r.
Proof.
  intros Hv Hc. unfold keeps. destruct (decide (arr r = i)) as [<-|Hne].
  - destruct (valid_fresh _ _ Hv) as [Hlt|H0].
    + destruct (Hc eq_refl) as [Hl Ht].
      unfold read, valid. rewrite cells_insert_eq by done || lia.
      destruct Hv as [H1 H2]. split; [done | lia].
    + destruct Hv as [H1 H2]. unfold read, valid.
      assert (len r = 0) as -> by lia. rewrite H0. simpl. split; auto. lia.
  - unfold read, valid. rewrite cells_insert_ne by done. auto.
Qed.

Lemma append_read σ s xs :
  valid σ s ->
  read (append zero slack s xs σ).2 (append zero slack s xs σ).1 = read σ s ++ xs.
Proof.
  intros Hv. pose proof Hv as [H1 H2]. unfold append.
  case_decide as Hn; simpl.
  - destruct (valid_fresh _ _ Hv) as [Hlt|H0].
    + unfold read at 1. simpl. rewrite cells_insert_eq by done || lia.
      rewrite app_assoc, take_app_le by (rewrite length_app, length_take; lia).
      rewrite take_ge by (rewrite length_app, length_take; lia). reflexivity.
    + assert (length xs = 0) as Hx by lia. destruct xs; [|done].
      unfold read. simpl. rewrite Nat.add_0_r, app_nil_r.
      assert (len s = 0) as -> by lia. reflexivity.
  - unfold read at 1. simpl. rewrite cells_app_new by done.
    rewrite app_assoc, take_app_le by (rewrite length_app, read_length; auto; lia).
    rewrite take_ge by (rewrite length_app, read_length; auto; lia). reflexivity.
Qed.

Lemma append_valid σ s xs :
  valid σ s -> valid (append zero slack s xs σ).2 (append zero slack s xs σ).1.
Proof.
  intros Hv. pose proof Hv as [H1 H2]. unfold append.
  case_decide as Hn; simpl.
  - destruct (valid_fresh _ _ Hv) as [Hlt|H0].
    + split; simpl; [lia|]. rewrite cells_insert_eq by done || lia.
      rewrite !length_app, length_take, length_drop. lia.
    + split; simpl; lia.
  - split; simpl; [lia|]. rewrite cells_app_new by done.
    rewrite !length_app, read_length, length_replicate by done. lia.
Qed.

Lemma append_len σ s xs : len (append zero slack s xs σ).1 = len s + length xs.
Proof. unfold append. case_decide; reflexivity. Qed.

(** [append] keeps every slice that does not reach into the cells it
    writes: a slice of another array, or a slice of the same array no
    longer than the one appended to. *)
Lemma append_keeps σ s xs r :
  valid σ s -> valid σ r -> (arr r <> arr s \/ len r <= len s) ->
  keeps σ (append zero slack s xs σ).2 r.
Proof.
  intros Hs Hr Hsep. pose proof Hs as [H1 H2]. unfold append.
  case_decide as Hn; simpl.
  - apply insert_keeps; [done|]. intros Heq.
    assert (cells σ r = cells σ s) as Hc by (unfold cells; by rewrite Heq).
    rewrite Hc. split.
    + rewrite !length_app, length_take, length_drop. lia.
    + destruct Hsep as [?|Hle]; [done|].
      rewrite take_app_le by (rewrite length_take; lia).
      rewrite take_take. f_equal. lia.
  - by apply alloc_keeps.
Qed.

(** With no spare capacity, [append] of something allocates: the heap
    only grows at its end. *)
Lemma append_clipped σ s xs :
  cap s <= len s ->
  (append zero slack s xs σ).2 = σ \/
  exists c, (append zero slack s xs σ) =
            (mk (length σ) (len s + length xs)
                (len s + length xs + slack (cap s) (len s + length xs)), σ ++ [c]).
Proof.
  intros Hc. unfold append. case_decide as Hn; simpl.
  - left. assert (length xs = 0) as Hx by lia. destruct xs; [|done]. simpl.
    rewrite Nat.add_0_r, take_drop.
    unfold cells. destruct (σ !! arr s) eqn:Hl; simpl.
    + by apply list_insert_id.
    + apply list_insert_ge. by apply lookup_ge_None.
  - right. eauto.
Qed.

Lemma set_read σ s i x σ' :
  valid σ s -> set s i x σ = Some σ' ->
  read σ' s = <[i := x]> (read σ s) /\ valid σ' s /\ i < len s.
Proof.
  intros Hv. pose proof Hv as [H1 H2]. unfold set. case_decide as Hi; [|done].
  intros [= <-]. destruct (valid_fresh _ _ Hv) as [Hlt|H0]; [|lia].
  unfold read, valid. rewrite cells_insert_eq by done || lia.
  rewrite length_insert. split; [|done].
  by rewrite take_insert_lt.
Qed.

Lemma set_keeps σ s i x σ' r :
  set s i x σ = Some σ' -> valid σ r -> (arr r <> arr s \/ len r = 0) ->
  keeps σ σ' r.
Proof.
  unfold set. case_decide as Hi; [|done]. intros [= <-] Hr Hsep.
  apply insert_keeps; [done|]. intros Heq.
  assert (cells σ r = cells σ s) as Hc by (unfold cells; by rewrite Heq).
  rewrite Hc, length_insert. split; [done|].
  destruct Hsep as [?|H0]; [done|]. by rewrite H0.
Qed.

Lemma keeps_refl σ r : valid σ r -> keeps σ σ r.
Proof. by split. Qed.

Lemma keeps_trans σ1 σ2 σ3 r : keeps σ1 σ2 r -> keeps σ2 σ3 r -> keeps σ1 σ3 r.
Proof. intros [H1 H2] [H3 H4]. split; [congruence|done]. Qed.

Lemma make_read n σ :
  read (make zero n σ).2 (make zero n σ).1 = replicate n zero /\
  valid (make zero n σ).2 (make zero n σ).1.
Proof.
  unfold make, read, valid. simpl. rewrite cells_app_new by done.
  rewrite length_replicate. split; [|lia].
  apply take_ge. by rewrite length_replicate.
Qed.

End Facts.
End SliceFacts.

Import SliceFacts.

(** ** Facts on the index functions *)

Lemma IndexFunc_range {A} (l : list A) f :
  (-1 <= IndexFunc l f < Z.of_nat (length l))%Z.
Proof.
  induction l as [|x l IH]; simpl; [lia|].
  destruct (f x); [lia|]. destruct (Z.ltb_spec (IndexFunc l f) 0); lia.
Qed.

Lemma IndexFunc_neg {A} (l : list A) f :
  (IndexFunc l f < 0)%Z <-> Forall (fun x => f x = false) l.
Proof.
  induction l as [|x l IH]; simpl.
  - split; [constructor|lia].
  - destruct (f x) eqn:Hf.
    + split; [lia|]. intros H. inversion H; congruence.
    + pose proof (IndexFunc_range l f).
      destruct (Z.ltb_spec (IndexFunc l f) 0).
      * split; [|lia]. intros _. constructor; [done|]. apply IH. lia.
      * split; [lia|]. intros H'. inversion H'; subst. apply IH in H4. lia.
Qed.

Lemma multiline_In (t : list byte) : multiline t = true <-> In x0a t.
Proof.
  unfold multiline, IndexByte. rewrite Z.leb_le.
  pose proof (IndexFunc_neg t (fun x => Byte.eqb x x0a)) as Hn.
  rewrite Forall_forall in Hn. split.
  - intros H. destruct (in_dec Byte.byte_eq_dec x0a t) as [|Hnot]; [done|].
    exfalso. assert (IndexFunc t (fun x => Byte.eqb x x0a) < 0)%Z; [|lia].
    apply Hn. intros x Hx. apply list_elem_of_In in Hx.
    destruct (Byte.eqb x x0a) eqn:He; [|done].
    apply Byte.byte_dec_bl in He. congruence.
  - intros H. destruct (Z.ltb_spec (IndexFunc t (fun x => Byte.eqb x x0a)) 0) as [Hlt|]; [|lia].
    apply Hn with (x := x0a) in Hlt; [|by apply list_elem_of_In].
    by rewrite (Byte.byte_dec_lb eq_refl) in Hlt.
Qed.

(** ** The attribute walk of [Handle] *)

Section Walk.
Context {E : Encoder} {R : GoRuntime}.
Implicit Types (h : Handler) (enc : encoder) (w : walk) (σ : state).

Lemma matchHeader_slot h a :
  (0 <= matchHeader h a)%Z -> Z.to_nat (matchHeader h a) < length (Headers (opts h)).
Proof.
  intros H. unfold matchHeader in *.
  pose proof (IndexFunc_range (Headers (opts h)) (fun s => String.eqb s (Key a))). lia.
Qed.

Lemma untouched_refl σ : untouched σ σ.
Proof. by repeat split. Qed.

Lemma untouched_trans σ1 σ2 σ3 : untouched σ1 σ2 -> untouched σ2 σ3 -> untouched σ1 σ3.
Proof. intros (?&?&?&?) (?&?&?&?). repeat split; congruence. Qed.

(** An attribute with a header key goes to its slot, in the local copy
    of the slots, made when the first such attribute is met. *)
Lemma handleAttr_header h enc σ w oa :
  walk_ok σ h enc w -> (0 <= matchHeader h oa.2)%Z ->
  exists w' σ',
    handleAttr h enc w oa σ = Some (w', σ') /\
    walk_ok σ' h enc w' /\
    w_localHeaders w' = true /\
    w_middle w' = w_middle w /\ w_trailer w' = w_trailer w /\
    Slice.read (attrsH σ') (w_headers w') =
      <[Z.to_nat (matchHeader h oa.2) := oa.2]> (Slice.read (attrsH σ) (w_headers w)) /\
    hooks σ' = hooks σ /\ untouched σ σ' /\
    (forall r, Slice.valid (attrsH σ) r -> clear_of enc w r ->
               Slice.keeps (attrsH σ) (attrsH σ') r /\ clear_of enc w' r).
Proof.
  intros (Hlen & Hval & Hloc) Hidx.
  pose proof (matchHeader_slot _ _ Hidx) as Hslot.
  unfold handleAttr. apply Z.leb_le in Hidx. rewrite Hidx.
  destruct (w_localHeaders w) eqn:Hl.
  - (* the slots are local already *)
    unfold bind at 1. unfold ret at 1. unfold bind, setAttrs, ret.
    destruct (Slice.set (w_headers w) (Z.to_nat (matchHeader h oa.2)) oa.2 (attrsH σ))
      as [hp|] eqn:Hset.
    2: { unfold Slice.set in Hset. case_decide; [done|exfalso; lia]. }
    destruct (set_read _ _ _ _ _ Hval Hset) as (Hr & Hv' & _).
    eexists _, _. split; [reflexivity|]. simpl.
    split; [|split; [done|split; [done|split; [done|split; [done|split; [done|split]]]]]].
    + split; [done|]. split; [done|]. congruence.
    + by repeat split.
    + intros r Hvr Hsep. unfold clear_of in *. simpl. rewrite Hl in *. split; [|done].
      eapply set_keeps; eauto.
  - (* first header attribute: copy the handler's slots *)
    destruct (Hloc eq_refl) as (Heq & He0 & Hev).
    unfold bind at 1. unfold bind at 1. unfold readAttrs.
    unfold bind at 1. unfold appendAttrs.
    pose proof (append_read zeroAttr growslice (attrsH σ) (enc_headers enc)
                  (Slice.read (attrsH σ) (headers h)) Hev) as Har.
    pose proof (append_valid zeroAttr growslice (attrsH σ) (enc_headers enc)
                  (Slice.read (attrsH σ) (headers h)) Hev) as Hav.
    pose proof (append_len zeroAttr growslice (attrsH σ) (enc_headers enc)
                  (Slice.read (attrsH σ) (headers h))) as Hal.
    pose proof (fun r Hr => append_keeps zeroAttr growslice (attrsH σ) (enc_headers enc)
                  (Slice.read (attrsH σ) (headers h)) r Hev Hr) as Hak.
    pose proof (append_clipped zeroAttr growslice (attrsH σ) (enc_headers enc)
                  (Slice.read (attrsH σ) (headers h))) as Hac.
    destruct (Slice.append zeroAttr growslice (enc_headers enc)
                (Slice.read (attrsH σ) (headers h)) (attrsH σ)) as [s hp] eqn:Happ.
    simpl in Har, Hav, Hal, Hak.
    unfold ret at 1. unfold bind, setAttrs, ret. simpl.
    rewrite Heq in Hval, Hlen.
    rewrite read_length in Hal by done. rewrite He0 in Hal. simpl in Hal.
    destruct (Slice.set s (Z.to_nat (matchHeader h oa.2)) oa.2 hp) as [hp'|] eqn:Hset.
    2: { unfold Slice.set in Hset. case_decide; [done|exfalso; lia]. }
    destruct (set_read _ _ _ _ _ Hav Hset) as (Hr & Hv' & _).
    eexists _, _. split; [reflexivity|]. simpl.
    split; [|split; [done|split; [done|split; [done|split; [|split; [done|split]]]]]].
    + unfold walk_ok; simpl. split; [lia|]. split; [done|]. done.
    + rewrite Hr, Har, Heq.
      assert (Slice.read (attrsH σ) (enc_headers enc) = []) as ->; [|done].
      unfold Slice.read. by rewrite He0.
    + by repeat split.
    + intros r Hvr Hsep. unfold clear_of in *. rewrite Hl in *. simpl.
      assert (Slice.arr r <> Slice.arr s \/ Slice.len r = 0) as Hs.
      { destruct (decide (Slice.len r = 0)) as [?|Hr0]; [by right|]. left.
        unfold Slice.append in Happ. case_decide as Hfit.
        - injection Happ as <- <-. simpl.
          destruct Hsep as [?|[?|Hc0]]; [done|done|].
          rewrite read_length in Hfit by done. lia.
        - injection Happ as <- <-. simpl.
          destruct (valid_fresh _ _ Hvr) as [?|Hc]; [lia|].
          destruct Hvr. lia. }
      assert (Slice.keeps (attrsH σ) hp r) as Hkr.
      { destruct (decide (Slice.cap (enc_headers enc) = 0)) as [Hc0|Hc0].
        - destruct Hac as [Hsame|(c & Hc)]; [lia| |].
          + simpl in Hsame. subst hp. by apply keeps_refl.
          + injection Hc as _ ->. by apply alloc_keeps.
        - apply Hak; [done|]. destruct Hsep as [?|[?|?]]; [by left|right; lia|done]. }
      split; [|done].
      eapply keeps_trans; [done|].
      eapply set_keeps; eauto. apply Hkr.
Qed.

(** An attribute written in line goes to the middle buffer, and from
    there to the trailer when its token has a line break. *)
Lemma handleAttr_inline h enc σ w oa :
  (matchHeader h oa.2 < 0)%Z ->
  let t := (writeAttr (enc_opts enc) (enc_groups enc) oa.2 (groupPrefix h)) in
  handleAttr h enc w oa σ =
  Some ({| w_headers := w_headers w; w_localHeaders := w_localHeaders w;
           w_middle := w_middle w ++ (if multiline t.1 then [] else t.1);
           w_trailer := w_trailer w ++ (if multiline t.1 then t.1 else []) |},
        set_hooks (fun l => l ++ tag oa.1 t.2) σ).
Proof.
  intros Hidx t. unfold handleAttr.
  assert ((0 <=? matchHeader h oa.2)%Z = false) as -> by lia.
  unfold bind, encWrite, ret. fold t.
  rewrite drop_app_length, take_app_length.
  fold (multiline t.1). destruct (multiline t.1); by rewrite ?app_nil_r.
Qed.

Lemma walk_run h enc l : forall σ w,
  walk_ok σ h enc w ->
  let toks := map (fun oa => (writeAttr (enc_opts enc) (enc_groups enc) oa.2
                                (groupPrefix h)).1) (List.filter (inline h) l) in
  exists w' σ',
    foldM (handleAttr h enc) l w σ = Some (w', σ') /\
    walk_ok σ' h enc w' /\
    w_middle w' = w_middle w ++ concat (List.filter (fun t => negb (multiline t)) toks) /\
    w_trailer w' = w_trailer w ++ concat (List.filter multiline toks) /\
    Slice.read (attrsH σ') (w_headers w') =
      fold_left (store h) l (Slice.read (attrsH σ) (w_headers w)) /\
    hooks σ' = hooks σ ++
      flat_map (fun oa => tag oa.1 (writeAttr (enc_opts enc) (enc_groups enc) oa.2
                                      (groupPrefix h)).2) (List.filter (inline h) l) /\
    untouched σ σ' /\
    (forall r, Slice.valid (attrsH σ) r -> clear_of enc w r ->
               Slice.keeps (attrsH σ) (attrsH σ') r).
Proof.
  induction l as [|oa l IH]; intros σ w Hok; simpl.
  - exists w, σ. rewrite !app_nil_r. split_and!; try done; apply Hok.
  - unfold bind at 1.
    destruct (Z.ltb_spec (matchHeader h oa.2) 0) as [Hin|Hhd].
    + (* in line *)
      rewrite handleAttr_inline by done.
      set (t := writeAttr (enc_opts enc) (enc_groups enc) oa.2 (groupPrefix h)).
      set (w1 := {| w_headers := w_headers w |}).
      set (σ1 := set_hooks _ σ).
      assert (walk_ok σ1 h enc w1) as Hok1 by apply Hok.
      destruct (IH σ1 w1 Hok1) as (w' & σ' & Hrun & Hok' & Hm & Ht & Hs & Hh & Hu & Hk).
      exists w', σ'. split; [done|]. split; [done|].
      assert (inline h oa = true) as -> by (unfold inline; lia).
      assert (forall hs, store h hs oa = hs) as Hst.
      { intros hs. unfold store.
        by assert ((0 <=? matchHeader h oa.2)%Z = false) as -> by lia. }
      simpl. fold t. rewrite Hm, Ht, Hh, Hs, Hst. simpl.
      destruct Hu as (?&?&?&?).
      destruct (multiline t.1) eqn:Hml; simpl; rewrite <- ?app_assoc, ?app_nil_r;
        split_and!; done.
    + (* a header *)
      destruct (handleAttr_header h enc σ w oa Hok Hhd)
        as (w1 & σ1 & -> & Hok1 & Hl1 & Hm1 & Ht1 & Hs1 & Hh1 & Hu1 & Hk1).
      destruct (IH σ1 w1 Hok1) as (w' & σ' & Hrun & Hok' & Hm & Ht & Hs & Hh & Hu & Hk).
      exists w', σ'. split; [done|]. split; [done|].
      assert (inline h oa = false) as -> by (unfold inline; lia).
      assert (forall hs, store h hs oa = <[Z.to_nat (matchHeader h oa.2) := oa.2]> hs) as Hst.
      { intros hs. unfold store.
        by assert ((0 <=? matchHeader h oa.2)%Z = true) as -> by lia. }
      rewrite Hm, Ht, Hh, Hs, Hm1, Ht1, Hh1, Hs1, Hst.
      split_and!; try done.
      * eapply untouched_trans; eauto.
      * intros r Hr Hsep. destruct (Hk1 r) as [Hk1r Hsep1]; [done..|].
        eapply keeps_trans; [done|]. apply Hk; [apply Hk1r|done].
Qed.

End Walk.

(** ** A call of [Handle], step by step *)

Section Run.
Context {E : Encoder} {R : GoRuntime}.
Implicit Types (h : Handler) (enc : encoder) (w : walk) (σ : state).

Lemma headers_run (f : Attr -> emit) hs : forall buf σ,
  exists σ',
    foldM (fun buf a => encWrite OHeader buf (f a)) hs buf σ =
      Some (buf ++ concat (map (fun a => (f a).1) hs), σ') /\
    hooks σ' = hooks σ ++ flat_map (fun a => tag OHeader (f a).2) hs /\
    attrsH σ' = attrsH σ /\ untouched σ σ'.
Proof.
  induction hs as [|a hs IH]; intros buf σ; simpl.
  - exists σ. rewrite !app_nil_r. split_and!; try done.
  - unfold bind at 1. unfold encWrite at 1.
    destruct (IH (buf ++ (f a).1) (set_hooks (fun l => l ++ tag OHeader (f a).2) σ))
      as (σ' & -> & Hh & Ha & Hu).
    exists σ'. rewrite Hh, Ha. simpl. rewrite <- !app_assoc.
    destruct Hu as (?&?&?&?). split_and!; done.
Qed.

(** The encoder [newEncoder] hands out in [σ]. *)
Lemma newEncoder_run h σ :
  newEncoder h σ =
  Some ({| enc_opts := opts h; enc_groups := Slice.read (strsH σ) (groups h);
           enc_headers := hd Slice.null (pool σ) |},
        set_pool (fun p => tl p) σ).
Proof.
  unfold newEncoder, bind, readStrs. destruct σ as [b a s p w k]; simpl.
  destruct p; reflexivity.
Qed.

Lemma pool_head_ok σ :
  pool_ok σ ->
  Slice.len (hd Slice.null (pool σ)) = 0 /\
  Slice.valid (attrsH σ) (hd Slice.null (pool σ)).
Proof.
  unfold pool_ok. destruct (pool σ) as [|s p]; simpl.
  - intros _. split; [done|]. split; simpl; lia.
  - intros H. by inversion H.
Qed.

Lemma fill_run h rec σ :
  wf σ h -> pool_ok σ ->
  let gs := Slice.read (strsH σ) (groups h) in
  let ctx := Slice.read (bytesH σ) (context h) in
  let hs := Slice.read (attrsH σ) (headers h) in
  let enc := {| enc_opts := opts h; enc_groups := gs;
                enc_headers := hd Slice.null (pool σ) |} in
  exists w σ',
    fill h rec σ = Some ((enc, headerText h hs rec, w), σ') /\
    w_middle w = middleText h gs ctx rec /\
    w_trailer w = trailerText h gs rec /\
    hooks σ' = hooks σ ++ calls h gs hs rec /\
    bytesH σ' = bytesH σ /\ strsH σ' = strsH σ /\ writes σ' = writes σ /\
    pool σ' = tl (pool σ) /\
    (forall r, Slice.valid (attrsH σ) r -> apart (hd Slice.null (pool σ)) r ->
               Slice.keeps (attrsH σ) (attrsH σ') r).
Proof.
  intros (Hlen & Hvh & Hvc & Hvg) Hpool gs ctx hs enc.
  destruct (pool_head_ok σ Hpool) as [He0 Hev].
  unfold fill. unfold bind at 1. rewrite newEncoder_run. fold gs. fold enc.
  unfold bind at 1. unfold encWrite at 1.
  unfold bind at 1. unfold encWrite at 1.
  unfold bind at 1. unfold encWrite at 1.
  unfold bind at 1. unfold readBytes at 1.
  set (σ0 := set_hooks _ (set_hooks _ (set_hooks _ (set_pool _ σ)))).
  set (w0 := {| w_headers := headers h |}).
  assert (walk_ok σ0 h enc w0) as Hok by (split_and!; done).
  destruct (walk_run h enc (walked h rec) σ0 w0 Hok)
    as (w & σ1 & Hrun & Hok1 & Hm & Ht & Hs & Hh & Hu & Hk).
  unfold bind at 1. rewrite Hrun.
  unfold bind at 1. unfold readAttrs at 1. rewrite Hs. simpl.
  fold hs. fold (slots h hs rec).
  destruct Hu as (Hb1 & Hs1 & Hp1 & Hw1).
  assert (exists σ',
    (if (0 <? HeaderWidth (opts h))%Z
     then foldM (fun buf a =>
                   encWrite OHeader buf (writeHeader (opts h) a (HeaderWidth (opts h))))
                (slots h hs rec) (writeTimestamp (opts h) (rTime rec)).1
     else if 0 <? length (slots h hs rec)
          then encWrite OHeader (writeTimestamp (opts h) (rTime rec)).1
                 (writeHeaders (opts h) (slots h hs rec))
          else ret (writeTimestamp (opts h) (rTime rec)).1) σ1 =
    Some (headerText h hs rec, σ') /\
    hooks σ' = hooks σ1 ++ flat_map (fun e => tag OHeader e.2) (headerEmits h hs rec) /\
    attrsH σ' = attrsH σ1 /\ untouched σ1 σ') as (σ' & Hhd & Hh' & Ha' & Hu').
  { unfold headerText, headerEmits. simpl.
    destruct (0 <? HeaderWidth (opts h))%Z.
    - destruct (headers_run (fun a => writeHeader (opts h) a (HeaderWidth (opts h)))
                  (slots h hs rec) (writeTimestamp (opts h) (rTime rec)).1 σ1)
        as (σ' & Hf & Hh' & Ha' & Hu').
      exists σ'. rewrite Hf, Hh'.
      rewrite !List.flat_map_concat_map, !List.map_map. split_and!; done.
    - destruct (0 <? length (slots h hs rec)).
      + exists (set_hooks (fun l => l ++ tag OHeader
                                     (writeHeaders (opts h) (slots h hs rec)).2) σ1).
        unfold encWrite. simpl. rewrite !app_nil_r. split_and!; done.
      + exists σ1. unfold ret. simpl. rewrite !app_nil_r. split_and!; done. }
  unfold bind at 1. rewrite Hhd. unfold ret.
  exists w, σ'. split; [done|].
  destruct Hu' as (Hb2 & Hs2 & Hp2 & Hw2).
  split_and!.
  - rewrite Hm. unfold middleText, prelude, tokens. simpl. by rewrite <- !app_assoc.
  - rewrite Ht. reflexivity.
  - rewrite Hh', Hh. unfold calls. simpl. by rewrite <- !app_assoc.
  - rewrite Hb2, Hb1. reflexivity.
  - rewrite Hs2, Hs1. reflexivity.
  - rewrite Hw2, Hw1. reflexivity.
  - rewrite Hp2, Hp1. reflexivity.
  - intros r Hr Hsep. rewrite Ha'. apply Hk; done.
Qed.

(** What the rest of [Handle] gives to the sink. *)
Lemma terminate_line (hb mid trl : list byte) :
  (hb ++ (if length trl =? 0 then NewLine mid else mid))
  ++ (if length trl =? 0 then trl else NewLine trl)
  = hb ++ mid ++ trl ++ [x0a].
Proof.
  unfold NewLine. destruct trl as [|b trl]; simpl.
  - by rewrite app_nil_r.
  - by rewrite <- !app_assoc.
Qed.

Lemma Handle_run h rec σ :
  wf σ h -> pool_ok σ ->
  let gs := Slice.read (strsH σ) (groups h) in
  let ctx := Slice.read (bytesH σ) (context h) in
  let hs := Slice.read (attrsH σ) (headers h) in
  let ln := line h gs ctx hs rec in
  let e := hd Slice.null (pool σ) in
  exists σ',
    Handle h rec σ = Some (out h ln, σ') /\
    writes σ' = writes σ ++ [ln] /\
    hooks σ' = hooks σ ++ calls h gs hs rec /\
    bytesH σ' = bytesH σ /\ strsH σ' = strsH σ /\
    pool σ' = match out h ln with
              | Some _ => tl (pool σ)
              | None => Slice.mk (Slice.arr e) 0 (Slice.cap e) :: tl (pool σ)
              end /\
    (forall r, Slice.valid (attrsH σ) r -> apart e r ->
               Slice.keeps (attrsH σ) (attrsH σ') r).
Proof.
  intros Hwf Hpool gs ctx hs ln e.
  destruct (fill_run h rec σ Hwf Hpool)
    as (w & σ1 & Hfill & Hm & Ht & Hh & Hb & Hs & Hw & Hp & Hk).
  unfold Handle. unfold bind at 1. rewrite Hfill.
  rewrite terminate_line, Hm, Ht. fold gs ctx hs. fold (line h gs ctx hs rec). fold ln.
  unfold bind at 1. unfold WriteTo at 1.
  destruct (out h ln) as [err|]; unfold ret, bind, free; simpl.
  - eexists. split; [reflexivity|]. simpl. rewrite Hw, Hh, Hp. split_and!; done.
  - eexists. split; [reflexivity|]. simpl. rewrite Hw, Hh, Hp. split_and!; done.
Qed.

End Run.

(** ** [extractHeaders] and the derivations *)

Section Derive.
Context {E : Encoder} {R : GoRuntime}.
Implicit Types (h : Handler) (enc : encoder) (σ : state) (s r : Slice.t).

Lemma setAttrs_run s i a σ :
  Slice.valid (attrsH σ) s -> i < Slice.len s ->
  exists σ',
    setAttrs s i a σ = Some (tt, σ') /\
    Slice.read (attrsH σ') s = <[i := a]> (Slice.read (attrsH σ) s) /\
    Slice.valid (attrsH σ') s /\
    length (attrsH σ') = length (attrsH σ) /\
    hooks σ' = hooks σ /\ untouched σ σ' /\
    (forall r, Slice.valid (attrsH σ) r ->
               Slice.arr r <> Slice.arr s \/ Slice.len r = 0 ->
               Slice.keeps (attrsH σ) (attrsH σ') r).
Proof.
  intros Hv Hi. unfold setAttrs.
  destruct (Slice.set s i a (attrsH σ)) as [hp|] eqn:Hset.
  2: { unfold Slice.set in Hset. by case_decide. }
  destruct (set_read _ _ _ _ _ Hv Hset) as (Hr & Hv' & _).
  eexists. split; [reflexivity|]. simpl. split_and!; try done.
  - unfold Slice.set in Hset. case_decide; [|done]. injection Hset as <-.
    by rewrite length_insert.
  - intros r Hvr Hsep. eapply set_keeps; eauto.
Qed.

(** The copy of the handler's slots [extractHeaders] makes at the first
    header attribute. *)
Lemma copy_slots h σ :
  Slice.valid (attrsH σ) (headers h) ->
  exists σ',
    (let* hs := makeAttrs (Slice.len (headers h)) in
     copyAttrs hs (headers h) ;; ret hs) σ =
      Some (Slice.mk (length (attrsH σ)) (Slice.len (headers h)) (Slice.len (headers h)), σ') /\
    attrsH σ' = attrsH σ ++ [Slice.read (attrsH σ) (headers h)] /\
    hooks σ' = hooks σ /\ untouched σ σ'.
Proof.
  intros Hv. unfold bind, makeAttrs, copyAttrs, ret, Slice.make. simpl.
  eexists. split; [reflexivity|]. simpl. split_and!; try done.
  destruct (alloc_keeps (attrsH σ) (headers h)
              (replicate (Slice.len (headers h)) zeroAttr) Hv) as [Hr _].
  rewrite Hr. unfold Slice.cells at 1. simpl.
  rewrite lookup_app_r by done. rewrite Nat.sub_diag. simpl.
  rewrite take_ge by (by rewrite read_length).
  rewrite read_length by done.
  rewrite drop_ge by (by rewrite length_replicate). rewrite app_nil_r.
  rewrite insert_app_r_alt by done. rewrite Nat.sub_diag. reflexivity.
Qed.

Lemma bound_slots_snoc h hs l a :
  bound_slots h hs (l ++ [a]) = store h (bound_slots h hs l) (OAttr, a).
Proof. unfold bound_slots. by rewrite fold_left_app. Qed.

Lemma strip_snoc h (l : list Attr) i a :
  l !! i = Some a ->
  map (strip h) (take (S i) l) ++ drop (S i) l =
  <[i := strip h a]> (map (strip h) (take i l) ++ drop i l).
Proof.
  intros Hl. pose proof (lookup_lt_Some _ _ _ Hl) as Hi.
  rewrite (take_S_r _ _ _ Hl), map_app. simpl.
  rewrite (drop_S _ _ _ Hl).
  rewrite insert_app_r_alt by (rewrite length_map, length_take; lia).
  rewrite length_map, length_take, Nat.min_l, Nat.sub_diag by lia. simpl.
  by rewrite <- app_assoc.
Qed.

Lemma lookup_middle_strip h (l : list Attr) i a :
  l !! i = Some a -> (map (strip h) (take i l) ++ drop i l) !! i = Some a.
Proof.
  intros Hl. pose proof (lookup_lt_Some _ _ _ Hl) as Hi.
  rewrite lookup_app_r by (rewrite length_map, length_take; lia).
  rewrite length_map, length_take, Nat.min_l, Nat.sub_diag by lia.
  by rewrite (drop_S _ _ _ Hl).
Qed.

(** One round of the loop of [extractHeaders]. *)
Lemma extract_step h attrs σ0 i st σ :
  length (Headers (opts h)) <= Slice.len (headers h) ->
  Slice.valid (attrsH σ0) attrs ->
  i < Slice.len attrs ->
  extract_inv h attrs σ0 i st σ ->
  exists st' σ',
    (let* attr := indexAttrs attrs i in
     let idx := matchHeader h attr in
     if (0 <=? idx)%Z then
       let* hs := (if negb st.2 then
                     let* hs := makeAttrs (Slice.len (headers h)) in
                     copyAttrs hs (headers h) ;; ret hs
                   else ret st.1) in
       setAttrs hs (Z.to_nat idx) attr ;;
       setAttrs attrs i zeroAttr ;;
       ret (hs, true)
     else ret st) σ = Some (st', σ') /\
    extract_inv h attrs σ0 (S i) st' σ'.
Proof.
  intros Hlen Hva0 Hi (Hra & Hva & Hgrow & Hrs & Hvs & Hls & Hch & Hh & Hu & Hk).
  set (l := Slice.read (attrsH σ0) attrs) in *.
  set (hs0 := Slice.read (attrsH σ0) (headers h)) in *.
  assert (length l = Slice.len attrs) as Hll by (by apply read_length).
  destruct (lookup_lt_is_Some_2 l i) as [a Ha]; [lia|].
  assert (Slice.arr attrs < length (attrsH σ0)) as Hin.
  { destruct (valid_fresh _ _ Hva0) as [?|Hc]; [done|]. destruct Hva0. lia. }
  unfold bind at 1. unfold indexAttrs. rewrite Hra, (lookup_middle_strip _ _ _ _ Ha).
  cbv beta iota zeta.
  destruct (Z.leb_spec 0 (matchHeader h a)) as [Hm|Hm].
  - (* a header attribute *)
    pose proof (matchHeader_slot _ _ Hm) as Hslot.
    assert (exists s σ1,
      (if negb st.2 then
         let* hs := makeAttrs (Slice.len (headers h)) in
         copyAttrs hs (headers h) ;; ret hs
       else ret st.1) σ = Some (s, σ1) /\
      extract_inv h attrs σ0 i (s, true) σ1) as (s & σ1 & Hc1 & Inv1).
    { destruct st as [s0 [|]]; simpl in *.
      - exists s0, σ. split; [done|]. by split_and!.
      - destruct Hch as [-> Hsame].
        destruct (copy_slots h σ Hvs) as (σ1 & Hc & Hheap & Hh1 & Hu1).
        eexists _, σ1. split; [exact Hc|].
        assert (forall r, Slice.valid (attrsH σ) r -> Slice.keeps (attrsH σ) (attrsH σ1) r)
          as Hal by (intros r Hr; rewrite Hheap; by apply alloc_keeps).
        unfold extract_inv. fold l hs0. simpl. split_and!.
        + destruct (Hal attrs Hva) as [-> _]. done.
        + apply Hal, Hva.
        + rewrite Hheap, length_app. lia.
        + rewrite <- Hrs. unfold Slice.read at 1. simpl.
          rewrite Hheap. unfold Slice.cells. simpl.
          rewrite lookup_app_r by done. rewrite Nat.sub_diag. simpl.
          apply take_ge. by rewrite read_length.
        + split; simpl; [done|]. rewrite Hheap. unfold Slice.cells. simpl.
          rewrite lookup_app_r by done. rewrite Nat.sub_diag. simpl.
          by rewrite read_length.
        + done.
        + lia.
        + congruence.
        + eapply untouched_trans; eauto.
        + intros r Hr Hsep. eapply keeps_trans; [by apply Hk|].
          apply Hal. by apply Hk. }
    clear Hra Hva Hgrow Hrs Hvs Hls Hch Hh Hu Hk.
    destruct Inv1 as (Hra & Hva & Hgrow & Hrs & Hvs & Hls & Hch & Hh & Hu & Hk).
    simpl in *.
    assert (Slice.arr attrs <> Slice.arr s) as Hne by lia.
    destruct (setAttrs_run s (Z.to_nat (matchHeader h a)) a σ1 Hvs)
      as (σ2 & Hs2 & Hr2 & Hv2 & Hl2 & Hh2 & Hu2 & Hk2); [lia|].
    unfold bind at 1. rewrite Hc1. unfold bind at 1. rewrite Hs2.
    destruct (Hk2 attrs Hva (or_introl Hne)) as [Hra2 Hva2].
    destruct (setAttrs_run attrs i zeroAttr σ2 Hva2 Hi)
      as (σ3 & Hs3 & Hr3 & Hv3 & Hl3 & Hh3 & Hu3 & Hk3).
    unfold bind at 1. rewrite Hs3. unfold ret.
    eexists _, σ3. split; [reflexivity|].
    destruct (Hk3 s Hv2) as [Hrs3 Hvs3]; [left; lia|].
    unfold extract_inv. fold l hs0. simpl. split_and!.
    + rewrite Hr3, Hra2, Hra. rewrite (strip_snoc _ _ _ _ Ha).
      unfold strip. by assert ((0 <=? matchHeader h a)%Z = true) as -> by lia.
    + done.
    + lia.
    + rewrite Hrs3, Hr2, Hrs, (take_S_r _ _ _ Ha), bound_slots_snoc.
      unfold store. simpl. by assert ((0 <=? matchHeader h a)%Z = true) as -> by lia.
    + done.
    + done.
    + done.
    + congruence.
    + eapply untouched_trans; [|exact Hu3]. eapply untouched_trans; eauto.
    + intros r Hr Hsep.
      destruct (Hk r Hr Hsep) as [Hk1r Hk1v].
      assert (Slice.arr r <> Slice.arr s \/ Slice.len r = 0) as Hrs'.
      { destruct (valid_fresh _ _ Hr) as [?|Hc]; [left; lia|]. right. destruct Hr. lia. }
      destruct (Hk2 r Hk1v Hrs') as [Hk2r Hk2v].
      destruct (Hk3 r Hk2v Hsep) as [Hk3r Hk3v].
      split; [congruence|done].
  - (* any other attribute *)
    assert ((0 <=? matchHeader h a)%Z = false) as Hf by lia.
    unfold ret. eexists _, _. split; [reflexivity|].
    unfold extract_inv. fold l hs0. split_and!; try done.
    + rewrite Hra, (strip_snoc _ _ _ _ Ha). unfold strip. rewrite Hf.
      symmetry. apply list_insert_id. by apply lookup_middle_strip.
    + rewrite Hrs, (take_S_r _ _ _ Ha), bound_slots_snoc. unfold store. simpl.
      by rewrite Hf.
Qed.

Lemma extract_loop h attrs σ0 :
  length (Headers (opts h)) <= Slice.len (headers h) ->
  Slice.valid (attrsH σ0) attrs ->
  forall n i st σ,
    i + n = Slice.len attrs ->
    extract_inv h attrs σ0 i st σ ->
    exists st' σ',
      foldM (fun (st : Slice.t * bool) i =>
               let* attr := indexAttrs attrs i in
               let idx := matchHeader h attr in
               if (0 <=? idx)%Z then
                 let* hs := (if negb st.2 then
                               let* hs := makeAttrs (Slice.len (headers h)) in
                               copyAttrs hs (headers h) ;; ret hs
                             else ret st.1) in
                 setAttrs hs (Z.to_nat idx) attr ;;
                 setAttrs attrs i zeroAttr ;;
                 ret (hs, true)
               else ret st) (seq i n) st σ = Some (st', σ') /\
      extract_inv h attrs σ0 (Slice.len attrs) st' σ'.
Proof.
  intros Hlen Hva. induction n as [|n IH]; intros i st σ Hin Inv; cbn [foldM seq].
  - exists st, σ. split; [done|]. by replace (Slice.len attrs) with i by lia.
  - destruct (extract_step h attrs σ0 i st σ Hlen Hva) as (st1 & σ1 & Hs & Inv1);
      [lia|done|].
    unfold bind at 1. cbv beta zeta in Hs |- *. rewrite Hs. apply IH; [lia|done].
Qed.

(** [extractHeaders]: the slots of the new handler are the parent's with
    the header attributes of [attrs] stored, the last of a key winning;
    in the caller's slice these attributes are zeroed, the others are
    as they were. *)
Lemma extractHeaders_run h attrs σ :
  wf σ h -> Slice.valid (attrsH σ) attrs ->
  let l := Slice.read (attrsH σ) attrs in
  let hs := Slice.read (attrsH σ) (headers h) in
  exists s σ',
    extractHeaders h attrs σ = Some (s, σ') /\
    Slice.read (attrsH σ') s = bound_slots h hs l /\
    Slice.valid (attrsH σ') s /\
    Slice.len s = Slice.len (headers h) /\
    Slice.read (attrsH σ') attrs = map (strip h) l /\
    Slice.valid (attrsH σ') attrs /\
    hooks σ' = hooks σ /\ untouched σ σ' /\
    (forall r, Slice.valid (attrsH σ) r ->
               Slice.arr r <> Slice.arr attrs \/ Slice.len r = 0 ->
               Slice.keeps (attrsH σ) (attrsH σ') r).
Proof.
  intros (Hlen & Hvh & Hvc & Hvg) Hva l hs.
  assert (extract_inv h attrs σ 0 (headers h, false) σ) as Inv0.
  { unfold extract_inv. simpl. rewrite drop_0. split_and!; done. }
  destruct (extract_loop h attrs σ Hlen Hva (Slice.len attrs) 0 _ σ eq_refl Inv0)
    as (st & σ' & Hrun & Inv).
  unfold extractHeaders. unfold bind at 1. cbv beta zeta in Hrun |- *.
  rewrite Hrun. unfold ret.
  destruct Inv as (Hra & Hva' & Hgrow & Hrs & Hvs & Hls & Hch & Hh & Hu & Hk).
  fold l hs in Hra, Hrs.
  assert (length l = Slice.len attrs) as Hll by (by apply read_length).
  rewrite take_ge, drop_ge in Hra by lia. rewrite take_ge in Hrs by lia.
  rewrite app_nil_r in Hra.
  exists st.1, σ'. split_and!; done.
Qed.

(** The loop of [WithAttrs] on the new context. *)
Lemma ctx_step c0 σ0 s σ (e : emit) :
  Slice.valid (bytesH σ0) c0 ->
  ctx_inv c0 σ0 s σ ->
  exists s' σ',
    encWriteTo growslice OAttr s e σ = Some (s', σ') /\
    ctx_inv c0 σ0 s' σ' /\
    Slice.read (bytesH σ') s' = Slice.read (bytesH σ) s ++ e.1 /\
    hooks σ' = hooks σ ++ tag OAttr e.2.
Proof.
  intros Hc0 (Hv & Hpos & Hgrow & Hk & Hclip & Ha & Hs & Hp & Hw).
  unfold encWriteTo, bind, appendBytes.
  pose proof (append_read x00 growslice (bytesH σ) s e.1 Hv) as Har.
  pose proof (append_valid x00 growslice (bytesH σ) s e.1 Hv) as Hav.
  pose proof (fun r Hr => append_keeps x00 growslice (bytesH σ) s e.1 r Hv Hr) as Hak.
  pose proof (append_clipped x00 growslice (bytesH σ) s e.1) as Hac.
  assert (length (bytesH σ) <= length (Slice.append x00 growslice s e.1 (bytesH σ)).2 /\
          take (length (bytesH σ0)) (Slice.append x00 growslice s e.1 (bytesH σ)).2
          = take (length (bytesH σ0)) (bytesH σ) \/
          Slice.arr s < length (bytesH σ0)) as Hshape.
  { unfold Slice.append. case_decide; simpl.
    - rewrite length_insert.
      destruct (decide (Slice.arr s < length (bytesH σ0))); [by right|left].
      split; [done|]. apply take_insert_ge. lia.
    - left. rewrite length_app. split; [lia|]. by rewrite take_app_le. }
  assert ((Slice.arr (Slice.append x00 growslice s e.1 (bytesH σ)).1 = Slice.arr s /\
           Slice.len s <= Slice.len (Slice.append x00 growslice s e.1 (bytesH σ)).1 /\
           length (bytesH σ) = length (Slice.append x00 growslice s e.1 (bytesH σ)).2) \/
          (Slice.arr (Slice.append x00 growslice s e.1 (bytesH σ)).1 = length (bytesH σ) /\
           S (length (bytesH σ)) = length (Slice.append x00 growslice s e.1 (bytesH σ)).2))
    as Hwhere.
  { unfold Slice.append. case_decide; simpl.
    - left. rewrite length_insert. split_and!; [done|lia|done].
    - right. rewrite length_app. simpl. split; [done|lia]. }
  destruct (Slice.append x00 growslice s e.1 (bytesH σ)) as [s' hp] eqn:Happ.
  simpl in *. eexists _, _. split; [reflexivity|]. simpl.
  split; [|by split]. unfold ctx_inv. simpl. split_and!; try done.
  - destruct Hwhere as [(-> & Hl & _)|[-> _]]; [|right; lia].
    destruct Hpos as [[? ?]|?]; [left; split; [done|lia]|by right].
  - destruct Hwhere as [(_ & _ & <-)|[_ <-]]; lia.
  - intros r Hr Hsep. destruct (Hk r Hr Hsep) as [Hkr Hkv].
    eapply keeps_trans; [by split|]. apply Hak; [done|].
    destruct Hpos as [[Harr Hle]|Hfresh].
    + rewrite Harr. destruct Hsep; [by left|right; lia].
    + destruct (valid_fresh _ _ Hr) as [?|Hc]; [left; lia|].
      right. destruct Hr. lia.
  - intros Hcl. destruct (Hclip Hcl) as [Hs0 Hpre].
    destruct Hs0 as [->|Hfresh].
    + destruct Hac as [Hsame|(c & Hc)]; [done| |].
      * subst hp. split; [|done]. left.
        unfold Slice.append in Happ. case_decide as Hfit.
        -- injection Happ as <- _. destruct c0 as [a n k]; simpl in *.
           f_equal. assert (length e.1 = 0) by lia. lia.
        -- injection Happ as _ Hhp. exfalso.
           apply (f_equal length) in Hhp. rewrite length_app in Hhp. simpl in Hhp. lia.
      * injection Hc as -> ->. simpl. split; [right; lia|].
        by rewrite take_app_le.
    + split.
      * right. destruct Hwhere as [(-> & _)|[-> _]]; lia.
      * destruct Hshape as [[_ ->]|?]; [done|lia].
Qed.

Lemma ctx_inv_init c0 σ : Slice.valid (bytesH σ) c0 -> ctx_inv c0 σ c0 σ.
Proof.
  intros Hv. unfold ctx_inv. split_and!; try done.
  - by left.
  - intros _. split; [by left|]. by apply take_ge.
Qed.

Lemma ctx_loop c0 σ0 (f : Attr -> emit) l : forall s σ,
  Slice.valid (bytesH σ0) c0 ->
  ctx_inv c0 σ0 s σ ->
  exists s' σ',
    foldM (fun ctx a => encWriteTo growslice OAttr ctx (f a)) l s σ = Some (s', σ') /\
    ctx_inv c0 σ0 s' σ' /\
    Slice.read (bytesH σ') s' = Slice.read (bytesH σ) s ++ concat (map (fun a => (f a).1) l) /\
    hooks σ' = hooks σ ++ flat_map (fun a => tag OAttr (f a).2) l.
Proof.
  induction l as [|a l IH]; intros s σ Hc0 Inv; simpl.
  - exists s, σ. rewrite !app_nil_r. by split_and!.
  - destruct (ctx_step c0 σ0 s σ (f a) Hc0 Inv) as (s1 & σ1 & Hs & Inv1 & Hr1 & Hh1).
    unfold bind at 1. rewrite Hs.
    destruct (IH s1 σ1 Hc0 Inv1) as (s' & σ' & Hrun & Inv' & Hr & Hh).
    exists s', σ'. rewrite Hr, Hr1, Hh, Hh1, <- !app_assoc. by split_and!.
Qed.

Lemma clip_valid {A} (hp : list (list A)) s :
  Slice.valid hp s -> Slice.valid hp (Slice.clip s) /\
  Slice.read hp (Slice.clip s) = Slice.read hp s.
Proof.
  intros [H1 H2]. unfold Slice.valid, Slice.clip, Slice.read, Slice.cells in *.
  simpl. split; [split; lia|done].
Qed.

(** [WithAttrs], in full. *)
Lemma WithAttrs_run h attrs σ :
  wf σ h -> Slice.valid (attrsH σ) attrs ->
  let l := Slice.read (attrsH σ) attrs in
  let hs := Slice.read (attrsH σ) (headers h) in
  let gs := Slice.read (strsH σ) (groups h) in
  let ctx := Slice.read (bytesH σ) (context h) in
  let l' := map (strip h) l in
  exists h' σ',
    WithAttrs h attrs σ = Some (h', σ') /\
    (opts h' = opts h /\ out h' = out h /\ groupPrefix h' = groupPrefix h /\
     groups h' = groups h) /\
    (Slice.read (attrsH σ') (headers h') = bound_slots h hs l /\
     Slice.valid (attrsH σ') (headers h') /\
     Slice.len (headers h') = Slice.len (headers h)) /\
    (Slice.read (bytesH σ') (context h') =
       ctx ++ concat (map (fun a => (writeAttr (opts h) gs a (groupPrefix h)).1) l') /\
     Slice.valid (bytesH σ') (context h') /\
     Slice.cap (context h') = Slice.len (context h')) /\
    Slice.read (attrsH σ') attrs = l' /\
    (strsH σ' = strsH σ /\ writes σ' = writes σ /\ pool σ' = tl (pool σ) /\
     hooks σ' = hooks σ ++
       flat_map (fun a => tag OAttr (writeAttr (opts h) gs a (groupPrefix h)).2) l') /\
    (forall r, Slice.valid (attrsH σ) r ->
               Slice.arr r <> Slice.arr attrs \/ Slice.len r = 0 ->
               Slice.keeps (attrsH σ) (attrsH σ') r) /\
    (forall r, Slice.valid (bytesH σ) r ->
               Slice.arr r <> Slice.arr (context h) \/ Slice.len r <= Slice.len (context h) ->
               Slice.keeps (bytesH σ) (bytesH σ') r) /\
    (Slice.cap (context h) <= Slice.len (context h) ->
     take (length (bytesH σ)) (bytesH σ') = bytesH σ).
Proof.
  intros Hwf Hva l hs gs ctx l'.
  destruct (extractHeaders_run h attrs σ Hwf Hva)
    as (s & σ1 & Hex & Hrs & Hvs & Hls & Hra & Hva1 & Hh1 & (Hb1 & Hs1 & Hp1 & Hw1) & Hk1).
  destruct Hwf as (Hlen & Hvh & Hvc & Hvg).
  unfold WithAttrs. unfold bind at 1. rewrite Hex.
  unfold bind at 1. rewrite newEncoder_run. cbn [enc_opts enc_groups].
  unfold bind at 1. unfold readAttrs at 1. cbn [attrsH set_pool].
  rewrite Hra, Hs1. fold l l' gs.
  set (σ2 := set_pool _ σ1).
  assert (Slice.valid (bytesH σ2) (context h)) as Hvc2 by (simpl; by rewrite Hb1).
  destruct (ctx_loop (context h) σ2
              (fun a => writeAttr (opts h) gs a (groupPrefix h)) l' (context h) σ2 Hvc2
              (ctx_inv_init _ _ Hvc2))
    as (c & σ' & Hrun & Inv & Hrc & Hh).
  unfold bind at 1. rewrite Hrun. unfold ret.
  destruct Inv as (Hv & Hpos & Hgrow & Hk & Hclip & Ha & Hs & Hp & Hw).
  destruct (clip_valid (bytesH σ') c Hv) as [Hcv Hcr].
  eexists _, σ'. split; [reflexivity|]. cbn [opts out groupPrefix groups headers context].
  unfold Clip.
  subst σ2. simpl in Ha, Hs, Hp, Hw, Hrc, Hh, Hk, Hclip, Hgrow.
  split_and!; try done.
  - by rewrite Ha.
  - by rewrite Ha.
  - rewrite Hcr, Hrc, Hb1. done.
  - by rewrite Ha.
  - congruence.
  - congruence.
  - rewrite Hp, Hp1. done.
  - rewrite Hh, Hh1. done.
  - intros r Hr Hsep. rewrite Ha. by apply Hk1.
  - intros r Hr Hsep. rewrite <- Hb1. apply Hk; [by rewrite Hb1|done].
  - intros Hcl. destruct (Hclip Hcl) as [_ Hpre]. by rewrite Hb1 in Hpre.
Qed.

(** [WithGroup], in full. *)
Lemma WithGroup_run h name σ :
  Slice.valid (strsH σ) (groups h) ->
  exists h' σ',
    WithGroup h name σ = Some (h', σ') /\
    (opts h' = opts h /\ out h' = out h /\ context h' = context h /\
     headers h' = headers h) /\
    groupPrefix h' =
      (if String.eqb (groupPrefix h) EmptyString then TrimSpace name
       else (groupPrefix h ++ "." ++ TrimSpace name)%string) /\
    (Slice.read (strsH σ') (groups h') = Slice.read (strsH σ) (groups h) ++ [TrimSpace name] /\
     Slice.valid (strsH σ') (groups h')) /\
    Slice.keeps (strsH σ) (strsH σ') (groups h) /\
    bytesH σ' = bytesH σ /\ attrsH σ' = attrsH σ /\ pool σ' = pool σ /\
    writes σ' = writes σ /\ hooks σ' = hooks σ.
Proof.
  intros Hv. unfold WithGroup, bind, appendStrs, ret.
  pose proof (append_read EmptyString growslice (strsH σ) (groups h) [TrimSpace name] Hv) as Har.
  pose proof (append_valid EmptyString growslice (strsH σ) (groups h) [TrimSpace name] Hv) as Hav.
  pose proof (append_keeps EmptyString growslice (strsH σ) (groups h) [TrimSpace name]
                (groups h) Hv Hv (or_intror (le_n _))) as Hak.
  destruct (Slice.append EmptyString growslice (groups h) [TrimSpace name] (strsH σ))
    as [s hp].
  eexists _, _. split; [reflexivity|]. simpl. by split_and!.
Qed.

(** [NewHandler], in full. *)
Lemma NewHandler_run w o σ :
  exists h σ',
    NewHandler w o σ = Some (h, σ') /\
    Level_ (opts h) = Some (threshold o) /\
    Headers (opts h) = Headers (default zeroOptions o) /\
    out h = w /\ groupPrefix h = EmptyString%string /\
    groups h = Slice.null /\ context h = Slice.null /\
    headers h = Slice.mk (length (attrsH σ)) (length (Headers (opts h)))
                         (length (Headers (opts h))) /\
    attrsH σ' = attrsH σ ++ [replicate (length (Headers (opts h))) zeroAttr] /\
    bytesH σ' = bytesH σ /\ strsH σ' = strsH σ /\ pool σ' = pool σ /\
    writes σ' = writes σ /\ hooks σ' = hooks σ.
Proof.
  unfold NewHandler, bind, makeAttrs, ret, Slice.make.
  eexists _, _. split; [reflexivity|]. unfold threshold. simpl.
  destruct o as [o|]; simpl.
  - destruct (Level_ o) eqn:HL; simpl;
      destruct (String.eqb (TimeFormat o) EmptyString) eqn:HT; simpl; rewrite ?HL;
      destruct (Theme_ o) eqn:HH; simpl; rewrite ?HL, ?HH; by split_and!.
  - by split_and!.
Qed.

End Derive.

Import SpecEncoder Demo.

(** * The properties of the handler *)

(** ** The demonstration handlers are what [NewHandler] makes *)

Example logger_built w :
  NewHandler w (Some Demo.withLogger) emptyState
  = Some (Demo.logger w, set_attrsH (fun _ => [[zeroAttr]]) emptyState).
Proof. reflexivity. Qed.

Lemma logger_wf w : wf Demo.st2 (Demo.logger w).
Proof. unfold wf, Slice.valid, Slice.cells. simpl. lia. Qed.

Lemma st2_pool_ok : pool_ok Demo.st2.
Proof. constructor. Qed.

Lemma attrs2_valid : Slice.valid (attrsH Demo.st2) Demo.attrs2.
Proof. unfold Slice.valid, Slice.cells. simpl. lia. Qed.

(** ** Enabled *)

Section Options.
Context {E : Encoder} {R : GoRuntime}.

(** The derivations pass the options on. *)
Lemma WithAttrs_opts h attrs σ h' σ' :
  WithAttrs h attrs σ = Some (h', σ') -> opts h' = opts h.
Proof.
  unfold WithAttrs, bind.
  destruct (extractHeaders h attrs σ) as [[s σ1]|]; [|done].
  destruct (newEncoder h σ1) as [[e σ2]|]; [|done].
  destruct (readAttrs attrs σ2) as [[l σ3]|]; [|done].
  destruct (foldM _ l (context h) σ3) as [[c σ4]|]; [|done].
  unfold ret. by intros [= <- _].
Qed.

Lemma WithGroup_opts h name σ h' σ' :
  WithGroup h name σ = Some (h', σ') -> opts h' = opts h.
Proof.
  unfold WithGroup, bind.
  destruct (appendStrs growslice (groups h) [TrimSpace name] σ) as [[s σ1]|]; [|done].
  unfold ret. by intros [= <- _].
Qed.

(** C7: for every level [l], the handler [NewHandler] makes answers
    [Enabled] with true exactly when [l] is at least the configured
    threshold, and with false otherwise; so does every handler derived
    from it, which has the same options.  The threshold of options
    without a [Level] is the info level, as it is when there are no
    options at all. *)
Theorem Enabled_threshold (w : Writer) (o : option HandlerOptions) (σ : state) (l : Level) :
  exists h σ',
    NewHandler w o σ = Some (h, σ') /\
    (Enabled h l = Some true <-> (threshold o <= l)%Z) /\
    (Enabled h l = Some false <-> (l < threshold o)%Z) /\
    threshold (set_Level None <$> o) = LevelInfo /\
    (forall h1 h2 attrs σ1 σ2,
       WithAttrs h1 attrs σ1 = Some (h2, σ2) -> Enabled h2 l = Enabled h1 l) /\
    (forall h1 h2 name σ1 σ2,
       WithGroup h1 name σ1 = Some (h2, σ2) -> Enabled h2 l = Enabled h1 l).
Proof.
  destruct (NewHandler_run w o σ) as (h & σ' & Hrun & Hlev & _).
  exists h, σ'. split; [done|]. unfold Enabled. rewrite Hlev.
  split_and!.
  - split.
    + intros [= H]. lia.
    + intros H. f_equal. lia.
  - split.
    + intros [= H]. lia.
    + intros H. f_equal. lia.
  - by destruct o.
  - intros h1 h2 attrs σ1 σ2 H. by rewrite (WithAttrs_opts _ _ _ _ _ H).
  - intros h1 h2 name σ1 σ2 H. by rewrite (WithGroup_opts _ _ _ _ _ H).
Qed.

End Options.

Lemma Enabled_threshold_witness :
  exists h σ',
    NewHandler Demo.discard None emptyState = Some (h, σ') /\
    (Enabled h LevelWarn = Some true <-> (LevelInfo <= LevelWarn)%Z).
Proof.
  destruct (Enabled_threshold (E := specEncoder) Demo.discard None emptyState LevelWarn)
    as (h & σ' & Hrun & Hiff & _).
  exists h, σ'. split; [exact Hrun | exact Hiff].
Defined.

Section Claims.
Context {E : Encoder} {R : GoRuntime}.
Implicit Types (h : Handler) (σ : state) (rec : Record_).

(** ** One write, and its error *)

(** C4: a call of [Handle] on a well-formed handler gives the sink
    exactly one chunk, the header, middle and trailer buffers
    concatenated (with the line's newline), and returns what the sink
    answered: its error, unchanged, or nil.  The call does not panic,
    and nothing else makes it fail. *)
Theorem Handle_single_write h rec σ :
  wf σ h -> pool_ok σ ->
  exists chunk σ',
    Handle h rec σ = Some (out h chunk, σ') /\
    sunk σ σ' = [chunk] /\
    chunk = line h (Slice.read (strsH σ) (groups h))
                 (Slice.read (bytesH σ) (context h))
                 (Slice.read (attrsH σ) (headers h)) rec.
Proof.
  intros Hwf Hpool.
  destruct (Handle_run h rec σ Hwf Hpool) as (σ' & Hrun & Hw & _).
  eexists _, σ'. split; [exact Hrun|]. split; [|done].
  unfold sunk. rewrite Hw. by rewrite drop_app_length.
Qed.

End Claims.

Lemma Handle_single_write_witness :
  exists chunk σ',
    Handle (Demo.logger Demo.failing) (Demo.info "foobar" Demo.twoAttrs) Demo.st2
      = Some (Some "nope"%string, σ') /\
    sunk Demo.st2 σ' = [chunk].
Proof.
  destruct (Handle_single_write (Demo.logger Demo.failing)
              (Demo.info "foobar" Demo.twoAttrs) Demo.st2
              (logger_wf _) st2_pool_ok) as (chunk & σ' & H1 & H2 & _).
  exists chunk, σ'. split; [exact H1 | exact H2].
Defined.

(** ** Releasing the encoder *)

Section Release.
Context {E : Encoder} {R : GoRuntime}.

(** After a call of [Handle] the encoder is back in the pool, cleared,
    when the write succeeded, and is not when the write failed. *)
Lemma Handle_pool h rec σ :
  wf σ h -> pool_ok σ ->
  let e := hd Slice.null (pool σ) in
  exists r σ',
    Handle h rec σ = Some (r, σ') /\
    pool σ' = match r with
              | Some _ => tl (pool σ)
              | None => Slice.mk (Slice.arr e) 0 (Slice.cap e) :: tl (pool σ)
              end.
Proof.
  intros Hwf Hpool e.
  destruct (Handle_run h rec σ Hwf Hpool) as (σ' & Hrun & _ & _ & _ & _ & Hp & _).
  eexists _, σ'. split; [exact Hrun|]. exact Hp.
Qed.

End Release.

(** C5: the encoder acquired by [Handle] is released when the write
    succeeds; when the write returns an error [Handle] returns before
    the release, and the encoder does not come back to the pool.  From a
    pool of one encoder, a call on a failing sink leaves the pool empty,
    a call on a sink that succeeds leaves the encoder in it. *)
Example Handle_error_skips_free :
  let σ := set_pool (fun _ => [Slice.null]) Demo.st2 in
  let rec := Demo.info "foobar" [] in
  (exists σ', Handle (Demo.logger Demo.failing) rec σ = Some (Some "nope"%string, σ') /\
              pool σ' = []) /\
  (exists σ', Handle (Demo.logger Demo.discard) rec σ = Some (None, σ') /\
              pool σ' = [Slice.null]).
Proof. intros σ rec. split; eexists; (split; [vm_compute; reflexivity|reflexivity]). Qed.

(** ** Attributes of several lines *)

Section Relocation.
Context {E : Encoder} {R : GoRuntime}.

(** C1, as amended: an attribute of the record that is written in line
    and whose token has a line break is moved from the middle buffer to
    the trailer, the middle buffer rolled back to where it was before
    the token.  After the walk the middle buffer is the level, the
    separator, the message and the bound context, then the tokens
    without a line break, in order; the trailer is the tokens with a
    line break, in order.  So the middle buffer has a line break only if
    the level, separator and message bytes or the bound context have
    one. *)
Theorem Handle_relocates_multiline h rec σ :
  wf σ h -> pool_ok σ ->
  let gs := Slice.read (strsH σ) (groups h) in
  let ctx := Slice.read (bytesH σ) (context h) in
  let toks := tokens h gs rec in
  (forall enc w oa σ1,
     (matchHeader h oa.2 < 0)%Z ->
     let t := (writeAttr (enc_opts enc) (enc_groups enc) oa.2 (groupPrefix h)).1 in
     exists w' σ1',
       handleAttr h enc w oa σ1 = Some (w', σ1') /\
       (In x0a t -> w_middle w' = w_middle w /\ w_trailer w' = w_trailer w ++ t) /\
       (~ In x0a t -> w_middle w' = w_middle w ++ t /\ w_trailer w' = w_trailer w)) /\
  exists enc hb w σ',
    fill h rec σ = Some ((enc, hb, w), σ') /\
    w_middle w = (prelude h rec ++ ctx)
                 ++ concat (List.filter (fun t => negb (multiline t)) toks) /\
    w_trailer w = concat (List.filter multiline toks) /\
    (forall t, multiline t = true <-> In x0a t) /\
    (~ In x0a (prelude h rec ++ ctx) -> ~ In x0a (w_middle w)).
Proof.
  intros Hwf Hpool gs ctx toks. split.
  - intros enc w oa σ1 Hin t. eexists _, _.
    split; [by apply handleAttr_inline|]. fold t. simpl.
    pose proof (multiline_In t) as Hml.
    destruct (multiline t); split.
    + intros _. by rewrite app_nil_r.
    + intros Hn. exfalso. apply Hn. by apply Hml.
    + intros Hi. apply Hml in Hi. done.
    + intros _. by rewrite app_nil_r.
  - destruct (fill_run h rec σ Hwf Hpool) as (w & σ' & Hfill & Hm & Ht & _).
    eexists _, _, w, σ'. split; [exact Hfill|].
    split; [exact Hm|]. split; [exact Ht|]. split; [apply multiline_In|].
    intros Hpre. rewrite Hm. unfold middleText. fold gs ctx toks.
    rewrite in_app_iff. intros [Hi|Hi]; [done|].
    apply in_concat in Hi as (t & Ht' & Hx).
    apply filter_In in Ht' as [_ Hnm].
    apply multiline_In in Hx. rewrite Hx in Hnm. done.
Qed.

End Relocation.

Lemma Handle_relocates_multiline_witness :
  exists enc hb w σ',
    fill (Demo.logger Demo.discard)
         (Demo.info "foobar" [mkAttr "ml" Demo.twoLines; mkAttr "z" (Int64Value 1)])
         Demo.st2 = Some ((enc, hb, w), σ') /\
    ~ In x0a (w_middle w).
Proof.
  destruct (Handle_relocates_multiline (Demo.logger Demo.discard)
              (Demo.info "foobar" [mkAttr "ml" Demo.twoLines; mkAttr "z" (Int64Value 1)])
              Demo.st2 (logger_wf _) st2_pool_ok)
    as (_ & enc & hb & w & σ' & Hfill & _ & _ & _ & Hno).
  exists enc, hb, w, σ'. split; [exact Hfill|]. apply Hno.
  vm_compute. intuition discriminate.
Defined.

(** C1, as stated, fails on a bound context: an attribute of two lines
    bound with [WithAttrs] is written to the context without the check,
    and [Handle] copies the context into the middle buffer.  The record
    has no attribute at all, the trailer stays empty, and the middle
    buffer, and so the line, has a line break before its end. *)
Lemma Handle_bound_context_breaks_line :
  exists h σ enc hb w σ' σ'',
    Demo.bound = Some (h, σ) /\
    fill h (Demo.info "m" []) σ = Some ((enc, hb, w), σ') /\
    In x0a (w_middle w) /\ w_trailer w = [] /\
    Handle h (Demo.info "m" []) σ = Some (None, σ'') /\
    Demo.lastWrite σ'' = ("INF m k=a" ++ String "010" "b" ++ String "010" EmptyString)%string.
Proof.
  do 7 eexists. split; [vm_compute; reflexivity|].
  split; [vm_compute; reflexivity|].
  split; [vm_compute; tauto|]. split; [reflexivity|].
  split; [vm_compute; reflexivity|]. vm_compute. reflexivity.
Qed.

(** ** Header slots *)

Lemma matchHeader_In h a :
  (0 <= matchHeader h a)%Z <-> In (Key a) (Headers (opts h)).
Proof.
  unfold matchHeader.
  pose proof (IndexFunc_neg (Headers (opts h)) (fun s => String.eqb s (Key a))) as Hn.
  rewrite Forall_forall in Hn. split.
  - intros H. destruct (in_dec string_dec (Key a) (Headers (opts h))) as [|Hnot]; [done|].
    exfalso. assert (IndexFunc (Headers (opts h)) (fun s => String.eqb s (Key a)) < 0)%Z; [|lia].
    apply Hn. intros x Hx. apply list_elem_of_In in Hx.
    destruct (String.eqb_spec x (Key a)); [congruence|done].
  - intros H. apply list_elem_of_In in H.
    destruct (Z.ltb_spec (IndexFunc (Headers (opts h)) (fun s => String.eqb s (Key a))) 0)
      as [Hlt|]; [|lia].
    apply Hn with (x := Key a) in Hlt; [|done]. by rewrite String.eqb_refl in Hlt.
Qed.

Section Bind.
Context {E : Encoder} {R : GoRuntime}.

(** C9: [WithAttrs] writes to the slice it is given: every element
    whose key is a header key is replaced by the zero attribute (and
    stored into the slots of the new handler, at the index of its key),
    every other element is left as it was. *)
Theorem WithAttrs_zeroes_header_attrs h attrs σ :
  wf σ h -> Slice.valid (attrsH σ) attrs ->
  let l := Slice.read (attrsH σ) attrs in
  exists h' σ',
    WithAttrs h attrs σ = Some (h', σ') /\
    Slice.read (attrsH σ') attrs = map (strip h) l /\
    (forall a, In (Key a) (Headers (opts h)) -> strip h a = zeroAttr) /\
    (forall a, ~ In (Key a) (Headers (opts h)) -> strip h a = a) /\
    Slice.read (attrsH σ') (headers h') =
      bound_slots h (Slice.read (attrsH σ) (headers h)) l.
Proof.
  intros Hwf Hva l.
  destruct (WithAttrs_run h attrs σ Hwf Hva)
    as (h' & σ' & Hrun & _ & (Hhs & _) & _ & Hra & _).
  exists h', σ'. split_and!; try done.
  - intros a Hin. apply matchHeader_In in Hin. unfold strip.
    by assert ((0 <=? matchHeader h a)%Z = true) as -> by lia.
  - intros a Hin. unfold strip.
    destruct (Z.leb_spec 0 (matchHeader h a)) as [Hm|]; [|done].
    by apply matchHeader_In in Hm.
Qed.

End Bind.

Lemma WithAttrs_zeroes_header_attrs_witness :
  exists h' σ',
    WithAttrs (Demo.logger Demo.discard) Demo.attrs2 Demo.st2 = Some (h', σ') /\
    Slice.read (attrsH σ') Demo.attrs2 = [mkAttr "k" (StringValue "v"); zeroAttr].
Proof.
  destruct (WithAttrs_zeroes_header_attrs (Demo.logger Demo.discard) Demo.attrs2 Demo.st2
              (logger_wf _) attrs2_valid)
    as (h' & σ' & Hrun & Hread & _).
  exists h', σ'. split; [exact Hrun | exact Hread].
Defined.

(** ** Derivations *)

Lemma prefix_keeps {A} (σ σ' : list (list A)) r :
  take (length σ) σ' = σ -> Slice.valid σ r -> Slice.keeps σ σ' r.
Proof.
  intros Hpre Hv. destruct (valid_fresh _ _ Hv) as [Hlt|Hc].
  - assert (Slice.cells σ' r = Slice.cells σ r) as Hc.
    { unfold Slice.cells. pose proof (lookup_take_lt σ' (length σ) (Slice.arr r) Hlt) as Hl.
      rewrite Hpre in Hl. by rewrite Hl. }
    unfold Slice.keeps, Slice.read, Slice.valid. rewrite Hc. by destruct Hv.
  - destruct Hv as [H1 H2]. unfold Slice.keeps, Slice.read, Slice.valid.
    assert (Slice.len r = 0) as -> by lia. rewrite Hc. simpl. split; [done|lia].
Qed.

Section Derivations.
Context {E : Encoder} {R : GoRuntime}.

(** Two states in which the handler reads the same groups, context and
    slots: [Handle] returns the same and writes the same. *)
Lemma Handle_agrees h rec σ σ1 :
  wf σ h -> pool_ok σ -> wf σ1 h -> pool_ok σ1 ->
  Slice.read (strsH σ1) (groups h) = Slice.read (strsH σ) (groups h) ->
  Slice.read (bytesH σ1) (context h) = Slice.read (bytesH σ) (context h) ->
  Slice.read (attrsH σ1) (headers h) = Slice.read (attrsH σ) (headers h) ->
  exists r σa σb,
    Handle h rec σ = Some (r, σa) /\ Handle h rec σ1 = Some (r, σb) /\
    sunk σ1 σb = sunk σ σa.
Proof.
  intros Hwf Hpool Hwf1 Hpool1 Hg Hc Hh.
  destruct (Handle_run h rec σ Hwf Hpool) as (σa & Hrun & Hw & _).
  destruct (Handle_run h rec σ1 Hwf1 Hpool1) as (σb & Hrun1 & Hw1 & _).
  rewrite Hg, Hc, Hh in Hrun1, Hw1.
  eexists _, σa, σb. split; [exact Hrun|]. split; [exact Hrun1|].
  unfold sunk. rewrite Hw, Hw1. by rewrite !drop_app_length.
Qed.

(** C3: [WithAttrs] and [WithGroup] leave the handler they are called on
    as it was: its options and prefix are values of its own, and the
    contents of its context, slots and groups are the same after the
    derivation; so [Handle] on it, with any record, returns the same and
    gives the sink the same bytes after the derivation as before. *)
Theorem derivation_leaves_parent h attrs name rec σ :
  wf σ h -> pool_ok σ -> Slice.valid (attrsH σ) attrs ->
  Slice.arr (headers h) <> Slice.arr attrs \/ Slice.len (headers h) = 0 ->
  (exists h' σ1 r σa σb,
     WithAttrs h attrs σ = Some (h', σ1) /\
     Handle h rec σ = Some (r, σa) /\ Handle h rec σ1 = Some (r, σb) /\
     sunk σ1 σb = sunk σ σa /\
     Slice.read (bytesH σ1) (context h) = Slice.read (bytesH σ) (context h) /\
     Slice.read (attrsH σ1) (headers h) = Slice.read (attrsH σ) (headers h) /\
     Slice.read (strsH σ1) (groups h) = Slice.read (strsH σ) (groups h)) /\
  (exists h' σ1 r σa σb,
     WithGroup h name σ = Some (h', σ1) /\
     Handle h rec σ = Some (r, σa) /\ Handle h rec σ1 = Some (r, σb) /\
     sunk σ1 σb = sunk σ σa /\
     Slice.read (bytesH σ1) (context h) = Slice.read (bytesH σ) (context h) /\
     Slice.read (attrsH σ1) (headers h) = Slice.read (attrsH σ) (headers h) /\
     Slice.read (strsH σ1) (groups h) = Slice.read (strsH σ) (groups h)).
Proof.
  intros Hwf Hpool Hva Hsep. pose proof Hwf as (Hlen & Hvh & Hvc & Hvg). split.
  - destruct (WithAttrs_run h attrs σ Hwf Hva)
      as (h' & σ1 & Hrun & _ & _ & _ & _ & (Hs & Hw & Hp & _) & Hka & Hkb & _).
    destruct (Hka (headers h) Hvh Hsep) as [Hrh Hvh1].
    destruct (Hkb (context h) Hvc (or_intror (le_n _))) as [Hrc Hvc1].
    assert (wf σ1 h) as Hwf1 by (split_and!; try done; by rewrite Hs).
    assert (pool_ok σ1) as Hpool1.
    { unfold pool_ok in *. rewrite Hp. rewrite Forall_forall in Hpool.
      apply Forall_forall. intros s Hin.
      destruct (Hpool s) as [H0 Hv].
      { destruct (pool σ); [done|]. by right. }
      split; [done|]. by apply Hka; [|right]. }
    destruct (Handle_agrees h rec σ σ1 Hwf Hpool Hwf1 Hpool1) as (r & σa & σb & Ha & Hb & Hsk);
      [by rewrite Hs|done|done|].
    exists h', σ1, r, σa, σb. split_and!; try done. by rewrite Hs.
  - destruct (WithGroup_run h name σ Hvg)
      as (h' & σ1 & Hrun & _ & _ & _ & [Hrg Hvg1] & Hb & Ha & Hp & _).
    assert (wf σ1 h) as Hwf1 by (split_and!; try done; by rewrite ?Ha, ?Hb).
    assert (pool_ok σ1) as Hpool1 by (unfold pool_ok; by rewrite Hp, Ha).
    destruct (Handle_agrees h rec σ σ1 Hwf Hpool Hwf1 Hpool1) as (r & σa & σb & Hx & Hy & Hsk);
      [done|by rewrite Hb|by rewrite Ha|].
    exists h', σ1, r, σa, σb. split_and!; try done; by rewrite ?Ha, ?Hb.
Qed.

(** C10: the context of the handler [WithAttrs] returns is clipped, and
    so is the context of every handler: the one [NewHandler] makes has
    the nil context, and [WithGroup] passes the context on.  From a
    parent with a clipped context a derivation writes to no array that
    was there before it, so of two derivations from the same parent each
    has, afterwards, the parent's context followed by its own tokens:
    the second does not overwrite the first. *)
Theorem WithAttrs_clips_context h a1 σ :
  wf σ h -> clipped h -> Slice.valid (attrsH σ) a1 ->
  Slice.arr (headers h) <> Slice.arr a1 \/ Slice.len (headers h) = 0 ->
  (forall w o σ0, exists h0 σ0', NewHandler w o σ0 = Some (h0, σ0') /\ clipped h0) /\
  (forall name, exists h' σ', WithGroup h name σ = Some (h', σ') /\ clipped h') /\
  exists c1 σ1,
    WithAttrs h a1 σ = Some (c1, σ1) /\
    Slice.cap (context c1) = Slice.len (context c1) /\
    take (length (bytesH σ)) (bytesH σ1) = bytesH σ /\
    forall a2, Slice.valid (attrsH σ1) a2 ->
      exists c2 σ2,
        WithAttrs h a2 σ1 = Some (c2, σ2) /\
        Slice.cap (context c2) = Slice.len (context c2) /\
        take (length (bytesH σ1)) (bytesH σ2) = bytesH σ1 /\
        Slice.read (bytesH σ2) (context c1) = Slice.read (bytesH σ1) (context c1) /\
        Slice.read (bytesH σ2) (context c2) =
          Slice.read (bytesH σ) (context h)
          ++ concat (map (fun a => (writeAttr (opts h) (Slice.read (strsH σ) (groups h)) a
                                      (groupPrefix h)).1)
                         (map (strip h) (Slice.read (attrsH σ1) a2))).
Proof.
  intros Hwf Hclip Hva Hsep. pose proof Hwf as (Hlen & Hvh & Hvc & Hvg). split_and!.
  - intros w o σ0. destruct (NewHandler_run w o σ0) as (h0 & σ0' & Hrun & _ & _ & _ & _ & _ & Hc & _).
    exists h0, σ0'. split; [done|]. unfold clipped. by rewrite Hc.
  - intros name. destruct (WithGroup_run h name σ Hvg) as (h' & σ' & Hrun & (_ & _ & Hc & _) & _).
    exists h', σ'. split; [done|]. unfold clipped. by rewrite Hc.
  - destruct (WithAttrs_run h a1 σ Hwf Hva)
      as (c1 & σ1 & Hrun & _ & _ & (Hr1 & Hv1 & Hcap1) & _ & (Hs & _) & Hka & Hkb & Hpre).
    exists c1, σ1. split_and!; try done; [by apply Hpre|].
    intros a2 Hva2.
    destruct (Hka (headers h) Hvh Hsep) as [Hrh Hvh1].
    destruct (Hkb (context h) Hvc (or_intror (le_n _))) as [Hrc Hvc1].
    assert (wf σ1 h) as Hwf1 by (split_and!; try done; by rewrite Hs).
    destruct (WithAttrs_run h a2 σ1 Hwf1 Hva2)
      as (c2 & σ2 & Hrun2 & _ & _ & (Hr2 & Hv2 & Hcap2) & _ & _ & _ & _ & Hpre2).
    exists c2, σ2. split_and!; try done; [by apply Hpre2| |].
    + by destruct (prefix_keeps (bytesH σ1) (bytesH σ2) (context c1) (Hpre2 Hclip) Hv1).
    + by rewrite Hr2, Hrc, Hs.
Qed.

End Derivations.

(** ** Well-formed handlers and pools are what the operations make *)

Section Invariants.
Context {E : Encoder} {R : GoRuntime}.

Lemma null_valid {A} (hp : list (list A)) : Slice.valid hp Slice.null.
Proof. unfold Slice.valid. simpl. lia. Qed.

(** A pool of encoders that never got header storage, as every pool
    that started empty is, is in order and apart from every slice. *)
Lemma pool_null_ok σ :
  Forall (fun s => s = Slice.null) (pool σ) ->
  pool_ok σ /\ forall r, apart (hd Slice.null (pool σ)) r.
Proof.
  intros Hn. split.
  - unfold pool_ok. eapply Forall_impl; [exact Hn|]. intros s ->.
    split; [done|apply null_valid].
  - intros r. right. right. destruct (pool σ) as [|s p]; [done|].
    inversion Hn; subst. done.
Qed.

Lemma Handle_pool_null h rec σ :
  wf σ h -> Forall (fun s => s = Slice.null) (pool σ) ->
  exists r σ', Handle h rec σ = Some (r, σ') /\
               Forall (fun s => s = Slice.null) (pool σ').
Proof.
  intros Hwf Hn. destruct (pool_null_ok σ Hn) as [Hpool _].
  destruct (Handle_pool h rec σ Hwf Hpool) as (r & σ' & Hrun & Hp).
  exists r, σ'. split; [done|]. rewrite Hp.
  assert (Forall (fun s => s = Slice.null) (tl (pool σ))) as Htl
    by (destruct (pool σ); [done|by inversion Hn]).
  destruct r; [done|]. constructor; [|done].
  destruct (pool σ) as [|s p]; [done|]. inversion Hn; subst. done.
Qed.

Lemma NewHandler_wf w o σ :
  exists h σ', NewHandler w o σ = Some (h, σ') /\ wf σ' h /\ clipped h /\
               pool σ' = pool σ.
Proof.
  destruct (NewHandler_run w o σ)
    as (h & σ' & Hrun & _ & _ & _ & _ & Hg & Hc & Hh & Ha & _ & _ & Hp & _).
  exists h, σ'. split; [done|]. split; [|split; [|done]].
  - unfold wf. rewrite Hg, Hc, Hh, Ha. simpl. split_and!; [done| |apply null_valid..].
    unfold Slice.valid, Slice.cells. simpl.
    rewrite lookup_app_r by done. rewrite Nat.sub_diag. simpl.
    by rewrite length_replicate.
  - unfold clipped. by rewrite Hc.
Qed.

Lemma WithAttrs_wf h attrs σ :
  wf σ h -> Slice.valid (attrsH σ) attrs ->
  exists h' σ', WithAttrs h attrs σ = Some (h', σ') /\ wf σ' h' /\ clipped h'.
Proof.
  intros Hwf Hva. pose proof Hwf as (Hlen & Hvh & Hvc & Hvg).
  destruct (WithAttrs_run h attrs σ Hwf Hva)
    as (h' & σ' & Hrun & (Ho & _ & _ & Hg) & (_ & Hvh' & Hl) & (_ & Hvc' & Hcap) & _ & (Hs & _) & _).
  exists h', σ'. split; [done|]. split.
  - unfold wf. rewrite Ho, Hl, Hg, Hs. by split_and!.
  - unfold clipped. lia.
Qed.

Lemma WithGroup_wf h name σ :
  wf σ h ->
  exists h' σ', WithGroup h name σ = Some (h', σ') /\ wf σ' h' /\
               (clipped h -> clipped h').
Proof.
  intros (Hlen & Hvh & Hvc & Hvg).
  destruct (WithGroup_run h name σ Hvg)
    as (h' & σ' & Hrun & (Ho & _ & Hc & Hh) & _ & (_ & Hvg') & _ & Hb & Ha & _).
  exists h', σ'. split; [done|]. split.
  - unfold wf. rewrite Ho, Hh, Hc, Ha, Hb. by split_and!.
  - unfold clipped. by rewrite Hc.
Qed.

End Invariants.

Lemma derivation_leaves_parent_witness :
  exists h' σ1 r σa σb,
    WithAttrs (Demo.logger Demo.discard) Demo.attrs2 Demo.st2 = Some (h', σ1) /\
    Handle (Demo.logger Demo.discard) (Demo.info "foobar" []) Demo.st2 = Some (r, σa) /\
    Handle (Demo.logger Demo.discard) (Demo.info "foobar" []) σ1 = Some (r, σb) /\
    sunk σ1 σb = sunk Demo.st2 σa.
Proof.
  destruct (derivation_leaves_parent (Demo.logger Demo.discard) Demo.attrs2 "g"%string
              (Demo.info "foobar" []) Demo.st2 (logger_wf _) st2_pool_ok attrs2_valid
              (or_introl (fun H : 0 = 1 => O_S 0 H)))
    as ((h' & σ1 & r & σa & σb & H1 & H2 & H3 & H4 & _) & _).
  exists h', σ1, r, σa, σb. repeat split; assumption.
Defined.

Lemma WithAttrs_clips_context_witness :
  exists c1 σ1,
    WithAttrs (Demo.logger Demo.discard) Demo.attrs2 Demo.st2 = Some (c1, σ1) /\
    Slice.cap (context c1) = Slice.len (context c1).
Proof.
  destruct (WithAttrs_clips_context (Demo.logger Demo.discard) Demo.attrs2 Demo.st2
              (logger_wf _) (le_n 0) attrs2_valid
              (or_introl (fun H : 0 = 1 => O_S 0 H)))
    as (_ & _ & c1 & σ1 & H1 & H2 & _).
  exists c1, σ1. split; assumption.
Defined.

(** ** The rewrite hook *)

Section Hook.
Context {F : Formats} {R : GoRuntime}.

Lemma builtin_calls o k v text :
  isGroup v = false ->
  Forall (fun ga => isGroup (Val ga.2) = false) (builtin o k v text).2.
Proof.
  intros Hv. unfold builtin. destruct (ReplaceAttr o); simpl; [|constructor].
  constructor; [done|constructor].
Qed.

Lemma leaf_calls o gs prefix k v :
  isGroup v = false ->
  Forall (fun ga => isGroup (Val ga.2) = false) (leaf o gs prefix k v).2.
Proof.
  intros Hv. unfold leaf. destruct (ReplaceAttr o); simpl; [|constructor].
  constructor; [done|constructor].
Qed.

(** The hook is called on leaves only: a group is walked, a lazy value
    is resolved first. *)
Lemma attrEmit_calls o : forall v gs prefix k,
  Forall (fun ga => isGroup (Val ga.2) = false) (attrEmit o gs prefix k v).2.
Proof.
  fix IH 1. intros v gs prefix k.
  destruct v; try (simpl; by apply leaf_calls).
  - simpl. destruct (String.eqb k EmptyString); [constructor|by apply leaf_calls].
  - simpl.
    generalize (if String.eqb k EmptyString then gs else gs ++ [k]).
    generalize (if String.eqb k EmptyString then prefix else qualify prefix k).
    revert g. fix IHg 1. intros g prefix' gs'. destruct g as [|[k' v'] g]; simpl.
    + constructor.
    + apply Forall_app. split; [apply IH|apply IHg].
  - simpl. apply IH.
Qed.

Lemma tag_origin o l : Forall (fun c => hc_origin c = o) (tag o l).
Proof. unfold tag. apply Forall_forall. intros c Hc. apply list_elem_of_fmap in Hc as (ga & -> & _). done. Qed.

Lemma tag_attrs o (P : Attr -> Prop) l :
  Forall (fun ga => P ga.2) l -> Forall (fun c => P (hc_attr c)) (tag o l).
Proof.
  unfold tag. rewrite !Forall_forall. intros H c Hc.
  apply list_elem_of_fmap in Hc as (ga & -> & Hin). simpl. by apply H.
Qed.

Lemma Forall_flat_map_intro {A B} (P : B -> Prop) (f : A -> list B) (Q : A -> Prop) l :
  Forall Q l -> (forall x, Q x -> Forall P (f x)) -> Forall P (flat_map f l).
Proof.
  intros Hl Hf. induction Hl as [|x l Hx Hl IH]; simpl; [constructor|].
  apply Forall_app. split; [by apply Hf|done].
Qed.

Lemma walked_origins h rec :
  Forall (fun oa => oa.1 = OAttr \/
                    oa.1 = OSource /\ AddSource (opts h) = true /\ rPC rec <> 0%N)
         (List.filter (inline h) (walked h rec)).
Proof.
  apply Forall_forall. intros oa Hin. apply list_elem_of_In, filter_In in Hin as [Hin _].
  unfold walked in Hin. apply in_app_iff in Hin as [Hin|Hin].
  - apply in_map_iff in Hin as (a & <- & _). by left.
  - destruct (AddSource (opts h)) eqn:Ha; [|done].
    destruct (N.ltb_spec 0 (rPC rec)); simpl in Hin; [|done].
    destruct Hin as [<-|[]]. right. split_and!; [done..|lia].
Qed.

Lemma spec_header_calls h hs rec :
  flat_map (fun e : emit => tag OHeader e.2) (headerEmits h hs rec) = [].
Proof.
  unfold headerEmits. destruct (0 <? HeaderWidth (opts h))%Z.
  - induction (slots h hs rec) as [|a l IH]; simpl; [done|]. exact IH.
  - destruct (0 <? length (slots h hs rec)); reflexivity.
Qed.

(** C6: in a call of [Handle] the rewrite hook is not called for the
    timestamp when the record's time is the zero time, is not called for
    the call site when the record has no program counter or [AddSource]
    is off, and is never called on a group, only on the leaves a group
    resolves to. *)
Theorem hook_skips_absent_fields h rec σ :
  wf σ h -> pool_ok σ ->
  exists r σ' new,
    Handle h rec σ = Some (r, σ') /\
    hooks σ' = hooks σ ++ new /\
    (IsZero (rTime rec) = true -> Forall (fun c => hc_origin c <> OTime) new) /\
    (rPC rec = 0%N \/ AddSource (opts h) = false ->
     Forall (fun c => hc_origin c <> OSource) new) /\
    Forall (fun c => isGroup (Val (hc_attr c)) = false) new.
Proof.
  intros Hwf Hpool.
  destruct (Handle_run h rec σ Hwf Hpool) as (σ' & Hrun & _ & Hh & _).
  eexists _, σ', _. split; [exact Hrun|]. split; [exact Hh|].
  unfold calls. rewrite spec_header_calls, app_nil_r. simpl.
  pose proof (walked_origins h rec) as Hwalk.
  split_and!.
  - intros Hz. unfold specTimestamp. rewrite Hz. simpl.
    apply Forall_app. split; [eapply Forall_impl; [apply tag_origin|]; by intros c ->|].
    apply Forall_app. split; [eapply Forall_impl; [apply tag_origin|]; by intros c ->|].
    eapply Forall_flat_map_intro; [exact Hwalk|]. intros oa Hoa.
    eapply Forall_impl; [apply tag_origin|]. intros c ->.
    destruct Hoa as [->|[-> _]]; done.
  - intros Hno.
    apply Forall_app. split; [eapply Forall_impl; [apply tag_origin|]; by intros c ->|].
    apply Forall_app. split; [eapply Forall_impl; [apply tag_origin|]; by intros c ->|].
    apply Forall_app. split; [eapply Forall_impl; [apply tag_origin|]; by intros c ->|].
    eapply Forall_flat_map_intro; [exact Hwalk|]. intros oa Hoa.
    eapply Forall_impl; [apply tag_origin|]. intros c ->.
    destruct Hoa as [->|(-> & Ha & Hpc)]; [done|].
    destruct Hno; congruence.
  - apply Forall_app. split.
    { apply (tag_attrs OTime (fun a => isGroup (Val a) = false)).
      unfold specTimestamp. destruct (IsZero (rTime rec)); [constructor|].
      by apply builtin_calls. }
    apply Forall_app. split.
    { apply (tag_attrs OLevel (fun a => isGroup (Val a) = false)). by apply builtin_calls. }
    apply Forall_app. split.
    { apply (tag_attrs OMessage (fun a => isGroup (Val a) = false)). by apply builtin_calls. }
    eapply Forall_flat_map_intro; [exact Hwalk|]. intros oa _.
    apply (tag_attrs oa.1 (fun a => isGroup (Val a) = false)). apply attrEmit_calls.
Qed.

End Hook.

(** A record with the zero time, no program counter and a group, on a
    handler with a hook: the hook is called for the level, the message
    and the group's leaf. *)
Lemma hook_skips_absent_fields_witness :
  exists r σ' new,
    Handle Demo.hooked
      (Demo.info "m" [mkAttr "l1" (GroupValue [mkAttr "flavor" (StringValue "vanilla")])])
      Demo.st2 = Some (r, σ') /\
    hooks σ' = hooks Demo.st2 ++ new /\
    Forall (fun c => hc_origin c <> OTime) new /\
    Forall (fun c => hc_origin c <> OSource) new.
Proof.
  destruct (hook_skips_absent_fields Demo.hooked
              (Demo.info "m" [mkAttr "l1" (GroupValue [mkAttr "flavor" (StringValue "vanilla")])])
              Demo.st2)
    as (r & σ' & new & Hrun & Hh & Ht & Hs & _).
  - unfold wf, Slice.valid, Slice.cells. simpl. lia.
  - constructor.
  - exists r, σ', new. split; [exact Hrun|]. split; [exact Hh|].
    split; [apply Ht; reflexivity | apply Hs; left; reflexivity].
Defined.

Example hooked_calls :
  exists r σ',
    Handle Demo.hooked
      (Demo.info "m" [mkAttr "l1" (GroupValue [mkAttr "flavor" (StringValue "vanilla")])])
      Demo.st2 = Some (r, σ') /\
    hooks σ' =
      [ {| hc_origin := OLevel; hc_groups := [];
           hc_attr := mkAttr LevelKey (AnyLevel LevelInfo) |};
        {| hc_origin := OMessage; hc_groups := [];
           hc_attr := mkAttr MessageKey (StringValue "m") |};
        {| hc_origin := OAttr; hc_groups := ["l1"%string];
           hc_attr := mkAttr "flavor" (StringValue "vanilla") |} ] /\
    Demo.lastWrite σ' = ("INF m l1.flavor=vanilla" ++ String "010" EmptyString)%string.
Proof. do 2 eexists. split; [vm_compute; reflexivity|]. split; reflexivity. Qed.

Module DurationFacts.
Import DurationFmt.
Local Open Scope Z_scope.

(** ** Durations *)









End DurationFacts.

(** * Further properties of the handler *)

(** ** Programs never panic *)

(** [append] leaves every slice of the heap a slice of the heap, also
    one that reaches into the cells it writes. *)
Lemma append_valid_any {A} (zero : A) slack (σ : Slice.heap A) s xs r :
  Slice.valid σ s -> Slice.valid σ r ->
  Slice.valid (Slice.append zero slack s xs σ).2 r.
Proof.
  intros Hs Hr. pose proof Hs as [H1 H2]. unfold Slice.append.
  case_decide as Hn; simpl.
  - destruct (decide (Slice.arr r = Slice.arr s)) as [Heq|Hne].
    + destruct (valid_fresh _ _ Hr) as [Hlt|H0].
      * destruct Hr as [H3 H4]. split; [done|].
        assert (Slice.cells σ r = Slice.cells σ s) as Hc
          by (unfold Slice.cells; by rewrite Heq).
        rewrite cells_insert_eq by done || lia.
        rewrite !length_app, length_take, length_drop. rewrite Hc in H4. lia.
      * destruct Hr as [H3 H4]. split; lia.
    + destruct Hr as [H3 H4]. split; [done|]. by rewrite cells_insert_ne.
  - by apply alloc_keeps.
Qed.

Section Safety.
Context {E : Encoder} {R : GoRuntime}.

Lemma pool_null_tl σ :
  Forall (fun s => s = Slice.null) (pool σ) ->
  Forall (fun s => s = Slice.null) (tl (pool σ)).
Proof. destruct (pool σ); [done|]. by inversion 1. Qed.

Lemma NewHandler_world w o σ hs :
  world_ok σ hs ->
  exists h σ', NewHandler w o σ = Some (h, σ') /\ world_ok σ' (hs ++ [h]) /\
               writes σ' = writes σ.
Proof.
  intros [Hhs Hp].
  destruct (NewHandler_wf w o σ) as (h & σ' & Hrun & Hwf & Hcl & Hpool).
  destruct (NewHandler_run w o σ)
    as (h0 & σ0 & Hrun0 & _ & _ & _ & _ & _ & _ & _ & Ha & Hb & Hs & _ & Hw & _).
  rewrite Hrun in Hrun0. injection Hrun0 as <- <-.
  exists h, σ'. split; [done|]. split; [|done]. split; [|by rewrite Hpool].
  apply Forall_app. split; [|by constructor].
  eapply Forall_impl; [exact Hhs|]. intros h2 [(Hl & Hvh & Hvc & Hvg) Hc2].
  split; [|done]. unfold wf. rewrite Ha, Hb, Hs. split_and!; try done.
  by apply alloc_keeps.
Qed.

Lemma WithAttrs_world h l σ hs :
  world_ok σ hs -> h ∈ hs ->
  exists h' σ',
    (let* attrs := sliceLiteral l in WithAttrs h attrs) σ = Some (h', σ') /\
    world_ok σ' (hs ++ [h']) /\ writes σ' = writes σ.
Proof.
  intros [Hhs Hp] Hin. unfold bind at 1, sliceLiteral at 1.
  set (attrs := Slice.mk (length (attrsH σ)) (length l) (length l)).
  set (σ1 := set_attrsH _ σ).
  assert (Slice.valid (attrsH σ1) attrs) as Hva.
  { unfold Slice.valid. simpl. rewrite cells_app_new by done. lia. }
  assert (forall h2, wf σ h2 -> wf σ1 h2) as Hwf1.
  { intros h2 (Hl & Hvh & Hvc & Hvg). unfold wf. simpl. split_and!; try done.
    by apply alloc_keeps. }
  rewrite Forall_forall in Hhs. destruct (Hhs h Hin) as [Hwf Hcl].
  destruct (WithAttrs_run h attrs σ1 (Hwf1 h Hwf) Hva)
    as (h' & σ' & Hrun & (Ho & _ & _ & Hg) & (_ & Hvh' & Hl) & (_ & Hvc' & Hcap) & _
        & (Hs & Hw & Hpl & _) & Hka & _ & Hpre).
  exists h', σ'. split; [done|]. split; [|done]. split.
  - apply Forall_app. split.
    + apply Forall_forall. intros h2 Hin2. destruct (Hhs h2 Hin2) as [Hwf2 Hcl2].
      split; [|done]. pose proof Hwf2 as (Hl2 & Hvh2 & Hvc2 & Hvg2).
      destruct (Hwf1 h2 Hwf2) as (_ & Hvh3 & Hvc3 & Hvg3).
      unfold wf. rewrite Hs. split_and!; try done.
      * apply Hka; [done|]. destruct (valid_fresh _ _ Hvh2) as [Hlt|H0].
        -- left. simpl. lia.
        -- right. destruct Hvh2. lia.
      * by apply (prefix_keeps (bytesH σ1) (bytesH σ')); [apply Hpre|].
    + constructor; [|done]. split.
      * destruct (Hwf1 h Hwf) as (Hl1 & _ & _ & Hvg1).
        unfold wf. rewrite Ho, Hl, Hg, Hs. by split_and!.
      * unfold clipped. lia.
  - rewrite Hpl. by apply pool_null_tl.
Qed.

Lemma WithGroup_world h name σ hs :
  world_ok σ hs -> h ∈ hs ->
  exists h' σ', WithGroup h name σ = Some (h', σ') /\ world_ok σ' (hs ++ [h']) /\
                writes σ' = writes σ.
Proof.
  intros [Hhs Hp] Hin.
  rewrite Forall_forall in Hhs. destruct (Hhs h Hin) as [Hwf Hcl].
  pose proof Hwf as (Hlen & Hvh & Hvc & Hvg).
  destruct (WithGroup_wf h name σ Hwf) as (h' & σ' & Hrun & Hwf' & Hcl').
  exists h', σ'. split; [done|].
  assert (bytesH σ' = bytesH σ /\ attrsH σ' = attrsH σ /\ pool σ' = pool σ /\
          writes σ' = writes σ /\
          strsH σ' = (Slice.append EmptyString growslice (groups h) [TrimSpace name]
                        (strsH σ)).2) as (Hb & Ha & Hpl & Hw & Hs).
  { revert Hrun. unfold WithGroup, bind, appendStrs, ret.
    destruct (Slice.append EmptyString growslice (groups h) [TrimSpace name] (strsH σ))
      as [s hp]. intros [= <- <-]. done. }
  split; [|done]. split; [|by rewrite Hpl].
  apply Forall_app. split; [|constructor; [by auto|done]].
  apply Forall_forall. intros h2 Hin2. destruct (Hhs h2 Hin2) as [(Hl2 & Hvh2 & Hvc2 & Hvg2) Hcl2].
  split; [|done]. unfold wf. rewrite Ha, Hb, Hs. split_and!; try done.
  by apply append_valid_any.
Qed.

Lemma Handle_world h rec σ hs :
  world_ok σ hs -> h ∈ hs ->
  exists r σ', Handle h rec σ = Some (r, σ') /\ world_ok σ' hs /\
               length (writes σ') = S (length (writes σ)).
Proof.
  intros [Hhs Hp] Hin.
  rewrite Forall_forall in Hhs. destruct (Hhs h Hin) as [Hwf Hcl].
  destruct (pool_null_ok σ Hp) as [Hpool Hap].
  destruct (Handle_pool_null h rec σ Hwf Hp) as (r & σ' & Hrun & Hp').
  destruct (Handle_run h rec σ Hwf Hpool) as (σ0 & Hrun0 & Hw & _ & Hb & Hs & _ & Hk).
  rewrite Hrun in Hrun0. injection Hrun0 as -> <-.
  eexists _, σ'. split; [done|].
  split; [|rewrite Hw, length_app; simpl; lia]. split; [|done].
  apply Forall_forall. intros h2 Hin2. destruct (Hhs h2 Hin2) as [(Hl2 & Hvh2 & Hvc2 & Hvg2) Hcl2].
  split; [|done]. unfold wf. rewrite Hb, Hs. split_and!; try done.
  by apply Hk.
Qed.

Lemma step_world c hs σ :
  world_ok σ hs ->
  exists hs' σ',
    step hs c σ = Some (hs', σ') /\ world_ok σ' hs' /\
    forall cs, length (writes σ) + logged (length hs) (c :: cs)
               = length (writes σ') + logged (length hs') cs.
Proof.
  intros Hok. destruct c as [w o|i l|i name|i rec]; simpl.
  - destruct (NewHandler_world w o σ hs Hok) as (h & σ' & Hrun & Hok' & Hw).
    exists (hs ++ [h]), σ'. unfold bind. rewrite Hrun, Hw, length_app. simpl.
    (split; [done|]); (split; [done|]); intros cs. by rewrite Nat.add_1_r.
  - destruct (hs !! i) as [h|] eqn:Hi.
    + destruct (WithAttrs_world h l σ hs Hok) as (h' & σ' & Hrun & Hok' & Hw);
        [eapply list_elem_of_lookup_2; eauto|].
      exists (hs ++ [h']), σ'. split; [|split; [done|]].
      * revert Hrun. unfold bind, sliceLiteral, ret.
        by destruct (WithAttrs h _ _) as [[??]|]; intros [= -> ->].
      * intros cs. rewrite Hw, length_app. simpl. apply lookup_lt_Some in Hi.
        case_decide; [|lia]. by rewrite Nat.add_1_r.
    + exists hs, σ. (split; [done|]); (split; [done|]); intros cs. apply lookup_ge_None in Hi.
      case_decide; [lia|done].
  - destruct (hs !! i) as [h|] eqn:Hi.
    + destruct (WithGroup_world h name σ hs Hok) as (h' & σ' & Hrun & Hok' & Hw);
        [eapply list_elem_of_lookup_2; eauto|].
      exists (hs ++ [h']), σ'. unfold bind. rewrite Hrun, Hw, length_app. simpl.
      (split; [done|]); (split; [done|]); intros cs. apply lookup_lt_Some in Hi.
      case_decide; [|lia]. by rewrite Nat.add_1_r.
    + exists hs, σ. (split; [done|]); (split; [done|]); intros cs. apply lookup_ge_None in Hi.
      case_decide; [lia|done].
  - destruct (hs !! i) as [h|] eqn:Hi.
    + destruct (Handle_world h rec σ hs Hok) as (r & σ' & Hrun & Hok' & Hw);
        [eapply list_elem_of_lookup_2; eauto|].
      exists hs, σ'. unfold bind. rewrite Hrun, Hw. split_and!; try done.
      intros cs. apply lookup_lt_Some in Hi. case_decide; lia.
    + exists hs, σ. (split; [done|]); (split; [done|]); intros cs. apply lookup_ge_None in Hi.
      case_decide; [lia|done].
Qed.

Lemma run_world cs : forall hs σ,
  world_ok σ hs ->
  exists hs' σ',
    foldM step cs hs σ = Some (hs', σ') /\ world_ok σ' hs' /\
    length (writes σ') = length (writes σ) + logged (length hs) cs.
Proof.
  induction cs as [|c cs IH]; intros hs σ Hok.
  - exists hs, σ. simpl. split_and!; try done; lia.
  - destruct (step_world c hs σ Hok) as (hs1 & σ1 & Hrun & Hok1 & Hw1).
    destruct (IH hs1 σ1 Hok1) as (hs' & σ' & Hrun' & Hok' & Hw').
    exists hs', σ'. cbn [foldM]. unfold bind at 1. rewrite Hrun.
    split_and!; try done. rewrite Hw', Hw1. done.
Qed.

(** X1: a program that makes handlers with [NewHandler], derives
    handlers from them with [WithAttrs] (on a slice literal) and
    [WithGroup], and logs records with [Handle], in any order and any
    number of times, never panics: every call returns.  At the end every
    handler it made has a slot for each of its header keys, slices that
    lie within their arrays, and a context without spare capacity; and
    the sinks were given one chunk for each [Handle] call. *)
Theorem run_never_panics (cs : list call) :
  exists hs σ,
    run cs emptyState = Some (hs, σ) /\
    Forall (fun h => wf σ h /\ clipped h) hs /\
    length (writes σ) = logged 0 cs.
Proof.
  destruct (run_world cs [] emptyState) as (hs & σ & Hrun & [Hok _] & Hw).
  - split; constructor.
  - by exists hs, σ.
Qed.

End Safety.

(** ** [Handle] holds no state of a record *)

Section Repeat.
Context {E : Encoder} {R : GoRuntime}.



End Repeat.


(** ** One record, one line *)

Section OneLine.
Context {E : Encoder} {R : GoRuntime}.

Lemma multiline_app t1 t2 :
  multiline (t1 ++ t2) = multiline t1 || multiline t2.
Proof.
  apply eq_true_iff_eq. rewrite orb_true_iff, !multiline_In, in_app_iff. done.
Qed.

Lemma multiline_concat ts :
  forallb (fun t => negb (multiline t)) ts = true -> multiline (concat ts) = false.
Proof.
  induction ts as [|t ts IH]; simpl; [done|].
  rewrite andb_true_iff, negb_true_iff. intros [Ht Hts].
  by rewrite multiline_app, Ht, IH.
Qed.

(** X3: the chunk [Handle] writes ends in a line break, and it is one
    line, that is the line break at its end is its only one, whenever
    the timestamp and the headers, the level, the separator and the
    message, the bound context and the tokens of the record's attributes
    have none. *)
Theorem Handle_writes_one_line h rec σ :
  wf σ h -> pool_ok σ ->
  let gs := Slice.read (strsH σ) (groups h) in
  let ctx := Slice.read (bytesH σ) (context h) in
  let hs := Slice.read (attrsH σ) (headers h) in
  multiline (headerText h hs rec) = false ->
  multiline (prelude h rec) = false ->
  multiline ctx = false ->
  forallb (fun t => negb (multiline t)) (tokens h gs rec) = true ->
  exists body r σ',
    Handle h rec σ = Some (r, σ') /\
    sunk σ σ' = [body ++ [x0a]] /\
    multiline body = false.
Proof.
  intros Hwf Hpool gs ctx hs Hh Hp Hc Ht.
  destruct (Handle_run h rec σ Hwf Hpool) as (σ' & Hrun & Hw & _).
  eexists (headerText h hs rec ++ middleText h gs ctx rec ++ trailerText h gs rec), _, σ'.
  split; [exact Hrun|]. split.
  - unfold sunk. rewrite Hw, drop_app_length. unfold line.
    fold gs ctx hs. by rewrite <- !app_assoc.
  - unfold middleText, trailerText.
    assert (List.filter multiline (tokens h gs rec) = []) as ->.
    { clear -Ht. induction (tokens h gs rec) as [|t ts IH]; simpl; [done|].
      simpl in Ht. apply andb_true_iff in Ht as [Ht Hts].
      apply negb_true_iff in Ht. rewrite Ht. auto. }
    rewrite !multiline_app, Hh, Hp, Hc. simpl. rewrite orb_false_r.
    apply multiline_concat. clear -Ht.
    induction (tokens h gs rec) as [|t ts IH]; simpl; [done|].
    simpl in Ht. apply andb_true_iff in Ht as [Ht Hts]. rewrite Ht. simpl.
    rewrite Ht. auto.
Qed.

End OneLine.

Lemma Handle_writes_one_line_witness :
  exists body r σ',
    Handle (Demo.logger Demo.discard)
           (Demo.info "foobar" [mkAttr "k" (StringValue "v")]) Demo.st2 = Some (r, σ') /\
    sunk Demo.st2 σ' = [body ++ [x0a]] /\
    multiline body = false.
Proof.
  apply (Handle_writes_one_line (Demo.logger Demo.discard)
           (Demo.info "foobar" [mkAttr "k" (StringValue "v")]) Demo.st2
           (logger_wf _) st2_pool_ok); vm_compute; reflexivity.
Defined.

(** ** Without header attributes nothing is copied *)

Section NoCopy.
Context {E : Encoder} {R : GoRuntime}.

Lemma walk_inline h enc l : forall σ w,
  forallb (inline h) l = true ->
  exists w' σ',
    foldM (handleAttr h enc) l w σ = Some (w', σ') /\
    attrsH σ' = attrsH σ /\ w_headers w' = w_headers w.
Proof.
  induction l as [|oa l IH]; intros σ w Hin; simpl.
  - by exists w, σ.
  - simpl in Hin. apply andb_true_iff in Hin as [Hoa Hl].
    unfold bind at 1. rewrite handleAttr_inline by (unfold inline in Hoa; lia).
    destruct (IH (set_hooks (fun l0 => l0 ++ tag oa.1
                    (writeAttr (enc_opts enc) (enc_groups enc) oa.2 (groupPrefix h)).2) σ)
                 {| w_headers := w_headers w; w_localHeaders := w_localHeaders w;
                    w_middle := w_middle w ++
                      (if multiline (writeAttr (enc_opts enc) (enc_groups enc) oa.2
                                       (groupPrefix h)).1
                       then [] else (writeAttr (enc_opts enc) (enc_groups enc) oa.2
                                       (groupPrefix h)).1);
                    w_trailer := w_trailer w ++
                      (if multiline (writeAttr (enc_opts enc) (enc_groups enc) oa.2
                                       (groupPrefix h)).1
                       then (writeAttr (enc_opts enc) (enc_groups enc) oa.2
                               (groupPrefix h)).1 else []) |} Hl)
      as (w' & σ' & Hrun & Ha & Hw).
    exists w', σ'. split; [exact Hrun|]. split; [by rewrite Ha|by rewrite Hw].
Qed.

Lemma fill_inline h rec σ x σ' :
  forallb (inline h) (walked h rec) = true ->
  fill h rec σ = Some (x, σ') -> attrsH σ' = attrsH σ.
Proof.
  intros Hin. unfold fill. unfold bind at 1. rewrite newEncoder_run.
  unfold bind at 1. unfold encWrite at 1.
  unfold bind at 1. unfold encWrite at 1.
  unfold bind at 1. unfold encWrite at 1.
  unfold bind at 1. unfold readBytes at 1.
  set (enc := {| enc_opts := opts h |}).
  set (σ0 := set_hooks _ (set_hooks _ (set_hooks _ (set_pool _ σ)))).
  set (w0 := {| w_headers := headers h |}).
  destruct (walk_inline h enc (walked h rec) σ0 w0 Hin) as (w & σ1 & Hrun & Ha1 & Hw1).
  unfold bind at 1. rewrite Hrun.
  unfold bind at 1. unfold readAttrs at 1.
  assert (attrsH σ1 = attrsH σ) as Ha by (by rewrite Ha1).
  destruct (0 <? HeaderWidth (opts h))%Z.
  - unfold bind at 1.
    match goal with |- context [foldM _ ?l ?b σ1] =>
      destruct (headers_run (fun a => writeHeader (enc_opts enc) a (HeaderWidth (opts h)))
                  l b σ1) as (σ2 & Hf & _ & Ha2 & _) end.
    rewrite Hf. unfold ret. intros [= <- <-]. congruence.
  - destruct (0 <? length _).
    + unfold bind, encWrite, ret. intros [= <- <-]. done.
    + unfold bind, ret. intros [= <- <-]. done.
Qed.

(** X4: a record [Handle] adds no attribute to, and none of whose
    attributes has a header key, is handled without a copy of the
    slots: [Handle] allocates no array of attributes and writes to
    none. *)
Theorem Handle_without_header_attrs h rec σ :
  wf σ h -> pool_ok σ ->
  addsNothing h rec = true ->
  forallb (fun a => (matchHeader h a <? 0)%Z) (rAttrs rec) = true ->
  exists r σ',
    Handle h rec σ = Some (r, σ') /\ attrsH σ' = attrsH σ.
Proof.
  intros Hwf Hpool Hadd Hno.
  assert (forallb (inline h) (walked h rec) = true) as Hin.
  { unfold walked. unfold addsNothing in Hadd. apply negb_true_iff in Hadd.
    rewrite Hadd, app_nil_r. clear -Hno.
    induction (rAttrs rec) as [|a l IH]; simpl in *; [done|].
    apply andb_true_iff in Hno as [Ha Hl]. unfold inline at 1. simpl.
    rewrite Ha. auto. }
  destruct (Handle_run h rec σ Hwf Hpool) as (σ' & Hrun & _).
  eexists _, σ'. split; [exact Hrun|].
  pose proof Hrun as Hrun'. unfold Handle in Hrun'. unfold bind at 1 in Hrun'.
  destruct (fill h rec σ) as [[[[enc hb] w] σ1]|] eqn:Hfill; [|done].
  pose proof (fill_inline h rec σ _ σ1 Hin Hfill) as Ha.
  unfold bind, WriteTo, free, ret in Hrun'.
  match type of Hrun' with
  | (match ?c with _ => _ end) _ = _ => destruct c
  end; injection Hrun' as _ <-; done.
Qed.

(** A handler without header keys: every attribute is written in line. *)
Lemma inline_no_headers h l :
  Headers (opts h) = [] -> forallb (inline h) l = true.
Proof.
  intros Hh. apply forallb_forall. intros oa _.
  unfold inline, matchHeader. by rewrite Hh.
Qed.

Lemma extract_none h attrs : forall n i σ,
  i + n = Slice.len attrs -> Slice.valid (attrsH σ) attrs ->
  forallb (fun a => (matchHeader h a <? 0)%Z) (Slice.read (attrsH σ) attrs) = true ->
  foldM (fun (st : Slice.t * bool) i =>
           let* attr := indexAttrs attrs i in
           let idx := matchHeader h attr in
           if (0 <=? idx)%Z then
             let* hs := (if negb st.2 then
                           let* hs := makeAttrs (Slice.len (headers h)) in
                           copyAttrs hs (headers h) ;; ret hs
                         else ret st.1) in
             setAttrs hs (Z.to_nat idx) attr ;;
             setAttrs attrs i zeroAttr ;;
             ret (hs, true)
           else ret st) (seq i n) (headers h, false) σ
  = Some ((headers h, false), σ).
Proof.
  induction n as [|n IH]; intros i σ Hi Hv Hno; cbn [foldM seq]; [done|].
  pose proof (read_length _ _ Hv) as Hlen.
  destruct (lookup_lt_is_Some_2 (Slice.read (attrsH σ) attrs) i) as [a Ha]; [lia|].
  unfold bind at 1. unfold bind at 1. unfold indexAttrs at 1. rewrite Ha.
  rewrite forallb_forall in Hno.
  pose proof (Hno a (proj1 (list_elem_of_In _ _) (list_elem_of_lookup_2 _ _ _ Ha))) as Hm.
  cbv zeta. assert ((0 <=? matchHeader h a)%Z = false) as -> by lia.
  unfold ret at 1. apply IH; [lia|done|]. by apply forallb_forall.
Qed.

Lemma extractHeaders_none h attrs σ :
  Slice.valid (attrsH σ) attrs ->
  forallb (fun a => (matchHeader h a <? 0)%Z) (Slice.read (attrsH σ) attrs) = true ->
  extractHeaders h attrs σ = Some (headers h, σ).
Proof.
  intros Hva Hno.
  pose proof (extract_none h attrs (Slice.len attrs) 0 σ eq_refl Hva Hno) as Hex.
  unfold extractHeaders. unfold bind at 1. cbv beta zeta in Hex |- *.
  rewrite Hex. reflexivity.
Qed.

(** X5: when none of the attributes has a header key, [WithAttrs]
    makes no copy of the slots: the new handler has the slice of slots
    of the one it derives from, the caller's attributes are not written
    to, and no attribute array is allocated.  This is so in particular
    for no attributes at all. *)
Theorem WithAttrs_shares_slots h attrs σ :
  wf σ h -> Slice.valid (attrsH σ) attrs ->
  forallb (fun a => (matchHeader h a <? 0)%Z) (Slice.read (attrsH σ) attrs) = true ->
  exists h' σ',
    WithAttrs h attrs σ = Some (h', σ') /\
    headers h' = headers h /\ attrsH σ' = attrsH σ.
Proof.
  intros Hwf Hva Hno.
  destruct (WithAttrs_run h attrs σ Hwf Hva) as (h' & σ' & Hrun & _).
  exists h', σ'. split; [exact Hrun|].
  revert Hrun. unfold WithAttrs. unfold bind at 1.
  rewrite (extractHeaders_none h attrs σ Hva Hno).
  unfold bind at 1. rewrite newEncoder_run. cbn [enc_opts enc_groups].
  unfold bind at 1. unfold readAttrs at 1.
  set (σ2 := set_pool _ σ).
  assert (Slice.valid (bytesH σ2) (context h)) as Hvc2 by apply Hwf.
  destruct (ctx_loop (context h) σ2
              (fun a => writeAttr (opts h) (Slice.read (strsH σ) (groups h)) a (groupPrefix h))
              (Slice.read (attrsH σ2) attrs) (context h) σ2 Hvc2 (ctx_inv_init _ _ Hvc2))
    as (c & σ3 & Hloop & Inv & _).
  unfold bind at 1. rewrite Hloop. unfold ret. intros [= <- <-].
  split; [done|]. destruct Inv as (_ & _ & _ & _ & _ & Ha & _). by rewrite Ha.
Qed.

End NoCopy.

Lemma Handle_without_header_attrs_witness :
  exists r σ',
    Handle (Demo.logger Demo.discard)
           (Demo.info "foobar" [mkAttr "k" (StringValue "v")]) Demo.st2 = Some (r, σ') /\
    attrsH σ' = attrsH Demo.st2.
Proof.
  apply (Handle_without_header_attrs (Demo.logger Demo.discard)
           (Demo.info "foobar" [mkAttr "k" (StringValue "v")]) Demo.st2
           (logger_wf _) st2_pool_ok).
  - reflexivity.
  - reflexivity.
Defined.

Lemma WithAttrs_shares_slots_witness :
  exists h' σ',
    WithAttrs (Demo.logger Demo.discard) (Slice.mk 1 1 2) Demo.st2 = Some (h', σ') /\
    headers h' = headers (Demo.logger Demo.discard) /\ attrsH σ' = attrsH Demo.st2.
Proof.
  apply (WithAttrs_shares_slots (Demo.logger Demo.discard) (Slice.mk 1 1 2) Demo.st2
           (logger_wf _)).
  - unfold Slice.valid, Slice.cells. simpl. lia.
  - reflexivity.
Defined.

(** ** Derivation, then [Handle] *)

Section Compose.
Context {E : Encoder} {R : GoRuntime}.

(** What [Handle] writes depends on the handler through its options and
    its prefix, and on the contents of its slices. *)
Lemma matchHeader_ext h1 h2 a : opts h1 = opts h2 -> matchHeader h1 a = matchHeader h2 a.
Proof. unfold matchHeader. by intros ->. Qed.

Lemma walked_ext h1 h2 rec : opts h1 = opts h2 -> walked h1 rec = walked h2 rec.
Proof. unfold walked. by intros ->. Qed.

Lemma store_ext h1 h2 : opts h1 = opts h2 -> store h1 = store h2.
Proof.
  intros Ho. unfold store.
  assert (matchHeader h1 = matchHeader h2) as ->; [|done].
  unfold matchHeader. by rewrite Ho.
Qed.

Lemma strip_ext h1 h2 : opts h1 = opts h2 -> strip h1 = strip h2.
Proof.
  intros Ho. unfold strip.
  assert (matchHeader h1 = matchHeader h2) as ->; [|done].
  unfold matchHeader. by rewrite Ho.
Qed.

Lemma inline_ext h1 h2 : opts h1 = opts h2 -> inline h1 = inline h2.
Proof.
  intros Ho. unfold inline.
  assert (matchHeader h1 = matchHeader h2) as ->; [|done].
  unfold matchHeader. by rewrite Ho.
Qed.

Lemma line_ext h1 h2 gs ctx hs rec :
  opts h1 = opts h2 -> groupPrefix h1 = groupPrefix h2 ->
  line h1 gs ctx hs rec = line h2 gs ctx hs rec.
Proof.
  intros Ho Hp.
  unfold line, headerText, middleText, trailerText, headerEmits, prelude, tokens, slots.
  by rewrite (walked_ext h1 h2 rec Ho), (store_ext h1 h2 Ho), (inline_ext h1 h2 Ho), Ho, Hp.
Qed.

(** After [WithAttrs] the pool is in order. *)
Lemma WithAttrs_pool_ok h attrs σ h' σ' :
  wf σ h -> pool_ok σ -> Slice.valid (attrsH σ) attrs ->
  WithAttrs h attrs σ = Some (h', σ') -> pool_ok σ'.
Proof.
  intros Hwf Hpool Hva Hrun.
  destruct (WithAttrs_run h attrs σ Hwf Hva)
    as (h0 & σ0 & Hrun0 & _ & _ & _ & _ & (_ & _ & Hp & _) & Hka & _).
  rewrite Hrun in Hrun0. injection Hrun0 as <- <-.
  unfold pool_ok in *. rewrite Hp. rewrite Forall_forall in Hpool.
  apply Forall_forall. intros s Hin.
  destruct (Hpool s) as [H0 Hv].
  { destruct (pool σ); [done|]. by right. }
  split; [done|]. by apply Hka; [|right].
Qed.

(** X6: [Handle] on the handler [WithAttrs] returns writes the line
    [Handle] on the parent would write with the tokens of the bound
    attributes after the parent's context, and with the bound header
    attributes stored in the parent's slots: the bound attributes come
    before the record's own, in the order they were bound in, and a
    header attribute of the record goes before a bound one of the
    same key. *)
Theorem WithAttrs_then_Handle h attrs rec σ :
  wf σ h -> pool_ok σ -> Slice.valid (attrsH σ) attrs ->
  let l := Slice.read (attrsH σ) attrs in
  let hs := Slice.read (attrsH σ) (headers h) in
  let gs := Slice.read (strsH σ) (groups h) in
  let ctx := Slice.read (bytesH σ) (context h) in
  exists h' σ1 r σ2,
    WithAttrs h attrs σ = Some (h', σ1) /\
    Handle h' rec σ1 = Some (r, σ2) /\
    sunk σ1 σ2 = [line h gs (ctx ++ boundTokens h gs (map (strip h) l))
                    (bound_slots h hs l) rec] /\
    slots h (bound_slots h hs l) rec
      = fold_left (store h) (map (pair OAttr) l ++ walked h rec) hs.
Proof.
  intros Hwf Hpool Hva l hs gs ctx.
  destruct (WithAttrs_run h attrs σ Hwf Hva)
    as (h' & σ1 & Hrun & (Ho & _ & Hp & Hg) & (Hrh & Hvh' & Hl) & (Hrc & Hvc' & Hcap) & _
        & (Hs & _) & _).
  pose proof (WithAttrs_pool_ok h attrs σ h' σ1 Hwf Hpool Hva Hrun) as Hpool1.
  assert (wf σ1 h') as Hwf1.
  { destruct Hwf as (Hlen & _ & _ & Hvg).
    unfold wf. rewrite Ho, Hl, Hg, Hs. by split_and!. }
  destruct (Handle_run h' rec σ1 Hwf1 Hpool1) as (σ2 & Hrun2 & Hw & _).
  eexists h', σ1, _, σ2. split; [exact Hrun|]. split; [exact Hrun2|]. split.
  - unfold sunk. rewrite Hw, drop_app_length. rewrite Hrh, Hrc, Hg, Hs.
    by rewrite (line_ext h' h _ _ _ _ Ho Hp).
  - unfold slots, bound_slots. rewrite fold_left_app. f_equal.
    clear. generalize hs. induction l as [|a l IH]; intros hs0; simpl; [done|].
    by rewrite IH.
Qed.

(** X7: [WithGroup] takes effect on what is written later only: [Handle]
    on the handler it returns writes the parent's slots and the
    parent's context as they are, and the tokens of the record's
    attributes under the longer prefix and with the longer group path. *)
Theorem WithGroup_then_Handle h name rec σ :
  wf σ h -> pool_ok σ ->
  let hs := Slice.read (attrsH σ) (headers h) in
  let gs := Slice.read (strsH σ) (groups h) in
  let ctx := Slice.read (bytesH σ) (context h) in
  let p := if String.eqb (groupPrefix h) EmptyString then TrimSpace name
           else (groupPrefix h ++ "." ++ TrimSpace name)%string in
  let toks := map (fun oa => (writeAttr (opts h) (gs ++ [TrimSpace name]) oa.2 p).1)
                  (List.filter (inline h) (walked h rec)) in
  exists h' σ1 r σ2,
    WithGroup h name σ = Some (h', σ1) /\
    Handle h' rec σ1 = Some (r, σ2) /\
    sunk σ1 σ2 = [headerText h hs rec
                  ++ ((prelude h rec ++ ctx)
                      ++ concat (List.filter (fun t => negb (multiline t)) toks))
                  ++ concat (List.filter multiline toks) ++ [x0a]].
Proof.
  intros Hwf Hpool hs gs ctx p toks.
  pose proof Hwf as (Hlen & Hvh & Hvc & Hvg).
  destruct (WithGroup_run h name σ Hvg)
    as (h' & σ1 & Hrun & (Ho & _ & Hc & Hh) & Hp & (Hrg & Hvg') & _ & Hb & Ha & Hpl & _).
  assert (wf σ1 h') as Hwf1.
  { unfold wf. rewrite Ho, Hh, Hc, Ha, Hb. by split_and!. }
  assert (pool_ok σ1) as Hpool1 by (unfold pool_ok; by rewrite Hpl, Ha).
  destruct (Handle_run h' rec σ1 Hwf1 Hpool1) as (σ2 & Hrun2 & Hw & _).
  eexists h', σ1, _, σ2. split; [exact Hrun|]. split; [exact Hrun2|].
  unfold sunk. rewrite Hw, drop_app_length. rewrite Hrg, Hc, Hh, Hb, Ha.
  fold hs gs ctx.
  unfold line, headerText, middleText, trailerText, headerEmits, prelude, tokens, slots.
  rewrite (walked_ext h' h rec Ho), (store_ext h' h Ho), (inline_ext h' h Ho), Ho, Hp.
  reflexivity.
Qed.

(** X8: binding attributes in two calls of [WithAttrs] gives a handler
    with the context and the slots that binding them all in one call
    gives. *)
Theorem WithAttrs_twice h a1 a2 a12 σ :
  wf σ h ->
  Slice.valid (attrsH σ) a1 -> Slice.valid (attrsH σ) a2 -> Slice.valid (attrsH σ) a12 ->
  Slice.arr a2 <> Slice.arr a1 ->
  Slice.read (attrsH σ) a12 = Slice.read (attrsH σ) a1 ++ Slice.read (attrsH σ) a2 ->
  exists h1 σ1 h2 σ2 h12 σ12,
    WithAttrs h a1 σ = Some (h1, σ1) /\ WithAttrs h1 a2 σ1 = Some (h2, σ2) /\
    WithAttrs h a12 σ = Some (h12, σ12) /\
    Slice.read (bytesH σ2) (context h2) = Slice.read (bytesH σ12) (context h12) /\
    Slice.read (attrsH σ2) (headers h2) = Slice.read (attrsH σ12) (headers h12) /\
    opts h2 = opts h12 /\ groupPrefix h2 = groupPrefix h12 /\ groups h2 = groups h12.
Proof.
  intros Hwf Hv1 Hv2 Hv12 Hne H12. pose proof Hwf as (Hlen & Hvh & Hvc & Hvg).
  destruct (WithAttrs_run h a1 σ Hwf Hv1)
    as (h1 & σ1 & Hrun1 & (Ho1 & _ & Hp1 & Hg1) & (Hrh1 & Hvh1 & Hl1) & (Hrc1 & Hvc1 & _)
        & _ & (Hs1 & _) & Hka1 & _).
  assert (wf σ1 h1) as Hwf1 by (unfold wf; rewrite Ho1, Hl1, Hg1, Hs1; by split_and!).
  destruct (Hka1 a2 Hv2 (or_introl Hne)) as [Hr2 Hv2'].
  destruct (WithAttrs_run h1 a2 σ1 Hwf1 Hv2')
    as (h2 & σ2 & Hrun2 & (Ho2 & _ & Hp2 & Hg2) & (Hrh2 & _) & (Hrc2 & _) & _).
  destruct (WithAttrs_run h a12 σ Hwf Hv12)
    as (h12 & σ12 & Hrun12 & (Ho12 & _ & Hp12 & Hg12) & (Hrh12 & _) & (Hrc12 & _) & _).
  exists h1, σ1, h2, σ2, h12, σ12. split_and!; try done; try congruence.
  - rewrite Hrc2, Hrc12, Hrc1, Hr2, H12, Hg1, Hs1, Ho1, Hp1, (strip_ext h1 h Ho1).
    by rewrite !map_app, concat_app, <- app_assoc.
  - rewrite Hrh2, Hrh12, Hrh1, Hr2, H12. unfold bound_slots.
    rewrite fold_left_app. by rewrite (store_ext h1 h Ho1).
Qed.

(** X9: an encoder that writes nothing for the zero attribute, as the
    rules of slog have it, leaves no trace of the header attributes in
    the context: the context of the new handler is the parent's,
    followed by the tokens of the attributes that have no header key. *)
Theorem WithAttrs_context_skips_headers h attrs σ :
  (forall o gs p, (writeAttr o gs zeroAttr p).1 = []) ->
  wf σ h -> Slice.valid (attrsH σ) attrs ->
  let l := Slice.read (attrsH σ) attrs in
  let gs := Slice.read (strsH σ) (groups h) in
  exists h' σ',
    WithAttrs h attrs σ = Some (h', σ') /\
    Slice.read (bytesH σ') (context h')
    = Slice.read (bytesH σ) (context h)
      ++ boundTokens h gs (List.filter (fun a => (matchHeader h a <? 0)%Z) l).
Proof.
  intros Hz Hwf Hva l gs.
  destruct (WithAttrs_run h attrs σ Hwf Hva) as (h' & σ' & Hrun & _ & _ & (Hrc & _) & _).
  exists h', σ'. split; [exact Hrun|]. rewrite Hrc. f_equal. fold l gs.
  unfold boundTokens. clear -Hz. induction l as [|a l IH]; simpl; [done|].
  unfold strip at 1. destruct (Z.ltb_spec (matchHeader h a) 0) as [Hlt|Hge].
  - assert ((0 <=? matchHeader h a)%Z = false) as -> by lia. simpl. by rewrite IH.
  - assert ((0 <=? matchHeader h a)%Z = true) as -> by lia. by rewrite Hz, IH.
Qed.

(** X10: [WithAttrs] takes an encoder and does not free it: the pool
    has lost its first encoder when [WithAttrs] returns. *)
Theorem WithAttrs_keeps_its_encoder h attrs σ :
  wf σ h -> Slice.valid (attrsH σ) attrs ->
  exists h' σ', WithAttrs h attrs σ = Some (h', σ') /\ pool σ' = tl (pool σ).
Proof.
  intros Hwf Hva.
  destruct (WithAttrs_run h attrs σ Hwf Hva)
    as (h' & σ' & Hrun & _ & _ & _ & _ & (_ & _ & Hp & _) & _).
  by exists h', σ'.
Qed.

End Compose.

Lemma WithAttrs_then_Handle_witness :
  exists h' σ1 r σ2,
    WithAttrs (Demo.logger Demo.discard) Demo.attrs2 Demo.st2 = Some (h', σ1) /\
    Handle h' (Demo.info "foobar" [mkAttr "n" (Int64Value 1)]) σ1 = Some (r, σ2) /\
    string_of_list_byte <$> sunk σ1 σ2
      = [("L1 INF foobar k=v n=1" ++ String "010" EmptyString)%string].
Proof.
  destruct (WithAttrs_then_Handle (Demo.logger Demo.discard) Demo.attrs2
              (Demo.info "foobar" [mkAttr "n" (Int64Value 1)]) Demo.st2
              (logger_wf _) st2_pool_ok attrs2_valid)
    as (h' & σ1 & r & σ2 & H1 & H2 & H3 & _).
  exists h', σ1, r, σ2. split; [exact H1|]. split; [exact H2|].
  rewrite H3. vm_compute. reflexivity.
Defined.

Lemma WithGroup_then_Handle_witness :
  exists h' σ1 r σ2,
    WithGroup (Demo.logger Demo.discard) "g" Demo.st2 = Some (h', σ1) /\
    Handle h' (Demo.info "foobar" [mkAttr "n" (Int64Value 1)]) σ1 = Some (r, σ2) /\
    string_of_list_byte <$> sunk σ1 σ2
      = [("INF foobar g.n=1" ++ String "010" EmptyString)%string].
Proof.
  destruct (WithGroup_then_Handle (Demo.logger Demo.discard) "g"
              (Demo.info "foobar" [mkAttr "n" (Int64Value 1)]) Demo.st2
              (logger_wf _) st2_pool_ok)
    as (h' & σ1 & r & σ2 & H1 & H2 & H3).
  exists h', σ1, r, σ2. split; [exact H1|]. split; [exact H2|].
  rewrite H3. vm_compute. reflexivity.
Defined.

Lemma WithAttrs_twice_witness :
  let σ := set_attrsH (fun hp => hp ++ [[mkAttr "n" (Int64Value 1)];
                                        Demo.twoAttrs ++ [mkAttr "n" (Int64Value 1)]])
             Demo.st2 in
  exists h1 σ1 h2 σ2 h12 σ12,
    WithAttrs (Demo.logger Demo.discard) Demo.attrs2 σ = Some (h1, σ1) /\
    WithAttrs h1 (Slice.mk 2 1 1) σ1 = Some (h2, σ2) /\
    WithAttrs (Demo.logger Demo.discard) (Slice.mk 3 3 3) σ = Some (h12, σ12) /\
    Slice.read (bytesH σ2) (context h2) = Slice.read (bytesH σ12) (context h12) /\
    Slice.read (attrsH σ2) (headers h2) = Slice.read (attrsH σ12) (headers h12).
Proof.
  intros σ.
  destruct (WithAttrs_twice (Demo.logger Demo.discard) Demo.attrs2 (Slice.mk 2 1 1)
              (Slice.mk 3 3 3) σ)
    as (h1 & σ1 & h2 & σ2 & h12 & σ12 & H1 & H2 & H3 & H4 & H5 & _).
  - unfold wf, Slice.valid, Slice.cells. simpl. lia.
  - unfold Slice.valid, Slice.cells. simpl. lia.
  - unfold Slice.valid, Slice.cells. simpl. lia.
  - unfold Slice.valid, Slice.cells. simpl. lia.
  - simpl. lia.
  - reflexivity.
  - exists h1, σ1, h2, σ2, h12, σ12. repeat split; assumption.
Defined.

Lemma WithAttrs_context_skips_headers_witness :
  exists h' σ',
    WithAttrs (Demo.logger Demo.discard) Demo.attrs2 Demo.st2 = Some (h', σ') /\
    string_of_list_byte (Slice.read (bytesH σ') (context h')) = " k=v"%string.
Proof.
  destruct (WithAttrs_context_skips_headers (Demo.logger Demo.discard) Demo.attrs2 Demo.st2)
    as (h' & σ' & H1 & H2).
  - intros o gs p. reflexivity.
  - apply logger_wf.
  - apply attrs2_valid.
  - exists h', σ'. split; [exact H1|]. rewrite H2. vm_compute. reflexivity.
Defined.

Lemma WithAttrs_keeps_its_encoder_witness :
  exists h' σ',
    WithAttrs (Demo.logger Demo.discard) Demo.attrs2
      (set_pool (fun _ => [Slice.null; Slice.null]) Demo.st2) = Some (h', σ') /\
    pool σ' = [Slice.null].
Proof.
  destruct (WithAttrs_keeps_its_encoder (Demo.logger Demo.discard) Demo.attrs2
              (set_pool (fun _ => [Slice.null; Slice.null]) Demo.st2))
    as (h' & σ' & H1 & H2).
  - unfold wf, Slice.valid, Slice.cells. simpl. lia.
  - unfold Slice.valid, Slice.cells. simpl. lia.
  - by exists h', σ'.
Defined.

(** ** [WithGroup]: the empty name, and the groups of siblings *)

Section Groups.
Context {E : Encoder} {R : GoRuntime}.

(** X11: [WithGroup] treats a name that is empty once trimmed as any
    other: it returns a handler with one more group, the empty one; its
    prefix is the parent's followed by a dot, and stays empty when the
    parent's is empty. *)
Theorem WithGroup_empty_name h name σ :
  Slice.valid (strsH σ) (groups h) -> TrimSpace name = EmptyString ->
  exists h' σ',
    WithGroup h name σ = Some (h', σ') /\
    groupPrefix h' = (if String.eqb (groupPrefix h) EmptyString then EmptyString
                      else (groupPrefix h ++ ".")%string) /\
    Slice.read (strsH σ') (groups h')
      = Slice.read (strsH σ) (groups h) ++ [EmptyString].
Proof.
  intros Hv Hn.
  destruct (WithGroup_run h name σ Hv) as (h' & σ' & Hrun & _ & Hp & (Hr & _) & _).
  exists h', σ'. rewrite Hn in Hp, Hr. by split_and!.
Qed.

(** X12: [WithGroup] appends to the groups of the parent without
    clipping them.  When the parent's groups have spare capacity, two
    handlers derived from it share the cell the name is written to: the
    second derivation overwrites the last group of the first.  When they
    have none, the first keeps its groups. *)
Theorem WithGroup_siblings_share_groups h n1 n2 σ :
  Slice.valid (strsH σ) (groups h) ->
  exists h1 σ1 h2 σ2,
    WithGroup h n1 σ = Some (h1, σ1) /\ WithGroup h n2 σ1 = Some (h2, σ2) /\
    Slice.read (strsH σ1) (groups h1)
      = Slice.read (strsH σ) (groups h) ++ [TrimSpace n1] /\
    Slice.read (strsH σ2) (groups h2)
      = Slice.read (strsH σ) (groups h) ++ [TrimSpace n2] /\
    (Slice.len (groups h) < Slice.cap (groups h) ->
     Slice.read (strsH σ2) (groups h1)
       = Slice.read (strsH σ) (groups h) ++ [TrimSpace n2]) /\
    (Slice.cap (groups h) <= Slice.len (groups h) ->
     Slice.read (strsH σ2) (groups h1)
       = Slice.read (strsH σ) (groups h) ++ [TrimSpace n1]).
Proof.
  intros Hv.
  destruct (WithGroup_run h n1 σ Hv)
    as (h1 & σ1 & Hrun1 & _ & _ & (Hr1 & Hv1) & [Hk1 Hvg1] & _).
  destruct (WithGroup_run h n2 σ1 Hvg1)
    as (h2 & σ2 & Hrun2 & _ & _ & (Hr2 & Hv2) & _).
  exists h1, σ1, h2, σ2. split; [exact Hrun1|]. split; [exact Hrun2|].
  split; [exact Hr1|]. split; [by rewrite Hr2, Hk1|].
  assert (groups h1 = (Slice.append EmptyString growslice (groups h) [TrimSpace n1]
                         (strsH σ)).1 /\
          strsH σ1 = (Slice.append EmptyString growslice (groups h) [TrimSpace n1]
                        (strsH σ)).2) as [Hg1 Hs1].
  { revert Hrun1. unfold WithGroup, bind, appendStrs, ret.
    destruct (Slice.append EmptyString growslice (groups h) [TrimSpace n1] (strsH σ))
      as [s hp]. by intros [= <- <-]. }
  assert (groups h2 = (Slice.append EmptyString growslice (groups h) [TrimSpace n2]
                         (strsH σ1)).1 /\
          strsH σ2 = (Slice.append EmptyString growslice (groups h) [TrimSpace n2]
                        (strsH σ1)).2) as [Hg2 Hs2].
  { revert Hrun2. unfold WithGroup, bind, appendStrs, ret.
    destruct (Slice.append EmptyString growslice (groups h) [TrimSpace n2] (strsH σ1))
      as [s hp]. by intros [= <- <-]. }
  split.
  - intros Hlt.
    assert (groups h1 = groups h2) as ->; [|by rewrite Hr2, Hk1].
    rewrite Hg1, Hg2. unfold Slice.append. simpl.
    rewrite !decide_True by lia. done.
  - intros Hge. rewrite <- Hr1.
    destruct (append_clipped EmptyString growslice (strsH σ1) (groups h) [TrimSpace n2] Hge)
      as [Hsame|[c Hc]].
    + rewrite Hs2, Hsame. done.
    + rewrite Hs2, Hc. simpl. by apply alloc_keeps.
Qed.

End Groups.

Lemma WithGroup_empty_name_witness :
  exists h' σ',
    WithGroup (Demo.logger Demo.discard) EmptyString Demo.st2 = Some (h', σ') /\
    groupPrefix h' = EmptyString /\
    Slice.read (strsH σ') (groups h') = [EmptyString].
Proof.
  apply (WithGroup_empty_name (Demo.logger Demo.discard) EmptyString Demo.st2).
  - apply null_valid.
  - reflexivity.
Defined.

Lemma WithGroup_siblings_share_groups_witness :
  let h := {| opts := opts (Demo.logger Demo.discard); out := Demo.discard;
              groupPrefix := "g"; groups := Slice.mk 0 1 2; context := Slice.null;
              headers := Slice.mk 0 1 1 |} in
  let σ := set_strsH (fun _ => [["g"; EmptyString]])%string Demo.st2 in
  WithGroup (Demo.logger Demo.discard) "g" Demo.st2 = Some (h, σ) /\
  exists h1 σ1 h2 σ2,
    WithGroup h "a" σ = Some (h1, σ1) /\ WithGroup h "b" σ1 = Some (h2, σ2) /\
    Slice.read (strsH σ1) (groups h1) = ["g"; "a"]%string /\
    Slice.read (strsH σ2) (groups h1) = ["g"; "b"]%string.
Proof.
  intros h σ. split; [reflexivity|].
  destruct (WithGroup_siblings_share_groups h "a" "b" σ)
    as (h1 & σ1 & h2 & σ2 & H1 & H2 & H3 & _ & H5 & _).
  - unfold Slice.valid, Slice.cells. simpl. lia.
  - exists h1, σ1, h2, σ2. split; [exact H1|]. split; [exact H2|].
    split; [exact H3|]. apply H5. simpl. lia.
Defined.

(** ** Which attribute fills a header slot *)

Lemma IndexFunc_first {A} (l : list A) f : forall i,
  IndexFunc l f = Z.of_nat i ->
  (exists x, l !! i = Some x /\ f x = true) /\
  forall j y, j < i -> l !! j = Some y -> f y = false.
Proof.
  induction l as [|x l IH]; intros i; simpl; [lia|].
  destruct (f x) eqn:Hf.
  - intros Hi. assert (i = 0) as -> by lia. split; [by exists x|]. intros; lia.
  - destruct (Z.ltb_spec (IndexFunc l f) 0) as [|Hge]; [lia|].
    intros Hi. destruct i as [|i]; [lia|].
    destruct (IH i) as [Hx Hlt]; [lia|]. split; [done|].
    intros [|j] y Hj; simpl; [by intros [= <-]|]. apply Hlt. lia.
Qed.

Section Precedence.
Context {E : Encoder} {R : GoRuntime}.

Lemma store_length h hs oa : length (store h hs oa) = length hs.
Proof. unfold store. destruct (0 <=? _)%Z; [apply length_insert|done]. Qed.

Lemma fold_store_length h l : forall hs, length (fold_left (store h) l hs) = length hs.
Proof.
  induction l as [|oa l IH]; intros hs; simpl; [done|].
  by rewrite IH, store_length.
Qed.

Lemma fold_store_lookup h l hs i :
  i < length hs ->
  fold_left (store h) l hs !! i
  = match lastStored h i l with Some a => Some a | None => hs !! i end.
Proof.
  intros Hi. unfold lastStored. induction l as [|oa l IH] using rev_ind; [done|].
  rewrite fold_left_app, rev_app_distr. simpl. unfold store at 1.
  destruct (Z.eqb_spec (matchHeader h oa.2) (Z.of_nat i)) as [Heq|Hne]; simpl.
  - rewrite Heq. assert ((0 <=? Z.of_nat i)%Z = true) as -> by lia.
    rewrite Nat2Z.id. apply list_lookup_insert_eq. by rewrite fold_store_length.
  - destruct (0 <=? matchHeader h oa.2)%Z eqn:Hge; [|exact IH].
    rewrite list_lookup_insert_ne by lia. exact IH.
Qed.

Lemma lastStored_key h i l a :
  lastStored h i l = Some a ->
  Headers (opts h) !! i = Some (Key a) /\
  forall j, j < i -> Headers (opts h) !! j <> Some (Key a).
Proof.
  unfold lastStored. destruct (List.find _ (rev l)) as [oa|] eqn:Hf; [|done].
  simpl. intros [= <-]. apply find_some in Hf as [_ Hm]. apply Z.eqb_eq in Hm.
  destruct (IndexFunc_first _ _ _ Hm) as [(x & Hx & Hkey) Hlt].
  apply String.eqb_eq in Hkey. subst x. split; [done|].
  intros j Hj Hjk. apply Hlt in Hjk; [|done]. by rewrite String.eqb_refl in Hjk.
Qed.

(** X13: the header attributes [Handle] writes are one for each slot:
    the last attribute of the record stored in the slot when there is
    one, the attribute the handler has in the slot otherwise.  An
    attribute is stored in the first slot of its key: a slot whose key
    is listed earlier among the header keys is never filled. *)
Theorem Handle_header_precedence h rec σ :
  wf σ h -> pool_ok σ ->
  let gs := Slice.read (strsH σ) (groups h) in
  let ctx := Slice.read (bytesH σ) (context h) in
  let hs := Slice.read (attrsH σ) (headers h) in
  exists sl r σ',
    Handle h rec σ = Some (r, σ') /\
    sunk σ σ' =
      [((writeTimestamp (opts h) (rTime rec)).1
        ++ concat (map fst
             (if (0 <? HeaderWidth (opts h))%Z
              then map (fun a => writeHeader (opts h) a (HeaderWidth (opts h))) sl
              else if 0 <? length sl then [writeHeaders (opts h) sl] else [])))
       ++ middleText h gs ctx rec ++ trailerText h gs rec ++ [x0a]] /\
    length sl = Slice.len (headers h) /\
    (forall i, i < Slice.len (headers h) ->
       sl !! i = match lastStored h i (walked h rec) with
                 | Some a => Some a
                 | None => hs !! i
                 end) /\
    (forall i a, lastStored h i (walked h rec) = Some a ->
       Headers (opts h) !! i = Some (Key a) /\
       forall j, j < i -> Headers (opts h) !! j <> Some (Key a)).
Proof.
  intros Hwf Hpool gs ctx hs.
  destruct (Handle_run h rec σ Hwf Hpool) as (σ' & Hrun & Hw & _).
  destruct Hwf as (_ & Hvh & _).
  pose proof (read_length _ _ Hvh) as Hlen. fold hs in Hlen.
  eexists (slots h hs rec), _, σ'. split; [exact Hrun|]. split_and!.
  - unfold sunk. by rewrite Hw, drop_app_length.
  - unfold slots. by rewrite fold_store_length.
  - intros i Hi. unfold slots. apply fold_store_lookup. lia.
  - intros i a. apply lastStored_key.
Qed.

End Precedence.

Lemma Handle_header_precedence_witness :
  exists r σ',
    Handle (Demo.logger Demo.discard)
      (Demo.info "foobar" [mkAttr "logger" (StringValue "A"); mkAttr "k" (StringValue "v");
                           mkAttr "logger" (StringValue "B")]) Demo.st2 = Some (r, σ') /\
    string_of_list_byte <$> sunk Demo.st2 σ'
      = [("B INF foobar k=v" ++ String "010" EmptyString)%string].
Proof.
  destruct (Handle_header_precedence (Demo.logger Demo.discard)
              (Demo.info "foobar" [mkAttr "logger" (StringValue "A");
                                   mkAttr "k" (StringValue "v");
                                   mkAttr "logger" (StringValue "B")]) Demo.st2
              (logger_wf _) st2_pool_ok)
    as (sl & r & σ' & H1 & H2 & H3 & H4 & _).
  exists r, σ'. split; [exact H1|]. rewrite H2.
  destruct sl as [|a [|b sl]]; try discriminate H3.
  pose proof (H4 0 (le_n 1)) as H0. vm_compute in H0. injection H0 as ->.
  vm_compute. reflexivity.
Defined.

(** ** The slots of the handler stay as they are *)

Section Slots.
Context {E : Encoder} {R : GoRuntime}.

Lemma inline_key h oa :
  inline h oa = negb (bool_decide (Key oa.2 ∈ Headers (opts h))).
Proof.
  unfold inline. destruct (Z.ltb_spec (matchHeader h oa.2) 0) as [Hlt|Hge].
  - symmetry. apply negb_true_iff, bool_decide_eq_false.
    intros Hin. apply list_elem_of_In, matchHeader_In in Hin. lia.
  - symmetry. apply negb_false_iff, bool_decide_eq_true.
    by apply list_elem_of_In, matchHeader_In.
Qed.

Lemma lastStored_found h i l oa :
  In oa l -> matchHeader h oa.2 = Z.of_nat i ->
  exists b, lastStored h i l = Some b /\ In b (map snd l).
Proof.
  intros Hin Hm. unfold lastStored.
  destruct (List.find _ (rev l)) as [ob|] eqn:Hf.
  - apply find_some in Hf as [Hob _]. exists ob.2. split; [done|].
    apply in_map. by apply List.in_rev.
  - exfalso. apply List.in_rev in Hin.
    pose proof (find_none _ _ Hf oa Hin) as Hn. simpl in Hn. lia.
Qed.

(** C8: [Handle] walks the attributes of the record, and an attribute
    whose key is a header key is stored into the slots at the index of
    its key, and nothing is written in line for it: the line [Handle]
    writes has, after the timestamp, the headers of the slots [sl], and
    then the tokens of the attributes that have no header key only; the
    slot of a header key that the record has an attribute for holds the
    last such attribute, the other slots hold what the handler's hold.
    The slots it is stored into are a local copy of the handler's, made
    at the first such attribute, before it is stored; and after [Handle]
    the handler's own slots hold what they held before the call. *)
Theorem Handle_keeps_header_slots h rec σ :
  wf σ h -> pool_ok σ -> apart (hd Slice.null (pool σ)) (headers h) ->
  let gs := Slice.read (strsH σ) (groups h) in
  let ctx := Slice.read (bytesH σ) (context h) in
  let hs := Slice.read (attrsH σ) (headers h) in
  let toks := map (fun oa => (writeAttr (opts h) gs oa.2 (groupPrefix h)).1)
                  (List.filter (fun oa => negb (bool_decide (Key oa.2 ∈ Headers (opts h))))
                               (walked h rec)) in
  (forall enc w oa σ1,
     walk_ok σ1 h enc w -> In (Key oa.2) (Headers (opts h)) ->
     exists w' σ1',
       handleAttr h enc w oa σ1 = Some (w', σ1') /\
       w_localHeaders w' = true /\
       w_middle w' = w_middle w /\ w_trailer w' = w_trailer w /\
       Slice.read (attrsH σ1') (w_headers w') =
         <[Z.to_nat (matchHeader h oa.2) := oa.2]> (Slice.read (attrsH σ1) (w_headers w)) /\
       (forall r, Slice.valid (attrsH σ1) r -> clear_of enc w r ->
                  Slice.read (attrsH σ1') r = Slice.read (attrsH σ1) r)) /\
  exists sl r σ',
    Handle h rec σ = Some (r, σ') /\
    sunk σ σ' =
      [((writeTimestamp (opts h) (rTime rec)).1
        ++ concat (map fst
             (if (0 <? HeaderWidth (opts h))%Z
              then map (fun a => writeHeader (opts h) a (HeaderWidth (opts h))) sl
              else if 0 <? length sl then [writeHeaders (opts h) sl] else [])))
       ++ ((prelude h rec ++ ctx)
           ++ concat (List.filter (fun t => negb (multiline t)) toks))
       ++ concat (List.filter multiline toks) ++ [x0a]] /\
    length sl = Slice.len (headers h) /\
    (forall a, In a (rAttrs rec) -> In (Key a) (Headers (opts h)) ->
       exists i b,
         Headers (opts h) !! i = Some (Key a) /\
         sl !! i = Some b /\ Key b = Key a /\
         lastStored h i (walked h rec) = Some b /\ In b (map snd (walked h rec))) /\
    (forall i, i < Slice.len (headers h) ->
       sl !! i = match lastStored h i (walked h rec) with
                 | Some b => Some b
                 | None => hs !! i
                 end) /\
    Slice.read (attrsH σ') (headers h) = hs /\
    Slice.valid (attrsH σ') (headers h).
Proof.
  intros Hwf Hpool Hap gs ctx hs toks. split.
  - intros enc w oa σ1 Hok Hin. apply matchHeader_In in Hin.
    destruct (handleAttr_header h enc σ1 w oa Hok Hin)
      as (w' & σ1' & Hrun & _ & Hl & Hm & Ht & Hs & _ & _ & Hk).
    exists w', σ1'. split_and!; try done.
    intros r Hr Hc. by destruct (Hk r Hr Hc) as [[? _] _].
  - destruct (Handle_run h rec σ Hwf Hpool) as (σ' & Hrun & Hw & _ & _ & _ & _ & Hk).
    destruct Hwf as (Hlen & Hv & _).
    destruct (Hk (headers h) Hv Hap) as [Hr Hv'].
    pose proof (read_length _ _ Hv) as Hlhs. fold hs in Hlhs.
    assert (forall i, i < Slice.len (headers h) ->
              slots h hs rec !! i = match lastStored h i (walked h rec) with
                                    | Some a => Some a
                                    | None => hs !! i
                                    end) as Hsl.
    { intros i Hi. unfold slots. apply fold_store_lookup. lia. }
    eexists (slots h hs rec), _, σ'. split; [exact Hrun|]. split_and!; try done.
    + unfold sunk. rewrite Hw, drop_app_length. fold gs ctx hs.
      unfold line, headerText, headerEmits, middleText, trailerText, tokens.
      assert (List.filter (inline h) (walked h rec)
              = List.filter (fun oa => negb (bool_decide (Key oa.2 ∈ Headers (opts h))))
                            (walked h rec)) as ->; [|done].
      apply List.filter_ext. intros oa. apply inline_key.
    + unfold slots. by rewrite fold_store_length.
    + intros a Hin Hkey. apply matchHeader_In in Hkey.
      pose proof (matchHeader_slot h a Hkey) as Hslot.
      set (i := Z.to_nat (matchHeader h a)).
      assert (matchHeader h a = Z.of_nat i) as Hi by (subst i; lia).
      destruct (lastStored_found h i (walked h rec) (OAttr, a)) as (b & Hb & Hbin);
        [unfold walked; apply in_app_iff; left; by apply in_map|done|].
      destruct (lastStored_key h i (walked h rec) b Hb) as [Hkb _].
      destruct (IndexFunc_first _ _ _ Hi) as [(x & Hx & Hxa) _].
      apply String.eqb_eq in Hxa. subst x.
      exists i, b. split_and!; try done.
      * rewrite Hsl by lia. by rewrite Hb.
      * congruence.
Qed.

End Slots.

Lemma Handle_keeps_header_slots_witness :
  exists r σ',
    Handle (Demo.logger Demo.discard) (Demo.info "foobar" Demo.twoAttrs) Demo.st2
      = Some (r, σ') /\
    string_of_list_byte <$> sunk Demo.st2 σ'
      = [("L1 INF foobar k=v" ++ String "010" EmptyString)%string] /\
    Slice.read (attrsH σ') (Slice.mk 0 1 1) = [zeroAttr].
Proof.
  destruct (Handle_keeps_header_slots (Demo.logger Demo.discard)
              (Demo.info "foobar" Demo.twoAttrs) Demo.st2
              (logger_wf _) st2_pool_ok (or_intror (or_intror eq_refl)))
    as (_ & sl & r & σ' & Hrun & Hs & Hlen & Hst & _ & Hread & _).
  exists r, σ'. split; [exact Hrun|]. split; [|exact Hread].
  destruct (Hst (mkAttr "logger" (StringValue "L1"))) as (i & b & Hi & Hb & _ & Hl & _).
  - right. left. reflexivity.
  - left. reflexivity.
  - destruct i as [|i]; [|destruct i; discriminate Hi].
    vm_compute in Hl. injection Hl as <-.
    destruct sl as [|a [|c sl]]; try discriminate Hlen.
    injection Hb as ->. rewrite Hs. vm_compute. reflexivity.
Defined.

(** ** [init] and [NewHandler] *)

(** X14: [init] leaves no backslash in the working directory: the
    result has the bytes of what [os.Getwd] returned, in the same
    places, but for the backslashes, which are slashes. *)
Theorem init_normalises_separators (wd : string) :
  String.length (init wd) = String.length wd /\
  forall i c, String.get i (init wd) = Some c ->
    c <> "092"%char /\
    (String.get i wd = Some c \/ (c = "047"%char /\ String.get i wd = Some "092"%char)).
Proof.
  unfold init. induction wd as [|c0 wd [IHl IHg]]; simpl.
  - split; [done|]. intros i c. discriminate.
  - split; [by rewrite IHl|]. intros [|i] c; [|apply IHg].
    destruct (Ascii.eqb_spec c0 "092"%char) as [->|Hne]; intros [= <-].
    + split; [done|]. by right.
    + split; [done|]. by left.
Qed.

Lemma init_normalises_separators_witness :
  String.length (init "C:\src\app") = 10 /\
  String.get 2 (init "C:\src\app") = Some "047"%char /\
  String.get 2 "C:\src\app" = Some "092"%char.
Proof.
  destruct (init_normalises_separators "C:\src\app") as [Hl Hg].
  split; [exact Hl|].
  destruct (Hg 2 "047"%char eq_refl) as [_ [H|[_ H]]]; [discriminate H|].
  split; [reflexivity|exact H].
Defined.

Section Defaults.
Context {E : Encoder} {R : GoRuntime}.

(** X15: the handler [NewHandler] returns has a level, a time format
    and a theme whatever the options were; its slots, one for each
    header key, hold the zero attribute; and its options are a fixed
    point: [NewHandler] on them changes none. *)
Theorem NewHandler_defaults w o σ :
  exists h σ',
    NewHandler w o σ = Some (h, σ') /\
    Level_ (opts h) <> None /\ TimeFormat (opts h) <> EmptyString /\
    Theme_ (opts h) <> None /\
    Slice.read (attrsH σ') (headers h)
      = replicate (length (Headers (opts h))) zeroAttr /\
    forall w2 σ2, exists h2 σ2',
      NewHandler w2 (Some (opts h)) σ2 = Some (h2, σ2') /\ opts h2 = opts h.
Proof.
  unfold NewHandler, bind, makeAttrs, ret, Slice.make.
  eexists _, _. split; [reflexivity|]. cbn [opts headers attrsH set_attrsH].
  set (o0 := match o with Some o' => o' | None => zeroOptions end).
  set (o1 := match Level_ o0 with None => set_Level (Some LevelInfo) o0 | Some _ => o0 end).
  set (o2 := if String.eqb (TimeFormat o1) EmptyString then set_TimeFormat DateTime o1
             else o1).
  set (o3 := match Theme_ o2 with None => set_Theme (Some NewDefaultTheme) o2
             | Some _ => o2 end).
  assert (Level_ o1 <> None) as H1.
  { subst o1. destruct (Level_ o0) eqn:HL; simpl; by rewrite ?HL. }
  assert (Level_ o2 = Level_ o1 /\ TimeFormat o2 <> EmptyString) as [H2l H2].
  { subst o2. destruct (String.eqb_spec (TimeFormat o1) EmptyString); simpl; done. }
  assert (Level_ o3 = Level_ o2 /\ TimeFormat o3 = TimeFormat o2 /\ Theme_ o3 <> None)
    as (H3l & H3t & H3).
  { subst o3. destruct (Theme_ o2) eqn:HT; simpl; by rewrite ?HT. }
  split_and!.
  - congruence.
  - congruence.
  - done.
  - unfold Slice.read, Slice.cells. simpl. rewrite lookup_app_r by done.
    rewrite Nat.sub_diag. simpl. apply take_ge. by rewrite length_replicate.
  - intros w2 σ2. eexists _, _. split; [reflexivity|]. simpl.
    destruct (Level_ o3) eqn:HL; [|congruence].
    destruct (String.eqb_spec (TimeFormat o3) EmptyString) as [He|_]; [congruence|].
    destruct (Theme_ o3) eqn:HT; [|congruence]. done.
Qed.

End Defaults.

(** ** Derived handlers keep the threshold and the sink *)

Section Derived.
Context {E : Encoder} {R : GoRuntime}.

(** X16: the handlers [WithAttrs] and [WithGroup] return answer
    [Enabled] as the handler they derive from, for every level, and
    write to the same sink. *)
Theorem Enabled_derived h attrs name σ l :
  wf σ h -> Slice.valid (attrsH σ) attrs ->
  exists h1 σ1 h2 σ2,
    WithAttrs h attrs σ = Some (h1, σ1) /\ WithGroup h name σ = Some (h2, σ2) /\
    Enabled h1 l = Enabled h l /\ Enabled h2 l = Enabled h l /\
    out h1 = out h /\ out h2 = out h.
Proof.
  intros Hwf Hva. pose proof Hwf as (_ & _ & _ & Hvg).
  destruct (WithAttrs_run h attrs σ Hwf Hva) as (h1 & σ1 & Hrun1 & (Ho1 & Hw1 & _) & _).
  destruct (WithGroup_run h name σ Hvg) as (h2 & σ2 & Hrun2 & (Ho2 & Hw2 & _) & _).
  exists h1, σ1, h2, σ2. unfold Enabled. rewrite Ho1, Ho2. by split_and!.
Qed.

End Derived.

Lemma Enabled_derived_witness :
  exists h1 σ1 h2 σ2,
    WithAttrs (Demo.logger Demo.discard) Demo.attrs2 Demo.st2 = Some (h1, σ1) /\
    WithGroup (Demo.logger Demo.discard) "g" Demo.st2 = Some (h2, σ2) /\
    Enabled h1 LevelDebug = Some false /\ Enabled h2 LevelWarn = Some true.
Proof.
  destruct (Enabled_derived (Demo.logger Demo.discard) Demo.attrs2 "g" Demo.st2 LevelDebug
              (logger_wf _) attrs2_valid)
    as (h1 & σ1 & h2 & σ2 & H1 & H2 & H3 & _).
  destruct (Enabled_derived (Demo.logger Demo.discard) Demo.attrs2 "g" Demo.st2 LevelWarn
              (logger_wf _) attrs2_valid)
    as (h1' & σ1' & h2' & σ2' & H1' & H2' & _ & H4 & _).
  rewrite H2 in H2'. injection H2' as <- <-.
  exists h1, σ1, h2, σ2. split; [exact H1|]. split; [exact H2|].
  split; [by rewrite H3|by rewrite H4].
Defined.

(** ** What [Handle] allocates *)

Section Alloc.
Context {E : Encoder} {R : GoRuntime}.

(** Whether the walk makes a copy of the slots in a new array: at the
    first header attribute, when the encoder's storage has no room for
    the slots. *)
Lemma handleAttr_alloc h enc σ w oa w' σ' :
  walk_ok σ h enc w ->
  handleAttr h enc w oa σ = Some (w', σ') ->
  w_localHeaders w' = w_localHeaders w || (0 <=? matchHeader h oa.2)%Z /\
  length (attrsH σ') =
    length (attrsH σ) +
    (if (0 <=? matchHeader h oa.2)%Z && negb (w_localHeaders w) &&
        (Slice.cap (enc_headers enc) <? Slice.len (headers h))
     then 1 else 0).
Proof.
  intros (Hlen & Hval & Hloc).
  destruct (Z.leb_spec 0 (matchHeader h oa.2)) as [Hidx|Hidx].
  - unfold handleAttr. apply Z.leb_le in Hidx. rewrite Hidx.
    destruct (w_localHeaders w) eqn:Hl.
    + unfold bind at 1. unfold ret at 1. unfold bind, setAttrs, ret, Slice.set.
      case_decide; [|done]. intros [= <- <-]. simpl.
      rewrite length_insert, Hl. split; [done|lia].
    + destruct (Hloc eq_refl) as (Heq & He0 & Hev).
      unfold bind at 1. unfold bind at 1. unfold readAttrs.
      unfold bind at 1. unfold appendAttrs, Slice.append.
      rewrite He0, read_length by (by rewrite <- Heq). simpl.
      case_decide as Hfit.
      * unfold ret at 1. unfold bind, setAttrs, ret, Slice.set. simpl.
        case_decide; [|done]. intros [= <- <-]. simpl.
        rewrite !length_insert.
        assert ((Slice.cap (enc_headers enc) <? Slice.len (headers h)) = false) as ->
          by (apply Nat.ltb_ge; lia).
        split; [done|lia].
      * unfold ret at 1. unfold bind, setAttrs, ret, Slice.set. simpl.
        case_decide; [|done]. intros [= <- <-]. simpl.
        rewrite length_insert, length_app. simpl.
        assert ((Slice.cap (enc_headers enc) <? Slice.len (headers h)) = true) as ->
          by (apply Nat.ltb_lt; lia).
        split; [done|lia].
  - rewrite handleAttr_inline by done. intros [= <- <-]. simpl.
    rewrite orb_false_r. split; [done|]. lia.
Qed.

Lemma walk_alloc h enc l : forall σ w w' σ',
  walk_ok σ h enc w ->
  foldM (handleAttr h enc) l w σ = Some (w', σ') ->
  length (attrsH σ') =
    length (attrsH σ) +
    (if existsb (fun oa => negb (inline h oa)) l && negb (w_localHeaders w) &&
        (Slice.cap (enc_headers enc) <? Slice.len (headers h))
     then 1 else 0).
Proof.
  induction l as [|oa l IH]; intros σ w w' σ' Hok; simpl.
  - unfold ret. intros [= <- <-]. lia.
  - unfold bind at 1.
    destruct (handleAttr h enc w oa σ) as [[w1 σ1]|] eqn:Hstep; [|done].
    destruct (handleAttr_alloc h enc σ w oa w1 σ1 Hok Hstep) as [Hl1 Ha1].
    assert (walk_ok σ1 h enc w1) as Hok1.
    { destruct (Z.leb_spec 0 (matchHeader h oa.2)) as [Hidx|Hidx].
      - destruct (handleAttr_header h enc σ w oa Hok Hidx) as (w2 & σ2 & Hs2 & Hok2 & _).
        rewrite Hstep in Hs2. by injection Hs2 as <- <-.
      - rewrite handleAttr_inline in Hstep by done. injection Hstep as <- <-.
        apply Hok. }
    intros Hrun. rewrite (IH σ1 w1 w' σ' Hok1 Hrun), Ha1, Hl1.
    unfold inline. rewrite <- Z.leb_antisym.
    destruct (0 <=? matchHeader h oa.2)%Z, (w_localHeaders w),
      (existsb _ l), (Slice.cap (enc_headers enc) <? Slice.len (headers h)); simpl; lia.
Qed.

Lemma fill_alloc h rec σ x σ' :
  wf σ h -> pool_ok σ ->
  fill h rec σ = Some (x, σ') ->
  length (attrsH σ') =
    length (attrsH σ) +
    (if existsb (fun oa => negb (inline h oa)) (walked h rec) &&
        (Slice.cap (hd Slice.null (pool σ)) <? Slice.len (headers h))
     then 1 else 0).
Proof.
  intros (Hlen & Hvh & Hvc & Hvg) Hpool.
  destruct (pool_head_ok σ Hpool) as [He0 Hev].
  unfold fill. unfold bind at 1. rewrite newEncoder_run.
  unfold bind at 1. unfold encWrite at 1.
  unfold bind at 1. unfold encWrite at 1.
  unfold bind at 1. unfold encWrite at 1.
  unfold bind at 1. unfold readBytes at 1.
  set (enc := {| enc_opts := opts h |}).
  set (σ0 := set_hooks _ (set_hooks _ (set_hooks _ (set_pool _ σ)))).
  set (w0 := {| w_headers := headers h |}).
  assert (walk_ok σ0 h enc w0) as Hok by (split_and!; done).
  unfold bind at 1.
  destruct (foldM (handleAttr h enc) (walked h rec) w0 σ0) as [[w σ1]|] eqn:Hrun; [|done].
  pose proof (walk_alloc h enc (walked h rec) σ0 w0 w σ1 Hok Hrun) as Ha1.
  simpl in Ha1. rewrite andb_true_r in Ha1.
  unfold bind at 1. unfold readAttrs at 1.
  destruct (0 <? HeaderWidth (opts h))%Z.
  - unfold bind at 1.
    match goal with |- context [foldM _ ?l ?b σ1] =>
      destruct (headers_run (fun a => writeHeader (enc_opts enc) a (HeaderWidth (opts h)))
                  l b σ1) as (σ2 & Hf & _ & Ha2 & _) end.
    rewrite Hf. unfold ret. intros [= <- <-]. by rewrite Ha2.
  - destruct (0 <? length _).
    + unfold bind, encWrite, ret. intros [= <- <-]. done.
    + unfold bind, ret. intros [= <- <-]. done.
Qed.

(** X17: for a record it adds no attribute to, [Handle] allocates at
    most one array of attributes, the copy of the slots: it allocates
    it when the record has an attribute with a header key and the
    storage of the encoder it got from the pool has less room than the
    handler has slots; it allocates none otherwise.  The copy is a
    variable of [Handle] only: the encoder goes back to the pool with
    the storage it came with, of the same capacity. *)
Theorem Handle_allocates_at_most_once h rec σ :
  wf σ h -> pool_ok σ ->
  addsNothing h rec = true ->
  exists r σ',
    Handle h rec σ = Some (r, σ') /\
    length (attrsH σ') =
      length (attrsH σ) +
      (if existsb (fun a => (0 <=? matchHeader h a)%Z) (rAttrs rec) &&
          (Slice.cap (hd Slice.null (pool σ)) <? Slice.len (headers h))
       then 1 else 0) /\
    (r = None ->
     Slice.cap (hd Slice.null (pool σ')) = Slice.cap (hd Slice.null (pool σ)) /\
     tl (pool σ') = tl (pool σ)).
Proof.
  intros Hwf Hpool Hadd.
  assert (existsb (fun oa => negb (inline h oa)) (walked h rec)
          = existsb (fun a => (0 <=? matchHeader h a)%Z) (rAttrs rec)) as Hex.
  { unfold walked. unfold addsNothing in Hadd. apply negb_true_iff in Hadd.
    rewrite Hadd, app_nil_r.
    induction (rAttrs rec) as [|a l IH]; simpl; [done|].
    rewrite IH. unfold inline at 1. simpl. by rewrite Z.ltb_antisym, negb_involutive. }
  destruct (Handle_run h rec σ Hwf Hpool) as (σ' & Hrun & _ & _ & _ & _ & Hp & _).
  eexists _, σ'. split; [exact Hrun|]. split.
  - pose proof Hrun as Hrun'. unfold Handle in Hrun'. unfold bind at 1 in Hrun'.
    destruct (fill h rec σ) as [[[[enc hb] w] σ1]|] eqn:Hfill; [|done].
    pose proof (fill_alloc h rec σ _ σ1 Hwf Hpool Hfill) as Ha.
    rewrite Hex in Ha.
    unfold bind, WriteTo, free, ret in Hrun'.
    match type of Hrun' with
    | (match ?c with _ => _ end) _ = _ => destruct c
    end; injection Hrun' as _ <-; done.
  - intros Hr. rewrite Hr in Hp. by rewrite Hp.
Qed.

End Alloc.

Lemma Handle_allocates_at_most_once_witness :
  exists r σ1 r' σ2,
    Handle (Demo.logger Demo.discard)
      (Demo.info "foobar" [mkAttr "logger" (StringValue "A")]) Demo.st2 = Some (r, σ1) /\
    length (attrsH σ1) = 3 /\
    Handle (Demo.logger Demo.discard)
      (Demo.info "foobar" [mkAttr "logger" (StringValue "B")]) σ1 = Some (r', σ2) /\
    length (attrsH σ2) = 4.
Proof.
  destruct (Handle_allocates_at_most_once (Demo.logger Demo.discard)
              (Demo.info "foobar" [mkAttr "logger" (StringValue "A")]) Demo.st2
              (logger_wf _) st2_pool_ok eq_refl)
    as (r & σ1 & H1 & H2 & _).
  assert (attrsH σ1 = [[zeroAttr]; Demo.twoAttrs;
                        [mkAttr "logger" (StringValue "A"); zeroAttr]] /\
          bytesH σ1 = [] /\ strsH σ1 = [] /\ pool σ1 = [Slice.null])
    as (Ha & Hb & Hs & Hp).
  { vm_compute in H1. injection H1 as _ <-. by split_and!. }
  destruct (Handle_allocates_at_most_once (Demo.logger Demo.discard)
              (Demo.info "foobar" [mkAttr "logger" (StringValue "B")]) σ1)
    as (r' & σ2 & H3 & H4 & _).
  - unfold wf, Slice.valid, Slice.cells. rewrite Ha, Hb, Hs. simpl. lia.
  - unfold pool_ok. rewrite Hp. constructor; [|constructor].
    unfold Slice.valid, Slice.cells. simpl. lia.
  - reflexivity.
  - exists r, σ1, r', σ2. split; [exact H1|]. split; [exact H2|]. split; [exact H3|].
    rewrite H4, Ha, Hp. reflexivity.
Defined.

(** ** The order of [WithGroup] and [WithAttrs] *)

Section Order.
Context {E : Encoder} {R : GoRuntime}.

(** X18: attributes are qualified when they are bound.  [WithAttrs]
    after [WithGroup] writes the tokens under the longer prefix and
    group path; [WithGroup] after [WithAttrs] leaves the tokens already
    in the context as they were written, under the parent's prefix.
    Both handlers have the same prefix for what comes later. *)
Theorem WithGroup_WithAttrs_order h name attrs σ :
  wf σ h -> Slice.valid (attrsH σ) attrs ->
  let l := map (strip h) (Slice.read (attrsH σ) attrs) in
  let gs := Slice.read (strsH σ) (groups h) in
  let ctx := Slice.read (bytesH σ) (context h) in
  let p := if String.eqb (groupPrefix h) EmptyString then TrimSpace name
           else (groupPrefix h ++ "." ++ TrimSpace name)%string in
  (exists h1 σ1 h2 σ2,
     WithGroup h name σ = Some (h1, σ1) /\ WithAttrs h1 attrs σ1 = Some (h2, σ2) /\
     groupPrefix h2 = p /\
     Slice.read (bytesH σ2) (context h2)
       = ctx ++ concat (map (fun a => (writeAttr (opts h) (gs ++ [TrimSpace name]) a p).1) l)) /\
  (exists h1 σ1 h2 σ2,
     WithAttrs h attrs σ = Some (h1, σ1) /\ WithGroup h1 name σ1 = Some (h2, σ2) /\
     groupPrefix h2 = p /\
     Slice.read (bytesH σ2) (context h2)
       = ctx ++ concat (map (fun a => (writeAttr (opts h) gs a (groupPrefix h)).1) l)).
Proof.
  intros Hwf Hva l gs ctx p. pose proof Hwf as (Hlen & Hvh & Hvc & Hvg). split.
  - destruct (WithGroup_run h name σ Hvg)
      as (h1 & σ1 & Hrun1 & (Ho & _ & Hc & Hh) & Hp & (Hrg & Hvg') & _ & Hb & Ha & _).
    assert (wf σ1 h1) as Hwf1 by (unfold wf; rewrite Ho, Hh, Hc, Ha, Hb; by split_and!).
    assert (Slice.valid (attrsH σ1) attrs) as Hva1 by (by rewrite Ha).
    destruct (WithAttrs_run h1 attrs σ1 Hwf1 Hva1)
      as (h2 & σ2 & Hrun2 & (_ & _ & Hp2 & _) & _ & (Hrc & _) & _).
    exists h1, σ1, h2, σ2. split; [exact Hrun1|]. split; [exact Hrun2|].
    split; [by rewrite Hp2, Hp|].
    by rewrite Hrc, Hc, Hb, Ha, Hrg, Ho, Hp, (strip_ext h1 h Ho).
  - destruct (WithAttrs_run h attrs σ Hwf Hva)
      as (h1 & σ1 & Hrun1 & (_ & _ & Hp1 & Hg1) & _ & (Hrc & _) & _ & (Hs & _) & _).
    assert (Slice.valid (strsH σ1) (groups h1)) as Hvg1 by (by rewrite Hg1, Hs).
    destruct (WithGroup_run h1 name σ1 Hvg1)
      as (h2 & σ2 & Hrun2 & (_ & _ & Hc & _) & Hp & _ & _ & Hb & _).
    exists h1, σ1, h2, σ2. split; [exact Hrun1|]. split; [exact Hrun2|].
    split; [by rewrite Hp, Hp1|]. by rewrite Hc, Hb, Hrc.
Qed.

End Order.

Lemma WithGroup_WithAttrs_order_witness :
  (exists h1 σ1 h2 σ2,
     WithGroup (Demo.logger Demo.discard) "g" Demo.st2 = Some (h1, σ1) /\
     WithAttrs h1 Demo.attrs2 σ1 = Some (h2, σ2) /\
     string_of_list_byte (Slice.read (bytesH σ2) (context h2)) = " g.k=v"%string) /\
  (exists h1 σ1 h2 σ2,
     WithAttrs (Demo.logger Demo.discard) Demo.attrs2 Demo.st2 = Some (h1, σ1) /\
     WithGroup h1 "g" σ1 = Some (h2, σ2) /\
     string_of_list_byte (Slice.read (bytesH σ2) (context h2)) = " k=v"%string).
Proof.
  destruct (WithGroup_WithAttrs_order (Demo.logger Demo.discard) "g" Demo.attrs2 Demo.st2
              (logger_wf _) attrs2_valid)
    as [(h1 & σ1 & h2 & σ2 & H1 & H2 & _ & H3) (h3 & σ3 & h4 & σ4 & H4 & H5 & _ & H6)].
  split.
  - exists h1, σ1, h2, σ2. split; [exact H1|]. split; [exact H2|].
    rewrite H3. vm_compute. reflexivity.
  - exists h3, σ3, h4, σ4. split; [exact H4|]. split; [exact H5|].
    rewrite H6. vm_compute. reflexivity.
Defined.

